(** * Session-multiplexed message passing and the framed IPC transport

    A shallow embedding of two protocol engines of the password-manager
    clients:

    - [IPC]: [IPCService] of
      [apps/desktop/native-messaging-test-runner/src/ipc.service.ts], the
      client that frames JSON messages over the stdio pipe of the
      [desktop_proxy] child process, correlates responses by message id and
      puts a timeout on every request;
    - [Fido2]: [BrowserFido2UserInterfaceSession], the session class of the
      browser extension's FIDO2 user-interface service, the broker that runs
      one credential ceremony per session over the process-wide message bus.

    [Popup] is [Fido2Component], the page of the popout that a session
    opens and talks to over the bus.

    All run on a single-threaded event loop: every method and every event
    callback is a function from the state before to the state after, and
    what a method does to the outside (bytes written to the child's stdin,
    messages broadcast, windows closed) is recorded in the state or in a
    trace. *)

From Stdlib Require Import NArith ZArith Lia.
From Stdlib Require Import Strings.Byte.
From stdpp Require Import gmap list strings.

Local Open Scope N_scope.
Local Set Warnings "-register-all".

(** ** Bytes, buffers and JavaScript strings *)

Abbreviation byte := Byte.byte.

(** The byte holding the low eight bits of [n]. *)
Definition byte_of_N (n : N) : byte :=
  default Byte.x00 (Byte.of_N (n mod 256)).

(** A JavaScript string is a sequence of UTF-16 code units; [String.length]
    counts code units. *)
Abbreviation JSString := (list N).

(** The code units of an ASCII literal. *)
Fixpoint js (s : string) : JSString :=
  match s with
  | EmptyString => []
  | String a rest => Ascii.N_of_ascii a :: js rest
  end.

Definition is_high_surrogate (u : N) : bool := (0xD800 <=? u) && (u <=? 0xDBFF).
Definition is_low_surrogate (u : N) : bool := (0xDC00 <=? u) && (u <=? 0xDFFF).

(** UTF-8 encoding of one code point. *)
Definition utf8_encode (cp : N) : list byte :=
  if cp <? 0x80 then [byte_of_N cp]
  else if cp <? 0x800 then
    [byte_of_N (N.lor 0xC0 (N.shiftr cp 6));
     byte_of_N (N.lor 0x80 (N.land cp 0x3F))]
  else if cp <? 0x10000 then
    [byte_of_N (N.lor 0xE0 (N.shiftr cp 12));
     byte_of_N (N.lor 0x80 (N.land (N.shiftr cp 6) 0x3F));
     byte_of_N (N.lor 0x80 (N.land cp 0x3F))]
  else
    [byte_of_N (N.lor 0xF0 (N.shiftr cp 18));
     byte_of_N (N.lor 0x80 (N.land (N.shiftr cp 12) 0x3F));
     byte_of_N (N.lor 0x80 (N.land (N.shiftr cp 6) 0x3F));
     byte_of_N (N.lor 0x80 (N.land cp 0x3F))].

(** U+FFFD, which stands for a surrogate that has no partner. *)
Definition replacement_character : N := 0xFFFD.

(** The characters of a string, each as its UTF-8 bytes: a surrogate pair is
    one character of four bytes, a lone surrogate is written as U+FFFD. *)
Fixpoint utf8_chars (s : JSString) : list (list byte) :=
  match s with
  | [] => []
  | u :: rest =>
      if is_high_surrogate u then
        match rest with
        | l :: rest' =>
            if is_low_surrogate l then
              utf8_encode (0x10000 + (u - 0xD800) * 0x400 + (l - 0xDC00))
                :: utf8_chars rest'
            else utf8_encode replacement_character :: utf8_chars rest
        | [] => [utf8_encode replacement_character]
        end
      else if is_low_surrogate u then
        utf8_encode replacement_character :: utf8_chars rest
      else utf8_encode u :: utf8_chars rest
  end.

(** The UTF-8 serialization of a string, and [Buffer.byteLength]. *)
Definition utf8 (s : JSString) : list byte := concat (utf8_chars s).
Definition byteLength (s : JSString) : nat := length (utf8 s).

(** [Buffer.alloc(size)]: [size] zero bytes. *)
Definition Buffer_alloc (size : nat) : list byte := replicate size Byte.x00.

(** The bytes that [buf.write] stores when [room] bytes are left: whole
    characters while they fit, never part of one. *)
Fixpoint utf8_fit (chars : list (list byte)) (room : nat) : list byte :=
  match chars with
  | [] => []
  | c :: cs =>
      if (length c <=? room)%nat then c ++ utf8_fit cs (room - length c)
      else []
  end.

(** [buf.write(string, offset)]. *)
Definition Buffer_write (buf : list byte) (str : JSString) (offset : nat)
  : list byte :=
  let written := utf8_fit (utf8_chars str) (length buf - offset) in
  take offset buf ++ written ++ drop (offset + length written) buf.

(** The four bytes of [value], least significant first. *)
Definition uint32LE (value : N) : list byte :=
  [byte_of_N value;
   byte_of_N (N.shiftr value 8);
   byte_of_N (N.shiftr value 16);
   byte_of_N (N.shiftr value 24)].

(** [buf.writeUInt32LE(value, offset)]; [None] is the [RangeError] that Node
    raises when [value] is not a uint32 or the four bytes do not fit. *)
Definition writeUInt32LE (buf : list byte) (value : N) (offset : nat)
  : option (list byte) :=
  if (value <? 2 ^ 32) && (offset + 4 <=? length buf)%nat then
    Some (take offset buf ++ uint32LE value ++ drop (offset + 4) buf)
  else None.

(** [buf.readUInt32LE(0)] on a buffer of at least four bytes (the caller
    checks the length first; [None] is the [RangeError] otherwise). *)
Definition readUInt32LE (buf : list byte) : option N :=
  match buf with
  | b0 :: b1 :: b2 :: b3 :: _ =>
      Some (Byte.to_N b0 + N.shiftl (Byte.to_N b1) 8
            + N.shiftl (Byte.to_N b2) 16 + N.shiftl (Byte.to_N b3) 24)
  | _ => None
  end.

(** [buf.subarray(start, end)], both ends clamped to the buffer. *)
Definition subarray (buf : list byte) (start stop : nat) : list byte :=
  take (stop - start) (drop start buf).

(** [buf.subarray(start)]. *)
Definition subarray_from (buf : list byte) (start : nat) : list byte :=
  drop start buf.

(** ** JSON values and errors *)

(** What [JSON.parse] returns.  A number is kept as the decimal it was
    written as, [mantissa * 10 ^ exponent]; an object keeps its properties in
    the order of the text. *)
Inductive JSON : Type :=
| JNull
| JBool (b : bool)
| JNumber (mantissa exponent : Z)
| JString (s : JSString)
| JArray (items : list JSON)
| JObject (props : list (JSString * JSON)).

(** [ToBoolean]; [None] stands for [undefined]. *)
Definition truthy (v : option JSON) : bool :=
  match v with
  | None | Some JNull => false
  | Some (JBool b) => b
  | Some (JNumber m _) => negb (m =? 0)%Z
  | Some (JString s) => negb (bool_decide (s = []))
  | Some (JArray _) | Some (JObject _) => true
  end.

Fixpoint assoc (k : JSString) (props : list (JSString * JSON)) : option JSON :=
  match props with
  | [] => None
  | (k', v) :: rest => if bool_decide (k' = k) then Some v else assoc k rest
  end.

(** [value?.key] for a key that is neither an index nor [length]: a property
    of an object, [undefined] on everything else, [null] included. *)
Definition prop (value : JSON) (key : JSString) : option JSON :=
  match value with
  | JObject props => assoc key props
  | _ => None
  end.

(** [value?.key === "literal"]. *)
Definition prop_is (value : JSON) (key literal : JSString) : bool :=
  match prop value key with
  | Some (JString s) => bool_decide (s = literal)
  | _ => false
  end.

Inductive Error : Type :=
| Error_ (message : JSString)   (* [new Error(message)] *)
| SyntaxError                   (* [JSON.parse] on a text that is not JSON *)
| TypeError                     (* a property read on [null] *)
| RangeError                    (* a value or an offset out of range *)
| SpawnError (code : JSString). (* what the child process emits on "error" *)

(** The state of a promise. *)
Inductive Settled (A : Type) : Type :=
| Pending
| Resolved (value : A)
| Rejected (error : Error).
Arguments Pending {A}.
Arguments Resolved {A} value.
Arguments Rejected {A} error.

(** [resolve] and [reject] of a promise: the first settlement stays. *)
Definition settle {A} (outcome : Settled A) (p : Settled A) : Settled A :=
  match p with
  | Pending => outcome
  | _ => p
  end.

(** How a call ends. *)
Inductive Completion (A : Type) : Type :=
| Normal (value : A)
| Throw (error : Error).
Arguments Normal {A} value.
Arguments Throw {A} error.

(** * The framed IPC client *)

Module IPC.

(** What the service takes from its platform and from the type declarations
    of the messages it sends: [MessageCommon] with its [messageId] (a
    string), [JSON.stringify], [Buffer.prototype.toString] and [JSON.parse]
    ([None] when it throws a [SyntaxError]). *)
Class Platform : Type := {
  MessageCommon : Type;
  messageId : MessageCommon -> JSString;
  JSON_stringify : MessageCommon -> JSString;
  Buffer_toString : list byte -> JSString;
  JSON_parse : JSString -> option JSON;
}.

Inductive IPCConnectionState : Type :=
| Disconnected
| Connecting
| Connected.

Definition DEFAULT_MESSAGE_TIMEOUT : Z := 10 * 1000.

Record IPCOptions : Type := { overrideTimeout : option Z }.

(** Modelled from the spec: [race] of [./race], which is not among the
    sources.  One call of [race({promise, timeout, error})]: it returns a
    promise that the first of the two settles, [promise] with its value or the
    timer with [error]. *)
Record Race : Type := {
  race_promise : nat;
  race_timeout : Z;
  race_error : Error;
  race_outcome : Settled JSON;
}.

(** The fields of [IPCService], followed by the objects around it that its
    methods reach: the deferred promises it has created, the races, what each
    spawned child was sent on its stdin and the messages handed to
    [messageHandler].  A deferred, a race and a child are named by their index
    in these lists. *)
Record IPCService : Type := {
  connectionState : IPCConnectionState;
  pendingMessages : gmap JSString nat;
  awaitingConnection : list nat;
  process : option nat;
  processOutputBuffer : list byte;
  responses : list (Settled JSON);
  connections : list (Settled unit);
  races : list Race;
  children : list (list (list byte));
  handled : list JSON;
}.

(** [new IPCService(socketName, messageHandler)]. *)
Definition initial : IPCService :=
  {| connectionState := Disconnected; pendingMessages := ∅;
     awaitingConnection := []; process := None; processOutputBuffer := [];
     responses := []; connections := []; races := []; children := [];
     handled := [] |}.

Definition set_connectionState (v : IPCConnectionState) (s : IPCService) :=
  {| connectionState := v; pendingMessages := pendingMessages s;
     awaitingConnection := awaitingConnection s; process := process s;
     processOutputBuffer := processOutputBuffer s; responses := responses s;
     connections := connections s; races := races s; children := children s;
     handled := handled s |}.

Definition set_pendingMessages (v : gmap JSString nat) (s : IPCService) :=
  {| connectionState := connectionState s; pendingMessages := v;
     awaitingConnection := awaitingConnection s; process := process s;
     processOutputBuffer := processOutputBuffer s; responses := responses s;
     connections := connections s; races := races s; children := children s;
     handled := handled s |}.

Definition set_awaitingConnection (v : list nat) (s : IPCService) :=
  {| connectionState := connectionState s;
     pendingMessages := pendingMessages s; awaitingConnection := v;
     process := process s; processOutputBuffer := processOutputBuffer s;
     responses := responses s; connections := connections s;
     races := races s; children := children s; handled := handled s |}.

Definition set_process (v : option nat) (s : IPCService) :=
  {| connectionState := connectionState s;
     pendingMessages := pendingMessages s;
     awaitingConnection := awaitingConnection s; process := v;
     processOutputBuffer := processOutputBuffer s; responses := responses s;
     connections := connections s; races := races s; children := children s;
     handled := handled s |}.

Definition set_processOutputBuffer (v : list byte) (s : IPCService) :=
  {| connectionState := connectionState s;
     pendingMessages := pendingMessages s;
     awaitingConnection := awaitingConnection s; process := process s;
     processOutputBuffer := v; responses := responses s;
     connections := connections s; races := races s; children := children s;
     handled := handled s |}.

Definition set_responses (v : list (Settled JSON)) (s : IPCService) :=
  {| connectionState := connectionState s;
     pendingMessages := pendingMessages s;
     awaitingConnection := awaitingConnection s; process := process s;
     processOutputBuffer := processOutputBuffer s; responses := v;
     connections := connections s; races := races s; children := children s;
     handled := handled s |}.

Definition set_connections (v : list (Settled unit)) (s : IPCService) :=
  {| connectionState := connectionState s;
     pendingMessages := pendingMessages s;
     awaitingConnection := awaitingConnection s; process := process s;
     processOutputBuffer := processOutputBuffer s; responses := responses s;
     connections := v; races := races s; children := children s;
     handled := handled s |}.

Definition set_races (v : list Race) (s : IPCService) :=
  {| connectionState := connectionState s;
     pendingMessages := pendingMessages s;
     awaitingConnection := awaitingConnection s; process := process s;
     processOutputBuffer := processOutputBuffer s; responses := responses s;
     connections := connections s; races := v; children := children s;
     handled := handled s |}.

Definition set_children (v : list (list (list byte))) (s : IPCService) :=
  {| connectionState := connectionState s;
     pendingMessages := pendingMessages s;
     awaitingConnection := awaitingConnection s; process := process s;
     processOutputBuffer := processOutputBuffer s; responses := responses s;
     connections := connections s; races := races s; children := v;
     handled := handled s |}.

Definition set_handled (v : list JSON) (s : IPCService) :=
  {| connectionState := connectionState s;
     pendingMessages := pendingMessages s;
     awaitingConnection := awaitingConnection s; process := process s;
     processOutputBuffer := processOutputBuffer s; responses := responses s;
     connections := connections s; races := races s; children := children s;
     handled := v |}.

(** A method of the service: it ends normally or throws, and leaves a
    state. *)
Definition M (A : Type) : Type := IPCService -> Completion A * IPCService.

#[export] Instance M_ret : MRet M := fun A a s => (Normal a, s).

#[export] Instance M_bind : MBind M := fun A B k m s =>
  match m s with
  | (Normal a, s') => k a s'
  | (Throw e, s') => (Throw e, s')
  end.

Definition throw {A} (e : Error) : M A := fun s => (Throw e, s).
Definition gets {A} (f : IPCService -> A) : M A := fun s => (Normal (f s), s).
Definition modify (f : IPCService -> IPCService) : M unit :=
  fun s => (Normal tt, f s).

(** [try { body } catch (error) { handler }]. *)
Definition try_catch {A} (body : M A) (handler : Error -> M A) : M A :=
  fun s =>
    match body s with
    | (Normal a, s') => (Normal a, s')
    | (Throw e, s') => handler e s'
    end.

Section Service.
Context `{Platform}.

(** Modelled from the spec: [Deferred] of [./deferred], which is not among
    the sources, a promise kept with its [resolve] and [reject].
    [new Deferred<UnencryptedMessageResponse>()]. *)
Definition new_Deferred : M nat := fun s =>
  (Normal (length (responses s)), set_responses (responses s ++ [Pending]) s).

(** Modelled from the spec: [new Deferred<void>()], see [new_Deferred]. *)
Definition new_Deferred_void : M nat := fun s =>
  (Normal (length (connections s)),
   set_connections (connections s ++ [Pending]) s).

(** A race that is still open on promise [d] closes with [outcome]. *)
Definition race_settle (d : nat) (outcome : Settled JSON) (r : Race) : Race :=
  if bool_decide (race_promise r = d) then
    {| race_promise := race_promise r; race_timeout := race_timeout r;
       race_error := race_error r;
       race_outcome := settle outcome (race_outcome r) |}
  else r.

(** Modelled from the spec: [deferred.resolve(value)] of [./deferred]; the
    promise is fulfilled, and so is every race that waits for it. *)
Definition Deferred_resolve (d : nat) (value : JSON) : M unit :=
  modify (fun s =>
    set_races (race_settle d (Resolved value) <$> races s)
      (set_responses (alter (settle (Resolved value)) d (responses s)) s)).

(** Modelled from the spec: [deferred.resolve(null)] and
    [deferred.reject(error)] of a [Deferred<void>]. *)
Definition Deferred_void_settle (outcome : Settled unit) (d : nat)
  (s : IPCService) : IPCService :=
  set_connections (alter (settle outcome) d (connections s)) s.

(** Modelled from the spec: [race({promise, timeout, error})] of [./race]
    returns the racing promise; it does not throw. *)
Definition race (promise : nat) (timeout : Z) (error : Error) : M nat :=
  fun s =>
    (Normal (length (races s)),
     set_races
       (races s ++
        [{| race_promise := promise; race_timeout := timeout;
            race_error := error;
            race_outcome :=
              match responses s !! promise with
              | Some (Resolved v) => Resolved v
              | _ => Pending
              end |}]) s).

(** Modelled from the spec: the timer of race [r] fires and rejects the
    racing promise with the error of the race. *)
Definition timeout_elapses (r : nat) (s : IPCService) : IPCService :=
  set_races
    (alter (fun x =>
       {| race_promise := race_promise x; race_timeout := race_timeout x;
          race_error := race_error x;
          race_outcome := settle (Rejected (race_error x)) (race_outcome x) |})
       r (races s)) s.

(** The state of the promise that [sendMessage] returned as race [r]. *)
Definition outcome_of (r : nat) (s : IPCService) : option (Settled JSON) :=
  race_outcome <$> races s !! r.

(** [this.process?.stdin.write(buffer)]. *)
Definition stdin_write (buffer : list byte) : M unit :=
  modify (fun s =>
    match process s with
    | Some p => set_children (alter (fun sent => sent ++ [buffer]) p (children s)) s
    | None => s
    end).

(** [_connect]: the state becomes [Connecting] and the proxy is spawned.  The
    callbacks it registers on the child are [processIpcMessage] for the data
    of its stdout, [on_process_error] and [on_process_exit] below; what the
    child writes to its stderr is only logged. *)
Definition _connect : M unit :=
  modify (fun s =>
    set_process (Some (length (children s)))
      (set_children (children s ++ [[]])
         (set_connectionState Connecting s))).

(** [connect]: [None] when it returns at once, [Some d] when it returns the
    promise of the deferred [d] it has put in [awaitingConnection]. *)
Definition connect : M (option nat) :=
  state ← gets connectionState;
  match state with
  | Connected => mret None
  | _ =>
      deferredConnections ← new_Deferred_void;
      modify (fun s =>
        set_awaitingConnection (awaitingConnection s ++ [deferredConnections]) s);;
      state ← gets connectionState;
      match state with
      | Disconnected => _connect
      | _ => mret tt
      end;;
      mret (Some deferredConnections)
  end.

(** The child emits "error": every waiting deferred is rejected and the set
    is cleared. *)
Definition on_process_error (error : Error) (s : IPCService) : IPCService :=
  set_awaitingConnection []
    (foldl (fun s d => Deferred_void_settle (Rejected error) d s) s
       (awaitingConnection s)).

(** The child emits "exit". *)
Definition on_process_exit (s : IPCService) : IPCService :=
  set_connectionState Disconnected s.

(** [sendIpcMessage]: the length of the string, then the string, in a buffer
    of four bytes more than the string has code units. *)
Definition sendIpcMessage (message : MessageCommon) : M unit :=
  let messageStr := JSON_stringify message in
  let buffer := Buffer_alloc (4 + length messageStr) in
  match writeUInt32LE buffer (N.of_nat (length messageStr)) 0 with
  | None => throw RangeError
  | Some buffer =>
      let buffer := Buffer_write buffer messageStr 4 in
      stdin_write buffer
  end.

Definition duplicate_error (id : JSString) : Error :=
  Error_ (js "A message with the id: " ++ id ++ js " has already been sent.").

Definition timeout_error (id : JSString) : Error :=
  Error_ (js "Message: " ++ id ++ js " timed out").

(** [sendMessage]: it throws, which rejects the promise of the call at once,
    or returns the racing promise [r], which becomes the promise of the
    call. *)
Definition sendMessage (message : MessageCommon) (options : IPCOptions)
  : M nat :=
  pending ← gets pendingMessages;
  if bool_decide (is_Some (pending !! messageId message)) then
    throw (duplicate_error (messageId message))
  else
    deferred ← new_Deferred;
    modify (fun s =>
      set_pendingMessages (<[messageId message := deferred]> (pendingMessages s)) s);;
    sendIpcMessage message;;
    try_catch
      (race deferred
         (default DEFAULT_MESSAGE_TIMEOUT (overrideTimeout options))
         (timeout_error (messageId message)))
      (fun error =>
         modify (fun s =>
           set_pendingMessages (delete (messageId message) (pendingMessages s)) s);;
         throw error).

(** [this.pendingMessages.get(key)] for a key read from a parsed message:
    the keys of the map are strings, so only a string finds an entry. *)
Definition pending_get (key : option JSON) (s : IPCService) : option nat :=
  match key with
  | Some (JString id) => pendingMessages s !! id
  | _ => None
  end.

(** [this.pendingMessages.has(key)]. *)
Definition pending_has (key : option JSON) (s : IPCService) : bool :=
  bool_decide (is_Some (pending_get key s)).

(** [this.pendingMessages.delete(key)]. *)
Definition pending_delete (key : option JSON) (s : IPCService) : IPCService :=
  match key with
  | Some (JString id) => set_pendingMessages (delete id (pendingMessages s)) s
  | _ => s
  end.

(** [this.messageHandler(message)], a callback that is taken to return
    normally; the messages it was given are kept in [handled]. *)
Definition messageHandler (message : JSON) : M unit :=
  modify (fun s => set_handled (handled s ++ [message]) s).

(** [processMessage]: reading [messageId] of [null] throws. *)
Definition processMessage (message : JSON) : M unit :=
  match message with
  | JNull => throw TypeError
  | _ =>
      let id := prop message (js "messageId") in
      has ← gets (pending_has id);
      if truthy id && has then
        deferred ← gets (pending_get id);
        match deferred with
        | Some deferred => Deferred_resolve deferred message
        | None => throw TypeError
        end;;
        modify (pending_delete id)
      else messageHandler message
  end.

(** What one turn of the [while (true)] loop ends with. *)
Inductive Turn : Type := Continue | Return.

(** The end of a turn, from "Process the connect/disconnect messages
    separately" on: what is done with the parsed message. *)
Definition processIpcMessage_dispatch (message : JSON) : M Turn :=
  if prop_is message (js "command") (js "connected") then
    modify (set_connectionState Connected);;
    modify (fun s =>
      foldl (fun s d => Deferred_void_settle (Resolved tt) d s) s
        (awaitingConnection s));;
    modify (set_awaitingConnection []);;
    mret Continue
  else if prop_is message (js "command") (js "disconnected") then
    modify (set_connectionState Disconnected);;
    mret Continue
  else
    processMessage message;;
    mret Continue.

(** The body of the loop of [processIpcMessage]. *)
Definition processIpcMessage_turn : M Turn :=
  buffer ← gets processOutputBuffer;
  if (length buffer <? 4)%nat then mret Return
  else
    match readUInt32LE buffer with
    | None => throw RangeError
    | Some msgLength =>
        if msgLength + 4 <? N.of_nat (length buffer) then mret Return
        else
          let messageStr :=
            Buffer_toString (subarray buffer 4 (N.to_nat (msgLength + 4))) in
          match JSON_parse messageStr with
          | None => throw SyntaxError
          | Some message =>
              modify (fun s =>
                set_processOutputBuffer
                  (subarray_from (processOutputBuffer s) (N.to_nat (msgLength + 4))) s);;
              processIpcMessage_dispatch message
          end
    end.

(** The loop, with a bound on its turns; [None] when the bound is reached. *)
Fixpoint processIpcMessage_loop (turns : nat) (s : IPCService)
  : option (Completion unit * IPCService) :=
  match turns with
  | O => None
  | S turns =>
      match processIpcMessage_turn s with
      | (Normal Continue, s') => processIpcMessage_loop turns s'
      | (Normal Return, s') => Some (Normal tt, s')
      | (Throw e, s') => Some (Throw e, s')
      end
  end.

(** [processIpcMessage(data)], the callback of the child's stdout: every turn
    but the last takes at least four bytes off the buffer, which bounds the
    turns. *)
Definition processIpcMessage (data : list byte) (s : IPCService)
  : option (Completion unit * IPCService) :=
  let s := set_processOutputBuffer (processOutputBuffer s ++ data) s in
  processIpcMessage_loop (S (length (processOutputBuffer s))) s.

End Service.

(** A frame of the native-messaging host protocol: the byte count of the
    payload as a little-endian uint32, then the payload. *)
Definition frame (payload : list byte) : list byte :=
  uint32LE (N.of_nat (length payload)) ++ payload.

End IPC.

(** * A platform to run the client on

    [Buffer.prototype.toString], [JSON.parse] and [JSON.stringify] as Node
    has them, for the examples: the results about the client hold for every
    [IPC.Platform]. *)

Module Node.

(** ** [buf.toString()]: UTF-8 to UTF-16, U+FFFD for what is not UTF-8 *)

(** The decoder between two bytes: continuation bytes still needed, the
    code point so far and the range allowed for the next byte. *)
Record Utf8Decoder : Type := {
  needed : nat;
  code_point : N;
  lower : N;
  upper : N;
}.

Definition utf8_start : Utf8Decoder :=
  {| needed := 0; code_point := 0; lower := 0x80; upper := 0xBF |}.

(** A byte that starts a character. *)
Definition utf8_lead (b : N) : Utf8Decoder * list N :=
  if b <=? 0x7F then (utf8_start, [b])
  else if (0xC2 <=? b) && (b <=? 0xDF) then
    ({| needed := 1; code_point := N.land b 0x1F; lower := 0x80; upper := 0xBF |}, [])
  else if (0xE0 <=? b) && (b <=? 0xEF) then
    ({| needed := 2; code_point := N.land b 0xF;
        lower := if b =? 0xE0 then 0xA0 else 0x80;
        upper := if b =? 0xED then 0x9F else 0xBF |}, [])
  else if (0xF0 <=? b) && (b <=? 0xF4) then
    ({| needed := 3; code_point := N.land b 0x7;
        lower := if b =? 0xF0 then 0x90 else 0x80;
        upper := if b =? 0xF4 then 0x8F else 0xBF |}, [])
  else (utf8_start, [replacement_character]).

(** One byte: the decoder after it and the code points it completes. *)
Definition utf8_step (d : Utf8Decoder) (b : N) : Utf8Decoder * list N :=
  match needed d with
  | O => utf8_lead b
  | S more =>
      if (lower d <=? b) && (b <=? upper d) then
        let cp := N.lor (N.shiftl (code_point d) 6) (N.land b 0x3F) in
        match more with
        | O => (utf8_start, [cp])
        | S _ => ({| needed := more; code_point := cp; lower := 0x80; upper := 0xBF |}, [])
        end
      else
        let (d', out) := utf8_lead b in (d', replacement_character :: out)
  end.

Fixpoint utf8_decode (d : Utf8Decoder) (bytes : list byte) : list N :=
  match bytes with
  | [] => match needed d with O => [] | S _ => [replacement_character] end
  | b :: rest =>
      let (d', out) := utf8_step d (Byte.to_N b) in
      out ++ utf8_decode d' rest
  end.

(** The code units of a code point. *)
Definition utf16_encode (cp : N) : list N :=
  if cp <? 0x10000 then [cp]
  else [0xD800 + N.shiftr (cp - 0x10000) 10; 0xDC00 + N.land (cp - 0x10000) 0x3FF].

Definition Buffer_toString (buf : list byte) : JSString :=
  utf8_decode utf8_start buf ≫= utf16_encode.

(** ** [JSON.parse] *)

Definition is_ws (c : N) : bool :=
  (c =? 0x20) || (c =? 0x09) || (c =? 0x0A) || (c =? 0x0D).

Fixpoint skip_ws (input : JSString) : JSString :=
  match input with
  | c :: rest => if is_ws c then skip_ws rest else input
  | [] => []
  end.

Definition is_digit (c : N) : bool := (48 <=? c) && (c <=? 57).

Definition hex_digit (c : N) : option N :=
  if is_digit c then Some (c - 48)
  else if (97 <=? c) && (c <=? 102) then Some (c - 87)
  else if (65 <=? c) && (c <=? 70) then Some (c - 55)
  else None.

(** The digits at the head of the input, and what follows them. *)
Fixpoint span_digits (input : JSString) : list N * JSString :=
  match input with
  | c :: rest =>
      if is_digit c then let (ds, rest') := span_digits rest in (c :: ds, rest')
      else ([], input)
  | [] => ([], [])
  end.

Definition digits_value (ds : list N) : Z :=
  foldl (fun acc d => (acc * 10 + Z.of_N (d - 48))%Z) 0%Z ds.

(** A string after its opening quote: the characters up to the closing quote,
    escapes resolved; control characters must be escaped. *)
Fixpoint parse_string (input : JSString) : option (JSString * JSString) :=
  match input with
  | [] => None
  | c :: rest =>
      if c =? 34 then Some ([], rest)
      else if c =? 92 then
        match rest with
        | e :: rest' =>
            if e =? 117 then
              match rest' with
              | h3 :: h2 :: h1 :: h0 :: rest'' =>
                  match hex_digit h3, hex_digit h2, hex_digit h1, hex_digit h0 with
                  | Some h3, Some h2, Some h1, Some h0 =>
                      '(s, after) ← parse_string rest'';
                      Some ((h3 * 4096 + h2 * 256 + h1 * 16 + h0) :: s, after)
                  | _, _, _, _ => None
                  end
              | _ => None
              end
            else
              unit ←
                (if e =? 34 then Some 34 else if e =? 92 then Some 92
                 else if e =? 47 then Some 47 else if e =? 98 then Some 8
                 else if e =? 102 then Some 12 else if e =? 110 then Some 10
                 else if e =? 114 then Some 13 else if e =? 116 then Some 9
                 else None);
              '(s, after) ← parse_string rest';
              Some (unit :: s, after)
        | [] => None
        end
      else if c <? 0x20 then None
      else '(s, after) ← parse_string rest; Some (c :: s, after)
  end.

(** The input after character [c], when it starts with [c]. *)
Definition after_char (c : N) (input : JSString) : option JSString :=
  match input with
  | c' :: rest => if c' =? c then Some rest else None
  | [] => None
  end.

Definition starts_with (c : N) (input : JSString) : bool :=
  bool_decide (is_Some (after_char c input)).

(** A number: an optional minus, an integer part without a leading zero
    (unless it is zero), an optional fraction and an optional exponent. *)
Definition parse_number (input : JSString) : option (JSON * JSString) :=
  let (negative, input) :=
    match after_char 45 input with
    | Some rest => (true, rest)
    | None => (false, input)
    end in
  let (int, input) := span_digits input in
  if bool_decide (int = []) || (starts_with 48 int && (1 <? length int)%nat)
  then None
  else
    '(frac, input) ←
      match after_char 46 input with
      | Some rest =>
          let (frac, rest') := span_digits rest in
          if bool_decide (frac = []) then None else Some (frac, rest')
      | None => Some ([], input)
      end;
    '(exponent, input) ←
      match (if starts_with 101 input then after_char 101 input
             else after_char 69 input) with
      | Some rest =>
          let (sign, rest) :=
            match after_char 43 rest, after_char 45 rest with
            | Some rest', _ => (1%Z, rest')
            | None, Some rest' => ((-1)%Z, rest')
            | None, None => (1%Z, rest)
            end in
          let (ds, rest') := span_digits rest in
          if bool_decide (ds = []) then None
          else Some ((sign * digits_value ds)%Z, rest')
      | None => Some (0%Z, input)
      end;
    let magnitude := digits_value (int ++ frac) in
    Some (JNumber (if negative then (- magnitude)%Z else magnitude)
            (exponent - Z.of_nat (length frac))%Z, input).

(** A property of an object under construction: a name that comes twice
    keeps its place and takes the later value. *)
Fixpoint obj_set (k : JSString) (v : JSON) (props : list (JSString * JSON))
  : list (JSString * JSON) :=
  match props with
  | [] => [(k, v)]
  | (k', v') :: rest =>
      if bool_decide (k' = k) then (k, v) :: rest else (k', v') :: obj_set k v rest
  end.

Definition matches (literal : string) (input : JSString) : option JSString :=
  let l := js literal in
  if bool_decide (take (length l) input = l) then Some (drop (length l) input)
  else None.

(** A value, the members of an object after its opening brace and the
    elements of an array after its opening bracket; every call takes at least
    one character, so [fuel] above the length of the text is never used up. *)
Fixpoint parse_value (fuel : nat) (input : JSString) : option (JSON * JSString) :=
  match fuel with
  | O => None
  | S fuel =>
      let input := skip_ws input in
      match input with
      | [] => None
      | c :: rest =>
          if c =? 123 then
            match after_char 125 (skip_ws rest) with
            | Some rest' => Some (JObject [], rest')
            | None => parse_members fuel [] rest
            end
          else if c =? 91 then
            match after_char 93 (skip_ws rest) with
            | Some rest' => Some (JArray [], rest')
            | None => parse_elements fuel [] rest
            end
          else if c =? 34 then
            '(s, after) ← parse_string rest; Some (JString s, after)
          else if c =? 116 then
            after ← matches "true" input; Some (JBool true, after)
          else if c =? 102 then
            after ← matches "false" input; Some (JBool false, after)
          else if c =? 110 then
            after ← matches "null" input; Some (JNull, after)
          else parse_number input
      end
  end
with parse_members (fuel : nat) (props : list (JSString * JSON)) (input : JSString)
  : option (JSON * JSString) :=
  match fuel with
  | O => None
  | S fuel =>
      rest ← after_char 34 (skip_ws input);
      '(k, after) ← parse_string rest;
      after ← after_char 58 (skip_ws after);
      '(v, after) ← parse_value fuel after;
      let props := obj_set k v props in
      match after_char 44 (skip_ws after), after_char 125 (skip_ws after) with
      | Some after, _ => parse_members fuel props after
      | None, Some after => Some (JObject props, after)
      | None, None => None
      end
  end
with parse_elements (fuel : nat) (items : list JSON) (input : JSString)
  : option (JSON * JSString) :=
  match fuel with
  | O => None
  | S fuel =>
      '(v, after) ← parse_value fuel input;
      match after_char 44 (skip_ws after), after_char 93 (skip_ws after) with
      | Some after, _ => parse_elements fuel (items ++ [v]) after
      | None, Some after => Some (JArray (items ++ [v]), after)
      | None, None => None
      end
  end.

(** [JSON.parse(text)]; [None] is its [SyntaxError]. *)
Definition JSON_parse (text : JSString) : option JSON :=
  '(v, after) ← parse_value (S (length text)) text;
  match skip_ws after with
  | [] => Some v
  | _ => None
  end.

(** ** [JSON.stringify] of a message whose properties are strings *)

(** A message as the test runner builds them, here with string properties
    only: [messageId] first, then the others in the order they were set. *)
Record Message : Type := {
  messageId : JSString;
  properties : list (JSString * JSString);
}.

Definition hex_char (d : N) : N := if d <? 10 then 48 + d else 87 + d.

(** [\uXXXX] with lower-case digits. *)
Definition unicode_escape (c : N) : JSString :=
  [92; 117; hex_char (N.shiftr c 12); hex_char (N.land (N.shiftr c 8) 0xF);
   hex_char (N.land (N.shiftr c 4) 0xF); hex_char (N.land c 0xF)].

(** [QuoteJSONString] without its quotes: the two-character escapes, the
    other control characters and the lone surrogates as [\uXXXX]. *)
Fixpoint quote_chars (s : JSString) : JSString :=
  match s with
  | [] => []
  | c :: rest =>
      if c =? 34 then [92; 34] ++ quote_chars rest
      else if c =? 92 then [92; 92] ++ quote_chars rest
      else if c =? 8 then [92; 98] ++ quote_chars rest
      else if c =? 9 then [92; 116] ++ quote_chars rest
      else if c =? 10 then [92; 110] ++ quote_chars rest
      else if c =? 12 then [92; 102] ++ quote_chars rest
      else if c =? 13 then [92; 114] ++ quote_chars rest
      else if c <? 0x20 then unicode_escape c ++ quote_chars rest
      else if is_high_surrogate c then
        match rest with
        | l :: rest' =>
            if is_low_surrogate l then c :: l :: quote_chars rest'
            else unicode_escape c ++ quote_chars rest
        | [] => unicode_escape c
        end
      else if is_low_surrogate c then unicode_escape c ++ quote_chars rest
      else c :: quote_chars rest
  end.

Definition QuoteJSONString (s : JSString) : JSString :=
  [34] ++ quote_chars s ++ [34].

Fixpoint stringify_properties (props : list (JSString * JSString)) : JSString :=
  match props with
  | [] => []
  | (k, v) :: rest =>
      [44] ++ QuoteJSONString k ++ [58] ++ QuoteJSONString v
        ++ stringify_properties rest
  end.

Definition JSON_stringify (m : Message) : JSString :=
  [123] ++ QuoteJSONString (js "messageId") ++ [58]
    ++ QuoteJSONString (messageId m) ++ stringify_properties (properties m)
    ++ [125].

(** The text of [{command: c}], which the proxy writes when the socket of the
    desktop application connects or disconnects. *)
Definition command_text (c : string) : JSString :=
  [123] ++ QuoteJSONString (js "command") ++ [58] ++ QuoteJSONString (js c)
    ++ [125].

#[export] Instance platform : IPC.Platform := {|
  IPC.MessageCommon := Message;
  IPC.messageId := messageId;
  IPC.JSON_stringify := JSON_stringify;
  IPC.Buffer_toString := Buffer_toString;
  IPC.JSON_parse := JSON_parse;
|}.

End Node.

(** * A run of the client on Node *)

Module Scenario.
Import IPC.

(** A status request as the test runner sends it. *)
Definition m1 : Node.Message :=
  {| Node.messageId := js "m1";
     Node.properties := [(js "command", js "bw-status")] |}.

(** A request whose id has a character outside ASCII, U+00E9. *)
Definition accented : Node.Message :=
  {| Node.messageId := [0xE9]; Node.properties := [] |}.

Definition short_timeout : IPCOptions := {| overrideTimeout := Some 50%Z |}.

(** After the first [connect()]: the proxy is spawned and one caller waits. *)
Definition connecting : IPCService :=
  {| connectionState := Connecting; pendingMessages := ∅;
     awaitingConnection := [0%nat]; process := Some 0%nat;
     processOutputBuffer := []; responses := []; connections := [Pending];
     races := []; children := [[]]; handled := [] |}.

(** After the proxy has written [{command: "connected"}]. *)
Definition connected : IPCService :=
  {| connectionState := Connected; pendingMessages := ∅;
     awaitingConnection := []; process := Some 0%nat;
     processOutputBuffer := []; responses := []; connections := [Resolved tt];
     races := []; children := [[]]; handled := [] |}.

(** After [sendMessage(m1, {overrideTimeout: 50})] on [connected]. *)
Definition awaiting_m1 : IPCService :=
  {| connectionState := Connected;
     pendingMessages := {[ js "m1" := 0%nat ]};
     awaitingConnection := []; process := Some 0%nat;
     processOutputBuffer := []; responses := [Pending];
     connections := [Resolved tt];
     races := [{| race_promise := 0; race_timeout := 50;
                  race_error := timeout_error (js "m1");
                  race_outcome := Pending |}];
     children := [[frame (utf8 (Node.JSON_stringify m1))]]; handled := [] |}.

(** The bytes of a response to [m1] and of the two connection signals. *)
Definition response_m1 : list byte :=
  utf8 (Node.JSON_stringify
          {| Node.messageId := js "m1";
             Node.properties := [(js "status", js "ok")] |}).

Definition connected_signal : list byte := utf8 (Node.command_text "connected").
Definition disconnected_signal : list byte :=
  utf8 (Node.command_text "disconnected").

(** The prefix of a frame of two bytes, [12], with its first byte only. *)
Definition truncated_number : list byte := uint32LE 2 ++ utf8 (js "1").

End Scenario.

(** * The events of a run of the IPC client *)

Module IPCEvents.
Import IPC.

Section Events.
Context `{Platform}.

(** [disconnect]: the child that is sent [kill()], if any.  No field of the
    service changes: the state becomes [Disconnected] when the child emits
    "exit". *)
Definition disconnect (s : IPCService) : option nat :=
  match connectionState s with
  | Disconnected => None
  | _ => process s
  end.

(** What happens to the service between two turns of the event loop: a call
    of one of its public methods, or a callback that [_connect] has
    registered on the child ([processIpcMessage] on the data of its stdout,
    the "error" and the "exit" handlers), or the timer of a race. *)
Inductive Event : Type :=
| Call_connect
| Call_sendMessage (message : MessageCommon) (options : IPCOptions)
| Call_disconnect
| Stdout_data (data : list byte)
| Process_error (error : Error)
| Process_exit
| Timer (r : nat).

(** The state after an event, whether the method or the callback returned or
    threw. *)
Definition step (s : IPCService) (e : Event) : IPCService :=
  match e with
  | Call_connect => (connect s).2
  | Call_sendMessage message options => (sendMessage message options s).2
  | Call_disconnect => s
  | Stdout_data data =>
      match processIpcMessage data s with
      | Some (_, s') => s'
      | None => s
      end
  | Process_error error => on_process_error error s
  | Process_exit => on_process_exit s
  | Timer r => timeout_elapses r s
  end.

Definition run (events : list Event) (s : IPCService) : IPCService :=
  foldl step s events.

(** Every request that is still in [pendingMessages] has a deferred of its
    own, which is not settled. *)
Definition pending_unresolved (s : IPCService) : Prop :=
  forall id d, pendingMessages s !! id = Some d -> responses s !! d = Some Pending.

Definition pending_distinct (s : IPCService) : Prop :=
  forall id1 id2 d,
    pendingMessages s !! id1 = Some d -> pendingMessages s !! id2 = Some d ->
    id1 = id2.

(** Every caller in [awaitingConnection] waits on a deferred that is not
    settled. *)
Definition waiters_unsettled (s : IPCService) : Prop :=
  forall d, d ∈ awaitingConnection s -> connections s !! d = Some Pending.

(** The three together: what every reachable state satisfies. *)
Definition coherent (s : IPCService) : Prop :=
  pending_unresolved s /\ pending_distinct s /\ waiters_unsettled s.

End Events.

End IPCEvents.

(** * More runs of the client on Node *)

Module Runs.
Import IPC.

(** A request whose id is the empty string, and the response to it. *)
Definition anonymous : Node.Message :=
  {| Node.messageId := []; Node.properties := [] |}.

Definition response_anonymous : list byte :=
  utf8 (Node.JSON_stringify anonymous).

(** After [sendMessage(anonymous, {overrideTimeout: 50})] on
    [Scenario.connected]. *)
Definition awaiting_anonymous : IPCService :=
  (sendMessage (H := Node.platform) anonymous Scenario.short_timeout
     Scenario.connected).2.

(** A message of the desktop application that answers no request. *)
Definition locked_notice : list byte := utf8 (Node.command_text "locked").

(** The JSON text [null], and a text that is not JSON. *)
Definition null_text : list byte := utf8 (js "null").
Definition not_json : list byte := utf8 (js "{oops").

(** A service whose buffer holds a response to [Scenario.m1] and the first
    byte of what follows. *)
Definition wedged : IPCService :=
  set_processOutputBuffer (frame Scenario.response_m1 ++ take 1 (frame Scenario.response_m1))
    Scenario.awaiting_m1.

(** After a second [connect()] on [Scenario.connecting]: the proxy is
    spawned once and two callers wait, on the deferreds 0 and 1. *)
Definition two_waiting : IPCService :=
  {| connectionState := Connecting; pendingMessages := ∅;
     awaitingConnection := [0%nat; 1%nat]; process := Some 0%nat;
     processOutputBuffer := []; responses := [];
     connections := [Pending; Pending];
     races := []; children := [[]]; handled := [] |}.


Definition parsed_response_m1 : JSON :=
  JObject [(js "messageId", JString (js "m1"));
           (js "status", JString (js "ok"))].

Definition parsed_anonymous : JSON := JObject [(js "messageId", JString [])].

Definition parsed_locked_notice : JSON :=
  JObject [(js "command", JString (js "locked"))].

Definition parsed_disconnected : JSON :=
  JObject [(js "command", JString (js "disconnected"))].

Definition parsed_connected : JSON :=
  JObject [(js "command", JString (js "connected"))].

End Runs.

(** * The session broker of the FIDO2 user interface *)

Module Fido2.

Local Open Scope string_scope.

(** ** Messages *)

(** The variants of [BrowserFido2Message], named by their [type]. *)
Inductive Body : Type :=
| ConnectResponse
| NewSessionCreatedRequest
| PickCredentialRequest
    (cipherIds : list string) (userVerification fallbackSupported : bool)
| PickCredentialResponse (cipherId : option string) (userVerified : bool)
| ConfirmNewCredentialRequest
    (credentialName userName : string) (userVerification fallbackSupported : bool)
| ConfirmNewCredentialResponse (userVerified : bool)
| ConfirmNewNonDiscoverableCredentialRequest
    (credentialName userName : string) (userVerification fallbackSupported : bool)
| ConfirmNewNonDiscoverableCredentialResponse
    (cipherId : string) (userVerified : bool)
| InformExcludedCredentialRequest
    (existingCipherIds : list string) (fallbackSupported : bool)
| InformCredentialNotFoundRequest (fallbackSupported : bool)
| AbortRequest
| AbortResponse (fallbackRequested : bool)
| LogInRequest (userVerification : bool)
| LogInResponse (userVerified : bool).

(** [{ sessionId: string } & (...)]. *)
Record BrowserFido2Message : Type := {
  msg_sessionId : string;
  body : Body;
}.

(** [msg.type]. *)
Definition type (msg : BrowserFido2Message) : string :=
  match body msg with
  | ConnectResponse => "ConnectResponse"
  | NewSessionCreatedRequest => "NewSessionCreatedRequest"
  | PickCredentialRequest _ _ _ => "PickCredentialRequest"
  | PickCredentialResponse _ _ => "PickCredentialResponse"
  | ConfirmNewCredentialRequest _ _ _ _ => "ConfirmNewCredentialRequest"
  | ConfirmNewCredentialResponse _ => "ConfirmNewCredentialResponse"
  | ConfirmNewNonDiscoverableCredentialRequest _ _ _ _ =>
      "ConfirmNewNonDiscoverableCredentialRequest"
  | ConfirmNewNonDiscoverableCredentialResponse _ _ =>
      "ConfirmNewNonDiscoverableCredentialResponse"
  | InformExcludedCredentialRequest _ _ => "InformExcludedCredentialRequest"
  | InformCredentialNotFoundRequest _ => "InformCredentialNotFoundRequest"
  | AbortRequest => "AbortRequest"
  | AbortResponse _ => "AbortResponse"
  | LogInRequest _ => "LogInRequest"
  | LogInResponse _ => "LogInResponse"
  end.

(** ** The state of a session and of what it has started *)

(** What is thrown, and what an abort signal has as its reason. *)
Inductive Error : Type :=
| SessionClosedError   (* "Fido2UserInterfaceSession was closed" *)
| Error_ (message : string)
| AbortError           (* the reason of [abort()] without an argument *)
| UserRequestedFallbackAbortReason.

Inductive Settled (A : Type) : Type :=
| Pending
| Resolved (value : A)
| Rejected (error : Error).
Arguments Pending {A}.
Arguments Resolved {A} value.
Arguments Rejected {A} error.

(** [resolve] and [reject] of a promise: the first settlement stays. *)
Definition settle {A} (outcome : Settled A) (p : Settled A) : Settled A :=
  match p with
  | Pending => outcome
  | _ => p
  end.

(** What the promise of a public operation is fulfilled with: nothing, or
    the response that [receive] returned, from which the operation reads its
    result. *)
Inductive Value : Type :=
| Void
| Response (msg : BrowserFido2Message).

Inductive AuthenticationStatus : Type := LoggedOut | Locked | Unlocked.

(** [Popout]: a window or a tab, with its id. *)
Inductive Popout : Type :=
| PopoutWindow (id : nat)
| PopoutTab (id : nat).

(** What a session does to the outside, in order. *)
Inductive Effect : Type :=
| Broadcast (msg : BrowserFido2Message)  (* [BrowserApi.sendMessage] *)
| ClosePopOut (popout : option Popout)   (* [popupUtilsService.closePopOut] *)
| DestroyNext                            (* [destroy$.next()] reaches its subscribers *)
| GetAuthStatus                          (* [authService.getAuthStatus()] *)
| PopOut (url : string).                 (* [popupUtilsService.popOut] *)

(** The subscriptions a session makes, each with the pipeline it is made
    with:
    - [ConnectResponseSub]: [messages$], the type is "ConnectResponse",
      [take(1)], [takeUntil(destroy$)]; the constructor's first;
    - [AbortSignalSub]: the "abort" event of the signal, [takeUntil(destroy$)];
    - [AbortResponseSub]: [messages$], the type is "AbortResponse", [take(1)],
      [takeUntil(destroy$)];
    - [ReceiveSub type p]: [firstValueFrom] of [messages$], the session id and
      the type are the awaited ones, [takeUntil(destroy$)]; it settles promise
      [p];
    - [PopoutClosedSub id]: [windowClosed$] or [tabClosed$] (both listen to
      [chrome.windows.onRemoved]), the id is the popout's,
      [takeUntil(destroy$)];
    - [ConnectSub c]: [firstValueFrom] of the merge of [connected$] being
      true and the "abort" event turned into a [SessionClosedError]; it
      settles the connect promise [c]. *)
Inductive Subscription : Type :=
| ConnectResponseSub
| AbortSignalSub
| AbortResponseSub
| ReceiveSub (type : string) (p : nat)
| PopoutClosedSub (id : nat)
| ConnectSub (c : nat).

(** Where the caller of [send] goes on after it: the five operations
    [await this.receive(type)] and fulfil their promise [p] from it. *)
Inductive AfterSend : Type :=
| Receive (type : string) (p : nat).

(** Where the caller of [connect] goes on after it. *)
Inductive AfterConnect : Type :=
| Return (p : nat)                                  (* [ensureUnlockedVault] *)
| Send (msg : BrowserFido2Message) (k : AfterSend). (* [send] *)

(** The await at which a call of [connect] is suspended. *)
Inductive Stage : Type :=
| AwaitAuthStatus   (* [await this.authService.getAuthStatus()] *)
| AwaitPopOut       (* [await this.popupUtilsService.popOut(...)] *)
| AwaitConnected    (* [await connectPromise] *)
| Returned.         (* the call has returned or thrown *)

(** A call of [connect] that has not returned. *)
Record Task : Type := {
  stage : Stage;
  connectPromise : nat;
  continuation : AfterConnect;
}.

(** The fields of [BrowserFido2UserInterfaceSession] ([connected] is
    [connected$.value], [stopped] says that [destroy$] has completed, [signal]
    is the reason of [abortController.signal] once it is aborted), then its
    live subscriptions in the order they were made, its suspended calls, the
    promises it has created and what it has done to the outside. *)
Record Session : Type := {
  sessionId : string;
  fallbackSupported : bool;
  closed : bool;
  connected : bool;
  stopped : bool;
  signal : option Error;
  popout : option Popout;
  subscriptions : list (nat * Subscription);
  next_subscription : nat;
  tasks : list Task;
  connects : list (Settled unit);
  promises : list (Settled Value);
  log : list Effect;
}.

Definition set_closed (v : bool) (s : Session) : Session :=
  {| sessionId := sessionId s; fallbackSupported := fallbackSupported s;
     closed := v; connected := connected s; stopped := stopped s; signal :=
     signal s; popout := popout s; subscriptions := subscriptions s;
     next_subscription := next_subscription s; tasks := tasks s; connects :=
     connects s; promises := promises s; log := log s |}.

Definition set_connected (v : bool) (s : Session) : Session :=
  {| sessionId := sessionId s; fallbackSupported := fallbackSupported s;
     closed := closed s; connected := v; stopped := stopped s; signal := signal
     s; popout := popout s; subscriptions := subscriptions s; next_subscription
     := next_subscription s; tasks := tasks s; connects := connects s; promises
     := promises s; log := log s |}.

Definition set_stopped (v : bool) (s : Session) : Session :=
  {| sessionId := sessionId s; fallbackSupported := fallbackSupported s;
     closed := closed s; connected := connected s; stopped := v; signal :=
     signal s; popout := popout s; subscriptions := subscriptions s;
     next_subscription := next_subscription s; tasks := tasks s; connects :=
     connects s; promises := promises s; log := log s |}.

Definition set_signal (v : option Error) (s : Session) : Session :=
  {| sessionId := sessionId s; fallbackSupported := fallbackSupported s;
     closed := closed s; connected := connected s; stopped := stopped s; signal
     := v; popout := popout s; subscriptions := subscriptions s;
     next_subscription := next_subscription s; tasks := tasks s; connects :=
     connects s; promises := promises s; log := log s |}.

Definition set_popout (v : option Popout) (s : Session) : Session :=
  {| sessionId := sessionId s; fallbackSupported := fallbackSupported s;
     closed := closed s; connected := connected s; stopped := stopped s; signal
     := signal s; popout := v; subscriptions := subscriptions s;
     next_subscription := next_subscription s; tasks := tasks s; connects :=
     connects s; promises := promises s; log := log s |}.

Definition set_subscriptions (v : list (nat * Subscription)) (s : Session) : Session :=
  {| sessionId := sessionId s; fallbackSupported := fallbackSupported s;
     closed := closed s; connected := connected s; stopped := stopped s; signal
     := signal s; popout := popout s; subscriptions := v; next_subscription :=
     next_subscription s; tasks := tasks s; connects := connects s; promises :=
     promises s; log := log s |}.

Definition set_next_subscription (v : nat) (s : Session) : Session :=
  {| sessionId := sessionId s; fallbackSupported := fallbackSupported s;
     closed := closed s; connected := connected s; stopped := stopped s; signal
     := signal s; popout := popout s; subscriptions := subscriptions s;
     next_subscription := v; tasks := tasks s; connects := connects s; promises
     := promises s; log := log s |}.

Definition set_tasks (v : list Task) (s : Session) : Session :=
  {| sessionId := sessionId s; fallbackSupported := fallbackSupported s;
     closed := closed s; connected := connected s; stopped := stopped s; signal
     := signal s; popout := popout s; subscriptions := subscriptions s;
     next_subscription := next_subscription s; tasks := v; connects := connects
     s; promises := promises s; log := log s |}.

Definition set_connects (v : list (Settled unit)) (s : Session) : Session :=
  {| sessionId := sessionId s; fallbackSupported := fallbackSupported s;
     closed := closed s; connected := connected s; stopped := stopped s; signal
     := signal s; popout := popout s; subscriptions := subscriptions s;
     next_subscription := next_subscription s; tasks := tasks s; connects := v;
     promises := promises s; log := log s |}.

Definition set_promises (v : list (Settled Value)) (s : Session) : Session :=
  {| sessionId := sessionId s; fallbackSupported := fallbackSupported s;
     closed := closed s; connected := connected s; stopped := stopped s; signal
     := signal s; popout := popout s; subscriptions := subscriptions s;
     next_subscription := next_subscription s; tasks := tasks s; connects :=
     connects s; promises := v; log := log s |}.

Definition set_log (v : list Effect) (s : Session) : Session :=
  {| sessionId := sessionId s; fallbackSupported := fallbackSupported s;
     closed := closed s; connected := connected s; stopped := stopped s; signal
     := signal s; popout := popout s; subscriptions := subscriptions s;
     next_subscription := next_subscription s; tasks := tasks s; connects :=
     connects s; promises := promises s; log := v |}.


(** ** Subscriptions, promises and effects *)

Definition emit (e : Effect) (s : Session) : Session :=
  set_log (log s ++ [e]) s.

(** [BrowserFido2UserInterfaceSession.sendMessage(msg)]. *)
Definition sendMessage (msg : BrowserFido2Message) (s : Session) : Session :=
  emit (Broadcast msg) s.

Definition subscribe (sub : Subscription) (s : Session) : Session :=
  set_next_subscription (S (next_subscription s))
    (set_subscriptions (subscriptions s ++ [(next_subscription s, sub)]) s).

Definition unsubscribe (id : nat) (s : Session) : Session :=
  set_subscriptions (filter (fun entry => entry.1 <> id) (subscriptions s)) s.

(** Whether subscription [id] still listens. *)
Definition live (id : nat) (s : Session) : bool :=
  bool_decide (id ∈ (subscriptions s).*1).

Definition settle_promise (p : nat) (outcome : Settled Value) (s : Session)
  : Session :=
  set_promises (alter (settle outcome) p (promises s)) s.

Definition settle_connect (c : nat) (outcome : Settled unit) (s : Session)
  : Session :=
  set_connects (alter (settle outcome) c (connects s)) s.

(** [new Promise]: the promise of a call of a public operation. *)
Definition new_promise (s : Session) : nat * Session :=
  (length (promises s), set_promises (promises s ++ [Pending]) s).

(** [filter(predicate)] of RxJS, on one value. *)
Definition only (predicate : BrowserFido2Message -> bool)
  (msg : BrowserFido2Message) : option BrowserFido2Message :=
  if predicate msg then Some msg else None.

(** [this.messages$]: the bus, filtered by
    [msg.sessionId === this.sessionId]. *)
Definition messages (s : Session) (msg : BrowserFido2Message)
  : option BrowserFido2Message :=
  only (fun msg => bool_decide (msg_sessionId msg = sessionId s)) msg.

(** ** [close] and [abort] *)

(** [destroy$] emits: a subscription piped through [takeUntil(destroy$)]
    completes; the [firstValueFrom] of a [receive] then fails with
    [EmptyError], which [receive] rethrows as [SessionClosedError]. *)
Definition complete_on_destroy (s : Session) (entry : nat * Subscription)
  : Session :=
  match entry.2 with
  | ConnectSub _ => s
  | ReceiveSub _ p =>
      settle_promise p (Rejected SessionClosedError) (unsubscribe entry.1 s)
  | _ => unsubscribe entry.1 s
  end.

(** [this.destroy$.next()]: nothing once the subject is stopped. *)
Definition destroy_next (s : Session) : Session :=
  if stopped s then s
  else foldl complete_on_destroy (emit DestroyNext s) (subscriptions s).

(** [close]. *)
Definition close (s : Session) : Session :=
  let s := emit (ClosePopOut (popout s)) s in
  let s := set_closed true s in
  let s := destroy_next s in
  set_stopped true s.

(** One listener of the "abort" event of the signal. *)
Definition on_abort_event (s : Session) (entry : nat * Subscription) : Session :=
  if live entry.1 s then
    match entry.2 with
    | AbortSignalSub =>
        let s := close s in
        sendMessage {| msg_sessionId := sessionId s; body := AbortRequest |} s
    | ConnectSub c =>
        settle_connect c (Rejected SessionClosedError) (unsubscribe entry.1 s)
    | _ => s
    end
  else s.

(** [abortController.abort(reason)]: nothing on a signal that is aborted;
    otherwise the reason is set and the listeners of "abort" run in the order
    they were added. *)
Definition abortController_abort (reason : Error) (s : Session) : Session :=
  match signal s with
  | Some _ => s
  | None => foldl on_abort_event (set_signal (Some reason) s) (subscriptions s)
  end.

(** [abort(fallback)]. *)
Definition abort (fallback : bool) (s : Session) : Session :=
  abortController_abort
    (if fallback then UserRequestedFallbackAbortReason else AbortError) s.

(** ** [connected$] and the calls suspended in [connect] *)

Definition on_connected (s : Session) (entry : nat * Subscription) : Session :=
  if live entry.1 s then
    match entry.2 with
    | ConnectSub c =>
        settle_connect c (Resolved tt) (unsubscribe entry.1 s)
    | _ => s
    end
  else s.

(** [this.connected$.next(value)]. *)
Definition connected_next (value : bool) (s : Session) : Session :=
  let s := set_connected value s in
  if value then foldl on_connected s (subscriptions s) else s.

(** [receive(type)] for the operation whose promise is [p]. *)
Definition receive (awaited : string) (p : nat) (s : Session) : Session :=
  subscribe (ReceiveSub awaited p) s.

Definition after_send (k : AfterSend) (s : Session) : Session :=
  match k with
  | Receive awaited p => receive awaited p s
  end.

(** [connect] has returned. *)
Definition after_connect (k : AfterConnect) (s : Session) : Session :=
  match k with
  | Return p => settle_promise p (Resolved Void) s
  | Send msg k => after_send k (sendMessage msg s)
  end.

Definition promise_of (k : AfterConnect) : nat :=
  match k with
  | Return p => p
  | Send _ (Receive _ p) => p
  end.

(** [connect] has thrown: the error goes up to the operation. *)
Definition fail (k : AfterConnect) (e : Error) (s : Session) : Session :=
  settle_promise (promise_of k) (Rejected e) s.

Definition set_stage (i : nat) (st : Stage) (s : Session) : Session :=
  set_tasks
    (alter (fun t => {| stage := st; connectPromise := connectPromise t;
                        continuation := continuation t |}) i (tasks s)) s.

(** Task [i] goes on after [await connectPromise] when that promise is
    settled. *)
Definition resume (s : Session) (i : nat) : Session :=
  match tasks s !! i with
  | Some {| stage := AwaitConnected; connectPromise := c; continuation := k |} =>
      match connects s !! c with
      | Some (Resolved _) => after_connect k (set_stage i Returned s)
      | Some (Rejected e) => fail k e (set_stage i Returned s)
      | _ => s
      end
  | _ => s
  end.

(** The microtasks at the end of an event: every call that waits for a
    connect promise that the event has settled goes on. *)
Definition run_tasks (s : Session) : Session :=
  foldl resume s (seq 0 (length (tasks s))).

(** No call waits for a promise that is settled: the state between two
    events. *)
Definition quiescent (s : Session) : bool :=
  forallb
    (fun t =>
       match stage t, connects s !! connectPromise t with
       | AwaitConnected, Some (Resolved _) | AwaitConnected, Some (Rejected _) =>
           false
       | _, _ => true
       end) (tasks s).

(** ** The message bus and the other events *)

(** One listener of the bus, each with its pipeline from [messages$]. *)
Definition on_message (msg : BrowserFido2Message) (s : Session)
  (entry : nat * Subscription) : Session :=
  if live entry.1 s then
    match entry.2 with
    | ConnectResponseSub =>
        match messages s msg
              ≫= only (fun msg => bool_decide (type msg = "ConnectResponse")) with
        | Some _ => unsubscribe entry.1 (connected_next true s)
        | None => s
        end
    | AbortResponseSub =>
        match messages s msg
              ≫= only (fun msg => bool_decide (type msg = "AbortResponse")) with
        | Some {| body := AbortResponse fallbackRequested |} =>
            unsubscribe entry.1 (abort fallbackRequested (close s))
        | _ => s
        end
    | ReceiveSub awaited p =>
        match messages s msg
              ≫= only (fun msg => bool_decide (msg_sessionId msg = sessionId s)
                                  && bool_decide (type msg = awaited)) with
        | Some response =>
            unsubscribe entry.1 (settle_promise p (Resolved (Response response)) s)
        | None => s
        end
    | _ => s
    end
  else s.

(** The listeners of the bus run on [msg], in the order they were added. *)
Definition notify (msg : BrowserFido2Message) (s : Session) : Session :=
  foldl (on_message msg) s (subscriptions s).

(** A message arrives on the bus. *)
Definition deliver (msg : BrowserFido2Message) (s : Session) : Session :=
  run_tasks (notify msg s).

(** The relying party aborts: [abortController.abort()] from outside. *)
Definition aborted_by_relying_party (s : Session) : Session :=
  run_tasks (abortController_abort AbortError s).

Definition on_window_removed (windowId : nat) (s : Session)
  (entry : nat * Subscription) : Session :=
  if live entry.1 s then
    match entry.2 with
    | PopoutClosedSub id =>
        if bool_decide (id = windowId) then abort false (close s) else s
    | _ => s
    end
  else s.

(** [chrome.windows.onRemoved] fires for [windowId]. *)
Definition windows_onRemoved (windowId : nat) (s : Session) : Session :=
  run_tasks (foldl (on_window_removed windowId) s (subscriptions s)).

(** ** [connect], [send] and the public operations *)

(** [new URLSearchParams({...}).toString()]; a session id is a GUID, which
    needs no escape. *)
Definition queryParams (s : Session) (redirect : bool) : string :=
  "sessionId=" ++ sessionId s
    ++ (if redirect then "&redirectPath=fido2" else EmptyString).

Definition popout_url (status : AuthenticationStatus) (s : Session) : string :=
  match status with
  | LoggedOut => "popup/index.html?uilocation=popout#/home?" ++ queryParams s true
  | Locked => "popup/index.html?uilocation=popout#/lock?" ++ queryParams s true
  | Unlocked => "popup/index.html?uilocation=popout#/fido2?" ++ queryParams s false
  end.

(** [connect], up to [await this.authService.getAuthStatus()]: it throws on
    a closed session; otherwise the connect promise is made, already
    fulfilled when [connected$] holds true. *)
Definition connect (k : AfterConnect) (s : Session) : Session :=
  if closed s then fail k (Error_ "Cannot re-open closed session") s
  else
    let c := length (connects s) in
    let s :=
      if connected s then set_connects (connects s ++ [Resolved tt]) s
      else subscribe (ConnectSub c) (set_connects (connects s ++ [Pending]) s) in
    let s := emit GetAuthStatus s in
    set_tasks
      (tasks s ++
       [{| stage := AwaitAuthStatus; connectPromise := c; continuation := k |}]) s.

(** [getAuthStatus()] answers call [i] of [connect]: the popout is asked
    for. *)
Definition authStatus_resolves (i : nat) (status : AuthenticationStatus)
  (s : Session) : Session :=
  match tasks s !! i with
  | Some {| stage := AwaitAuthStatus |} =>
      set_stage i AwaitPopOut (emit (PopOut (popout_url status s)) s)
  | _ => s
  end.

Definition popout_id (opened : Popout) : nat :=
  match opened with
  | PopoutWindow id | PopoutTab id => id
  end.

(** [popOut(...)] answers call [i] of [connect]: the popout is kept, its
    removal is listened for, and the call awaits the connect promise. *)
Definition popOut_resolves (i : nat) (opened : Popout) (s : Session) : Session :=
  match tasks s !! i with
  | Some {| stage := AwaitPopOut |} =>
      let s := set_popout (Some opened) s in
      let s := subscribe (PopoutClosedSub (popout_id opened)) s in
      run_tasks (set_stage i AwaitConnected s)
  | _ => s
  end.

(** [send(msg)], for a caller that goes on with [k]. *)
Definition send (msg : BrowserFido2Message) (k : AfterSend) (s : Session)
  : Session :=
  if negb (connected s) then connect (Send msg k) s
  else after_send k (sendMessage msg s).

(** [await this.send(data); await this.receive(type)], the body of the five
    operations that send; the result is the promise of the call. *)
Definition request (data : Body) (awaited : string) (s : Session)
  : nat * Session :=
  let (p, s) := new_promise s in
  (p, send {| msg_sessionId := sessionId s; body := data |} (Receive awaited p) s).

Definition pickCredential (cipherIds : list string) (userVerification : bool)
  (s : Session) : nat * Session :=
  request (PickCredentialRequest cipherIds userVerification (fallbackSupported s))
    "PickCredentialResponse" s.

Definition confirmNewCredential (credentialName userName : string)
  (userVerification : bool) (s : Session) : nat * Session :=
  request
    (ConfirmNewCredentialRequest credentialName userName userVerification
       (fallbackSupported s))
    "ConfirmNewCredentialResponse" s.

Definition confirmNewNonDiscoverableCredential (credentialName userName : string)
  (userVerification : bool) (s : Session) : nat * Session :=
  request
    (ConfirmNewNonDiscoverableCredentialRequest credentialName userName
       userVerification (fallbackSupported s))
    "ConfirmNewNonDiscoverableCredentialResponse" s.

Definition informExcludedCredential (existingCipherIds : list string)
  (s : Session) : nat * Session :=
  request (InformExcludedCredentialRequest existingCipherIds (fallbackSupported s))
    "AbortResponse" s.

Definition informCredentialNotFound (s : Session) : nat * Session :=
  request (InformCredentialNotFoundRequest (fallbackSupported s))
    "AbortResponse" s.

Definition ensureUnlockedVault (s : Session) : nat * Session :=
  let (p, s) := new_promise s in
  (p, connect (Return p) s).

(** The constructor, with a controller that is not aborted: the three
    subscriptions, then the announcement of the session. *)
Definition create (fallbackSupported : bool) (sessionId : string) : Session :=
  let s :=
    {| sessionId := sessionId; fallbackSupported := fallbackSupported;
       closed := false; connected := false; stopped := false; signal := None;
       popout := None; subscriptions := []; next_subscription := 0;
       tasks := []; connects := []; promises := []; log := [] |} in
  let s := subscribe ConnectResponseSub s in
  let s := subscribe AbortSignalSub s in
  let s := subscribe AbortResponseSub s in
  sendMessage {| msg_sessionId := sessionId; body := NewSessionCreatedRequest |} s.

(** The error of [connect] on a closed session. *)
Definition cannot_reopen : Error := Error_ "Cannot re-open closed session".

(** The state in which a call on a closed session ends: its promise is
    rejected and nothing else has happened. *)
Definition refused (s : Session) : Session :=
  set_promises (promises s ++ [Rejected cannot_reopen]) s.

(** A call of a public operation is refused with error [e]: it broadcasts
    nothing and its promise is rejected with [e]. *)
Definition refused_with (e : Error) (operation : Session -> nat * Session)
  (s : Session) : Prop :=
  log (operation s).2 = log s /\
  promises (operation s).2 !! (operation s).1 = Some (Rejected e).

(** A call of a public operation fails without sending. *)
Definition fails_without_broadcast (operation : Session -> nat * Session)
  (s : Session) : Prop :=
  exists e, refused_with e operation s.

(** Whether a subscription is the one of a connect promise, the only kind
    that [destroy$] does not end. *)
Definition is_connect (sub : Subscription) : bool :=
  match sub with
  | ConnectSub _ => true
  | _ => false
  end.

End Fido2.

(** * A ceremony of the session broker *)

Module Ceremony.
Import Fido2.
Local Open Scope string_scope.

Definition connect_response : BrowserFido2Message :=
  {| msg_sessionId := "A"; body := ConnectResponse |}.

Definition pick_response : BrowserFido2Message :=
  {| msg_sessionId := "A"; body := PickCredentialResponse (Some "c1") false |}.

(** Session "A", created with [fallbackSupported = true]. *)
Definition created : Session := create true "A".

(** [pickCredential(["c1", "c2"], false)] is called; its promise is 0. *)
Definition asked : Session := (pickCredential ["c1"; "c2"] false created).2.

(** The vault is unlocked and the popout opens as window 7. *)
Definition opened : Session :=
  popOut_resolves 0 (PopoutWindow 7) (authStatus_resolves 0 Unlocked asked).

(** The popout announces itself: the request is broadcast and its response
    awaited. *)
Definition receiving : Session := deliver connect_response opened.

(** The user picks "c1". *)
Definition answered : Session := deliver pick_response receiving.

(** The session is closed after the ceremony. *)
Definition finished : Session := close answered.

(** Another session, "B", which awaits the response to a request of its
    own. *)
Definition other : Session :=
  deliver {| msg_sessionId := "B"; body := ConnectResponse |}
    (popOut_resolves 0 (PopoutWindow 8)
       (authStatus_resolves 0 Locked
          (pickCredential ["c9"] true (create false "B")).2)).

(** A session that is closed before its popout was ever opened. *)
Definition closed_early : Session := close (create true "C").

End Ceremony.

(** * Ceremonies of any session *)

Module Ceremonies.
Import Fido2.
Local Open Scope string_scope.

Section Params.
Variables (fallback : bool) (id : string).

(** What the popout sends when it is ready. *)
Definition connect_response : BrowserFido2Message :=
  {| msg_sessionId := id; body := ConnectResponse |}.

(** A public operation is called on a new session; its promise is 0. *)
Definition calling (operation : Session -> nat * Session) : Session :=
  (operation (create fallback id)).2.

(** [getAuthStatus()] has answered and the popout is being opened. *)
Definition opening (operation : Session -> nat * Session)
  (status : AuthenticationStatus) : Session :=
  authStatus_resolves 0 status (calling operation).

(** The popout is open; it has not announced itself. *)
Definition opened (operation : Session -> nat * Session)
  (status : AuthenticationStatus) (popout : Popout) : Session :=
  popOut_resolves 0 popout (opening operation status).

(** The popout has announced itself: the call has gone on after [connect]. *)
Definition connected_to (operation : Session -> nat * Session)
  (status : AuthenticationStatus) (popout : Popout) : Session :=
  deliver connect_response (opened operation status popout).

(** The state in which the request [data] of a call is out and its response
    is awaited. *)
Definition awaiting (data : Body) (awaited : string)
  (status : AuthenticationStatus) (popout : Popout) : Session :=
  {| sessionId := id; fallbackSupported := fallback; closed := false;
     connected := true; stopped := false; signal := None;
     popout := Some popout;
     subscriptions :=
       [(1%nat, AbortSignalSub); (2%nat, AbortResponseSub);
        (4%nat, PopoutClosedSub (popout_id popout));
        (5%nat, ReceiveSub awaited 0)];
     next_subscription := 6;
     tasks :=
       [{| stage := Returned; connectPromise := 0;
           continuation :=
             Send {| msg_sessionId := id; body := data |} (Receive awaited 0) |}];
     connects := [Resolved tt]; promises := [Pending];
     log :=
       [Broadcast {| msg_sessionId := id; body := NewSessionCreatedRequest |};
        GetAuthStatus;
        PopOut (popout_url status (create fallback id));
        Broadcast {| msg_sessionId := id; body := data |}] |}.

End Params.

End Ceremonies.

(** * The popout of a ceremony *)

(** [Fido2Component], the page that the popout shows.  It talks to the
    session over the same bus.  What it loads from the vault to show
    ([this.ciphers], filled by the [concatMap] on [data$]) is left out, and so
    is the branch of that pipeline for the type "CloseRequest", which no
    message of [BrowserFido2Message] has. *)
Module Popup.

Local Open Scope string_scope.

(** What the component sends, by the method that sends it. *)
Inductive Reply : Type :=
| Announce                (* "ConnectResponse", from [ngOnInit] *)
| Picked (cipherId : string)
                          (* "PickCredentialResponse", with [cipherId] only *)
| PickedNonDiscoverable (cipherId : string) (userVerified : bool)
                          (* "ConfirmNewNonDiscoverableCredentialResponse" *)
| Confirmed               (* "ConfirmCredentialResponse" *)
| ConfirmedNew (userVerified : bool)
                          (* "ConfirmNewCredentialResponse" *)
| Aborted (fallbackRequested : bool).
                          (* "AbortResponse" *)

(** The [type] of what is sent. *)
Definition reply_type (r : Reply) : string :=
  match r with
  | Announce => "ConnectResponse"
  | Picked _ => "PickCredentialResponse"
  | PickedNonDiscoverable _ _ => "ConfirmNewNonDiscoverableCredentialResponse"
  | Confirmed => "ConfirmCredentialResponse"
  | ConfirmedNew _ => "ConfirmNewCredentialResponse"
  | Aborted _ => "AbortResponse"
  end.

(** A message as [send] passes it to
    [BrowserFido2UserInterfaceSession.sendMessage]; the session id is [None]
    when it is [undefined] or [null]. *)
Record Outgoing : Type := {
  out_sessionId : option string;
  reply : Reply;
}.

(** The message as the listeners of a session read it, for the replies
    that are of the type that [BrowserFido2Message] declares: a reply without
    a session id passes the filter of no session, [Picked] lacks the
    [userVerified] that the type asks for, and the type of [Confirmed] is not
    in the union. *)
Definition as_message (out : Outgoing) : option Fido2.BrowserFido2Message :=
  match out_sessionId out, reply out with
  | Some id, Announce =>
      Some {| Fido2.msg_sessionId := id; Fido2.body := Fido2.ConnectResponse |}
  | Some id, PickedNonDiscoverable cipherId userVerified =>
      Some {| Fido2.msg_sessionId := id;
              Fido2.body :=
                Fido2.ConfirmNewNonDiscoverableCredentialResponse cipherId
                  userVerified |}
  | Some id, ConfirmedNew userVerified =>
      Some {| Fido2.msg_sessionId := id;
              Fido2.body := Fido2.ConfirmNewCredentialResponse userVerified |}
  | Some id, Aborted fallbackRequested =>
      Some {| Fido2.msg_sessionId := id;
              Fido2.body := Fido2.AbortResponse fallbackRequested |}
  | _, _ => None
  end.

(** The fields of [Fido2Component] ([data] is [data$.value], [destroyed]
    says that [destroy$] has emitted), the [sessionId] parameter of its route,
    and what it has done: the messages sent, the calls of [window.close()] and
    of [showPasswordPrompt()]. *)
Record Fido2Component : Type := {
  route_sessionId : option string;
  sessionId : option string;
  data : option Fido2.BrowserFido2Message;
  loading : bool;
  destroyed : bool;
  sent : list Outgoing;
  window_closes : nat;
  prompts : nat;
}.

Definition set_sessionId (v : option string) (c : Fido2Component) :=
  {| route_sessionId := route_sessionId c; sessionId := v; data := data c;
     loading := loading c; destroyed := destroyed c; sent := sent c;
     window_closes := window_closes c; prompts := prompts c |}.

Definition set_data (v : option Fido2.BrowserFido2Message) (c : Fido2Component) :=
  {| route_sessionId := route_sessionId c; sessionId := sessionId c; data := v;
     loading := loading c; destroyed := destroyed c; sent := sent c;
     window_closes := window_closes c; prompts := prompts c |}.

Definition set_loading (v : bool) (c : Fido2Component) :=
  {| route_sessionId := route_sessionId c; sessionId := sessionId c;
     data := data c; loading := v; destroyed := destroyed c; sent := sent c;
     window_closes := window_closes c; prompts := prompts c |}.

Definition set_destroyed (v : bool) (c : Fido2Component) :=
  {| route_sessionId := route_sessionId c; sessionId := sessionId c;
     data := data c; loading := loading c; destroyed := v; sent := sent c;
     window_closes := window_closes c; prompts := prompts c |}.

Definition set_sent (v : list Outgoing) (c : Fido2Component) :=
  {| route_sessionId := route_sessionId c; sessionId := sessionId c;
     data := data c; loading := loading c; destroyed := destroyed c; sent := v;
     window_closes := window_closes c; prompts := prompts c |}.

Definition set_window_closes (v : nat) (c : Fido2Component) :=
  {| route_sessionId := route_sessionId c; sessionId := sessionId c;
     data := data c; loading := loading c; destroyed := destroyed c;
     sent := sent c; window_closes := v; prompts := prompts c |}.

Definition set_prompts (v : nat) (c : Fido2Component) :=
  {| route_sessionId := route_sessionId c; sessionId := sessionId c;
     data := data c; loading := loading c; destroyed := destroyed c;
     sent := sent c; window_closes := window_closes c; prompts := v |}.

(** [send(msg)]: every caller puts a [sessionId] in [msg], which the spread
    places over [this.sessionId]. *)
Definition send (msg : Outgoing) (c : Fido2Component) : Fido2Component :=
  set_sent (sent c ++ [msg]) c.

(** [window.close()]. *)
Definition window_close (c : Fido2Component) : Fido2Component :=
  set_window_closes (S (window_closes c)) c.

(** [unload(fallback)]. *)
Definition unload (fallback : bool) (c : Fido2Component) : Fido2Component :=
  send {| out_sessionId := sessionId c; reply := Aborted fallback |} c.

(** [abort(fallback)]. *)
Definition abort (fallback : bool) (c : Fido2Component) : Fido2Component :=
  window_close (unload fallback c).

(** The component when [ngOnInit] has run on a route whose [sessionId]
    parameter is [param]: the three subscriptions are made, and the one on
    [sessionId$] has sent the "ConnectResponse". *)
Definition ngOnInit (param : option string) : Fido2Component :=
  send {| out_sessionId := param; reply := Announce |}
    {| route_sessionId := param; sessionId := None; data := None;
       loading := false; destroyed := false; sent := []; window_closes := 0;
       prompts := 0 |}.

(** The subscriber of [combineLatest([sessionId$, messageListener$])], on a
    message of the bus; [takeUntil(this.destroy$)] ends it. *)
Definition on_message (message : Fido2.BrowserFido2Message)
  (c : Fido2Component) : Fido2Component :=
  if destroyed c then c
  else
    let sessionId := route_sessionId c in
    let c := set_sessionId sessionId c in
    let same := bool_decide (Some (Fido2.msg_sessionId message) = sessionId) in
    if bool_decide (Fido2.type message = "NewSessionCreatedRequest") && negb same
    then abort false c
    else if negb same then c
    else if bool_decide (Fido2.type message = "AbortRequest") then abort false c
    else set_data (Some message) c.

(** [showPasswordPrompt()], which the user answers with [answer]. *)
Definition showPasswordPrompt (answer : bool) (c : Fido2Component)
  : bool * Fido2Component :=
  (answer, set_prompts (S (prompts c)) c).

(** [pick(cipher)], for a user who answers a password prompt with
    [answer]. *)
Definition pick (cipherId : string) (answer : bool) (c : Fido2Component)
  : Fido2Component :=
  let c :=
    match data c with
    | Some {| Fido2.body := Fido2.PickCredentialRequest _ _ _ |} =>
        send {| out_sessionId := sessionId c; reply := Picked cipherId |} c
    | Some {| Fido2.body :=
                Fido2.ConfirmNewNonDiscoverableCredentialRequest _ _
                  userVerification _ |} =>
        let (userVerified, c) :=
          if userVerification then showPasswordPrompt answer c else (false, c) in
        send {| out_sessionId := sessionId c;
                reply := PickedNonDiscoverable cipherId userVerified |} c
    | _ => c
    end in
  set_loading true c.

(** [confirm()]. *)
Definition confirm (c : Fido2Component) : Fido2Component :=
  set_loading true (send {| out_sessionId := sessionId c; reply := Confirmed |} c).

(** [confirmNew()]; [None] is the [TypeError] of [data.type] when
    [data$.value] is still [null]. *)
Definition confirmNew (answer : bool) (c : Fido2Component)
  : option Fido2Component :=
  match data c with
  | None => None
  | Some {| Fido2.body :=
              Fido2.ConfirmNewCredentialRequest _ _ userVerification _ |} =>
      let (userVerified, c) :=
        if userVerification then showPasswordPrompt answer c else (false, c) in
      Some (set_loading true
              (send {| out_sessionId := sessionId c;
                       reply := ConfirmedNew userVerified |} c))
  | Some _ => Some c
  end.

(** [ngOnDestroy()]. *)
Definition ngOnDestroy (c : Fido2Component) : Fido2Component :=
  set_destroyed true c.

(** The last message that the component has sent, as a session reads it. *)
Definition last_sent (c : Fido2Component) : option Fido2.BrowserFido2Message :=
  last (sent c) ≫= as_message.

(** What happens to the component after [ngOnInit]: a message on the bus,
    or the user who picks a cipher, confirms, confirms a new credential
    (answering a password prompt, if one is shown, with [answer]), asks for
    the fallback or leaves ([abort(fallback)] from the template), the window
    that unloads, the component that is destroyed. *)
Inductive Event : Type :=
| Receives (message : Fido2.BrowserFido2Message)
| Picks (cipherId : string) (answer : bool)
| Confirms
| ConfirmsNew (answer : bool)
| Aborts (fallback : bool)
| Unloads
| Destroyed.

(** The component after an event; a [confirmNew] that throws leaves it as
    it is. *)
Definition step (c : Fido2Component) (e : Event) : Fido2Component :=
  match e with
  | Receives message => on_message message c
  | Picks cipherId answer => pick cipherId answer c
  | Confirms => confirm c
  | ConfirmsNew answer => default c (confirmNew answer c)
  | Aborts fallback => abort fallback c
  | Unloads => unload false c
  | Destroyed => ngOnDestroy c
  end.

Definition run (events : list Event) (c : Fido2Component) : Fido2Component :=
  foldl step c events.

End Popup.

(** * The events of the life of a session *)

Module Fido2Events.
Import Fido2.
Local Open Scope string_scope.

(** The public operations that return a promise, with their arguments. *)
Inductive Operation : Type :=
| PickCredential (cipherIds : list string) (userVerification : bool)
| ConfirmNewCredential (credentialName userName : string) (userVerification : bool)
| ConfirmNewNonDiscoverableCredential
    (credentialName userName : string) (userVerification : bool)
| InformExcludedCredential (existingCipherIds : list string)
| InformCredentialNotFound
| EnsureUnlockedVault.

Definition call (operation : Operation) (s : Session) : nat * Session :=
  match operation with
  | PickCredential cipherIds userVerification =>
      pickCredential cipherIds userVerification s
  | ConfirmNewCredential credentialName userName userVerification =>
      confirmNewCredential credentialName userName userVerification s
  | ConfirmNewNonDiscoverableCredential credentialName userName userVerification =>
      confirmNewNonDiscoverableCredential credentialName userName
        userVerification s
  | InformExcludedCredential existingCipherIds =>
      informExcludedCredential existingCipherIds s
  | InformCredentialNotFound => informCredentialNotFound s
  | EnsureUnlockedVault => ensureUnlockedVault s
  end.

(** What happens to a session between two turns of the event loop: a call
    of one of its methods, the answer to one of its two awaited calls
    ([getAuthStatus()] and [popOut(...)] of call [i] of [connect]), a message
    on the bus, the abort of the signal by the relying party, the removal of
    a window. *)
Inductive Event : Type :=
| Calls (operation : Operation)
| Closes
| Aborts (fallback : bool)
| AuthStatusArrives (i : nat) (status : AuthenticationStatus)
| PopOutArrives (i : nat) (opened : Popout)
| MessageArrives (msg : BrowserFido2Message)
| SignalAborts
| WindowRemoved (windowId : nat).

Definition step (s : Session) (e : Event) : Session :=
  match e with
  | Calls operation => (call operation s).2
  | Closes => close s
  | Aborts fallback => run_tasks (abort fallback s)
  | AuthStatusArrives i status => authStatus_resolves i status s
  | PopOutArrives i opened => popOut_resolves i opened s
  | MessageArrives msg => deliver msg s
  | SignalAborts => aborted_by_relying_party s
  | WindowRemoved windowId => windows_onRemoved windowId s
  end.

Definition run (events : list Event) (s : Session) : Session :=
  foldl step s events.

(** What holds of the subscriptions and of the flags of a session between
    two events: the ids of the subscriptions are distinct and below the next
    one, [closed] holds exactly when [destroy$] has completed, and a session
    that is not closed listens to the abort signal with the subscription that
    its constructor made second. *)
Definition tidy (s : Session) : Prop :=
  NoDup (subscriptions s).*1 /\
  (forall x, x ∈ subscriptions s -> (x.1 < next_subscription s)%nat) /\
  closed s = stopped s /\
  (closed s = false -> (1%nat, AbortSignalSub) ∈ subscriptions s).

(** What a step from [s] to [s'] keeps: tidiness, being closed, and the
    abort signal unless the session is closed after the step. *)
Definition keeps (s s' : Session) : Prop :=
  (tidy s -> tidy s') /\
  (closed s = true -> closed s' = true) /\
  (signal s' = signal s \/ closed s' = true).

End Fido2Events.

(** * Properties of the framed IPC client *)

Module IPCTheory.
Import IPC.

(** Unfolds the plumbing of [M] in the goal. *)
Ltac run_method :=
  unfold mbind, M_bind, mret, M_ret, gets, modify, throw, try_catch.

(** ** Facts about the buffer operations *)

Lemma byte_of_N_to_N (n : N) : Byte.to_N (byte_of_N n) = n mod 256.
Proof.
  unfold byte_of_N.
  destruct (Byte.of_N (n mod 256)) as [b|] eqn:E; simpl.
  - by apply Byte.to_of_N.
  - apply Byte.of_N_None_iff in E.
    pose proof (N.mod_upper_bound n 256). lia.
Qed.

Lemma readUInt32LE_uint32LE (n : N) (rest : list byte) :
  n < 2 ^ 32 -> readUInt32LE (uint32LE n ++ rest) = Some n.
Proof.
  intros Hn. unfold uint32LE, readUInt32LE. cbn [app]. f_equal.
  rewrite !byte_of_N_to_N, !N.shiftr_div_pow2, !N.shiftl_mul_pow2.
  change (2 ^ 8) with 256. change (2 ^ 16) with 65536.
  change (2 ^ 24) with 16777216. change (2 ^ 32) with 4294967296 in Hn.
  pose proof (N.div_mod n 256) as H1.
  pose proof (N.div_mod (n / 256) 256) as H2.
  pose proof (N.div_mod (n / 65536) 256) as H3.
  rewrite N.Div0.div_div in H2, H3.
  change (256 * 256) with 65536 in H2. change (65536 * 256) with 16777216 in H3.
  assert (H4 : n / 16777216 < 256) by (apply N.Div0.div_lt_upper_bound; lia).
  rewrite (N.mod_small (n / 16777216) 256) by lia. lia.
Qed.

Lemma length_uint32LE (n : N) : length (uint32LE n) = 4%nat.
Proof. reflexivity. Qed.

Lemma length_frame (payload : list byte) :
  length (frame payload) = (4 + length payload)%nat.
Proof. unfold frame. by rewrite length_app, length_uint32LE. Qed.

Section Reassembly.
Context `{Platform}.

(** Unfolding one step of a method. *)
Lemma bind_eq {A B} (m : M A) (k : A -> M B) (s : IPCService) :
  (m ≫= k) s =
  match m s with
  | (Normal a, s') => k a s'
  | (Throw e, s') => (Throw e, s')
  end.
Proof. reflexivity. Qed.

(** A turn on a buffer that a length prefix and at most that many bytes fill:
    the bytes at hand are parsed, the buffer is emptied and the message is
    dispatched. *)
Lemma turn_decodes (s : IPCService) (n : N) (payload : list byte) (message : JSON) :
  processOutputBuffer s = uint32LE n ++ payload ->
  n < 2 ^ 32 ->
  N.of_nat (length payload) <= n ->
  JSON_parse (Buffer_toString payload) = Some message ->
  processIpcMessage_turn s =
  processIpcMessage_dispatch message (set_processOutputBuffer [] s).
Proof.
  intros Hbuf Hn Hlen Hparse.
  unfold processIpcMessage_turn. rewrite bind_eq. unfold gets at 1.
  rewrite Hbuf, readUInt32LE_uint32LE by done.
  rewrite length_app, length_uint32LE.
  replace (4 + length payload <? 4)%nat with false
    by (symmetry; apply Nat.ltb_ge; lia).
  replace (n + 4 <? N.of_nat (4 + length payload)) with false
    by (symmetry; apply N.ltb_ge; lia).
  assert (Hsub : subarray (uint32LE n ++ payload) 4 (N.to_nat (n + 4)) = payload).
  { unfold subarray. rewrite drop_app_length' by apply (length_uint32LE n).
    apply take_ge. lia. }
  cbv zeta. rewrite Hsub, Hparse, bind_eq. unfold modify at 1.
  f_equal. unfold subarray_from. rewrite Hbuf.
  f_equal. apply drop_ge. rewrite length_app, length_uint32LE. lia.
Qed.

(** A turn on a buffer that holds a whole frame and something after it
    returns without a look at the frame. *)
Lemma turn_returns_on_longer_buffer (s : IPCService) (payload more : list byte) :
  processOutputBuffer s = frame payload ++ more ->
  N.of_nat (length payload) < 2 ^ 32 ->
  more <> [] ->
  processIpcMessage_turn s = (Normal Return, s).
Proof.
  intros Hbuf Hn Hmore.
  unfold processIpcMessage_turn. rewrite bind_eq. unfold gets at 1.
  rewrite Hbuf. unfold frame. rewrite <- app_assoc.
  rewrite readUInt32LE_uint32LE by done.
  rewrite !length_app, length_uint32LE.
  replace (4 + (length payload + length more) <? 4)%nat with false
    by (symmetry; apply Nat.ltb_ge; lia).
  replace (N.of_nat (length payload) + 4
           <? N.of_nat (4 + (length payload + length more))) with true; [done|].
  symmetry. apply N.ltb_lt. destruct more; [done|simpl; lia].
Qed.

(** A turn on fewer than four bytes returns. *)
Lemma turn_returns_on_short_buffer (s : IPCService) :
  (length (processOutputBuffer s) < 4)%nat ->
  processIpcMessage_turn s = (Normal Return, s).
Proof.
  intros Hlen. unfold processIpcMessage_turn. rewrite bind_eq. unfold gets at 1.
  by replace (length (processOutputBuffer s) <? 4)%nat with true
    by (symmetry; apply Nat.ltb_lt; lia).
Qed.

End Reassembly.

(** ** Sending *)

Section Sending.
Context `{Platform}.

(** C4.  A [sendMessage] whose [messageId] is already in [pendingMessages]
    throws the duplicate-id error, which rejects the promise of the call at
    once, and the state after it is the state before it: nothing was written
    to the child's stdin, the map still holds the earlier request and its
    deferred promise is as it was. *)
Theorem sendMessage_duplicate_id_rejected
  (message : MessageCommon) (options : IPCOptions) (s : IPCService) :
  is_Some (pendingMessages s !! messageId message) ->
  sendMessage message options s =
    (Throw (duplicate_error (messageId message)), s).
Proof.
  intros Hpending. unfold sendMessage. rewrite bind_eq. unfold gets.
  by rewrite bool_decide_true.
Qed.

(** What a [sendMessage] that returns has done: the id was free, a fresh
    deferred promise is registered under it, and the call returned a new race
    between that promise and the timer. *)
Lemma sendMessage_returns
  (message : MessageCommon) (options : IPCOptions) (s s1 : IPCService) (r : nat) :
  sendMessage message options s = (Normal r, s1) ->
  pendingMessages s !! messageId message = None /\
  r = length (races s) /\
  races s1 =
    races s ++
    [{| race_promise := length (responses s);
        race_timeout := default DEFAULT_MESSAGE_TIMEOUT (overrideTimeout options);
        race_error := timeout_error (messageId message);
        race_outcome := Pending |}] /\
  pendingMessages s1 =
    <[messageId message := length (responses s)]> (pendingMessages s) /\
  responses s1 = responses s ++ [Pending] /\
  handled s1 = handled s.
Proof.
  unfold sendMessage. rewrite bind_eq. unfold gets at 1.
  case_bool_decide as Hfree; [discriminate|].
  rewrite <- eq_None_not_Some in Hfree.
  rewrite bind_eq. unfold new_Deferred at 1.
  rewrite bind_eq. unfold modify at 1.
  rewrite bind_eq. unfold sendIpcMessage.
  destruct (writeUInt32LE _ _ _) as [buffer|]; [|discriminate].
  unfold stdin_write, modify, try_catch, race. cbn.
  destruct (process s) as [p|]; cbn;
    rewrite lookup_app_r, Nat.sub_diag by done; cbn;
    intros [= <- <-]; cbn; done.
Qed.

(** A response whose [messageId] is a non-empty string with an entry in
    [pendingMessages] is resolved against that entry, which is removed; the
    message handler does not see it. *)
Lemma processMessage_resolves_pending
  (response : JSON) (id : JSString) (d : nat) (s : IPCService) :
  prop response (js "messageId") = Some (JString id) ->
  id <> [] ->
  pendingMessages s !! id = Some d ->
  exists s', processMessage response s = (Normal tt, s') /\
    handled s' = handled s /\
    pendingMessages s' = delete id (pendingMessages s) /\
    responses s' = alter (settle (Resolved response)) d (responses s).
Proof.
  intros Hid Hne Hpending. unfold processMessage.
  destruct response; try discriminate.
  rewrite Hid, bind_eq. unfold gets at 1.
  unfold pending_has. rewrite bool_decide_true
    by (unfold pending_get; rewrite Hpending; eauto).
  replace (truthy (Some (JString id))) with true
    by (cbn; by rewrite bool_decide_false).
  cbn [andb]. rewrite bind_eq. unfold gets at 1, pending_get. rewrite Hpending.
  eexists. split; [reflexivity|]. by cbn.
Qed.

End Sending.

Section Timeout.
Context `{Platform}.

(** C2.  A request is sent and its timer fires before any response: the
    promise of the call is rejected with the timeout error, but the entry of
    its [messageId] is still in [pendingMessages], because the [catch] that
    deletes it only sees what [race] throws while it is called, not the
    rejection of the promise it returns.  A response with that [messageId]
    that comes after is therefore resolved against the entry that was left
    and is not handed to the message handler. *)
Theorem sendMessage_timeout_leaves_pending_entry
  (message : MessageCommon) (options : IPCOptions) (s s1 : IPCService) (r : nat) :
  sendMessage message options s = (Normal r, s1) ->
  let s2 := timeout_elapses r s1 in
  outcome_of r s2 = Some (Rejected (timeout_error (messageId message))) /\
  is_Some (pendingMessages s2 !! messageId message) /\
  forall response : JSON,
    prop response (js "messageId") = Some (JString (messageId message)) ->
    messageId message <> [] ->
    exists s3, processMessage response s2 = (Normal tt, s3) /\
      handled s3 = handled s2 /\
      pendingMessages s3 !! messageId message = None.
Proof.
  intros Hsend s2.
  destruct (sendMessage_returns _ _ _ _ _ Hsend)
    as (Hfree & -> & Hraces & Hpending & Hresponses & Hhandled).
  assert (Hentry : pendingMessages s2 !! messageId message
                   = Some (length (responses s))).
  { unfold s2, timeout_elapses. cbn. rewrite Hpending. apply lookup_insert_eq. }
  split; [|split; [by rewrite Hentry|]].
  - unfold outcome_of, s2, timeout_elapses. cbn. rewrite Hraces.
    rewrite list_lookup_alter, lookup_app_r, Nat.sub_diag by done.
    by rewrite decide_True.
  - intros response Hid Hne.
    destruct (processMessage_resolves_pending response _ _ s2 Hid Hne Hentry)
      as (s3 & Hrun & Hh & Hp & _).
    exists s3. split; [done|split; [done|]].
    rewrite Hp. apply lookup_delete_eq.
Qed.

End Timeout.

(** ** Reassembly of the stream *)

Section Dispatch.
Context `{Platform}.

(** Settling the waiting deferreds one after the other only touches
    [connections]. *)
Lemma foldl_Deferred_void_settle
  (outcome : Settled unit) (waiting : list nat) (s : IPCService) :
  foldl (fun s d => Deferred_void_settle outcome d s) s waiting =
  set_connections
    (foldl (fun c d => alter (settle outcome) d c) (connections s) waiting) s.
Proof.
  revert s. induction waiting as [|d waiting IH]; intros s; cbn.
  - by destruct s.
  - by rewrite IH.
Qed.

(** Every deferred that was waiting and still pending has the outcome
    afterwards. *)
Lemma lookup_foldl_settle
  (outcome : Settled unit) (waiting : list nat) (c : list (Settled unit)) (d : nat) :
  d ∈ waiting ->
  c !! d = Some Pending ->
  foldl (fun c d => alter (settle outcome) d c) c waiting !! d = Some outcome.
Proof.
  assert (Hkeep : forall (waiting : list nat) (c : list (Settled unit)),
    c !! d = Some outcome \/ (c !! d = Some Pending /\ d ∈ waiting) ->
    foldl (fun c d => alter (settle outcome) d c) c waiting !! d = Some outcome).
  { clear. induction waiting as [|d' waiting IH]; intros c Hc; cbn.
    - destruct Hc as [Hc|[_ Hin]]; [done|]. by apply elem_of_nil in Hin.
    - apply IH. rewrite list_lookup_alter.
      destruct (decide (d' = d)) as [->|Hne].
      + destruct Hc as [->|[-> _]]; cbn; left; by destruct outcome.
      + destruct Hc as [Hc|[Hc Hin]]; [by left|right].
        split; [done|]. apply elem_of_cons in Hin as [Heq|Hin]; [congruence|done]. }
  intros Hin Hc. apply Hkeep. by right.
Qed.

(** [processMessage] leaves the buffer alone. *)
Lemma processMessage_buffer
  (message : JSON) (s s' : IPCService) (c : Completion unit) :
  processMessage message s = (c, s') ->
  processOutputBuffer s' = processOutputBuffer s.
Proof.
  unfold processMessage.
  destruct message; [by intros [= <- <-]|..];
    (set (id := prop _ _); clearbody id;
     rewrite bind_eq; unfold gets at 1;
     destruct (truthy id && pending_has id s);
     [ rewrite bind_eq; unfold gets at 1;
       destruct (pending_get id s) as [d|];
       [ intros [= <- <-]; cbn; unfold pending_delete; by repeat case_match
       | by intros [= <- <-] ]
     | by intros [= <- <-] ]).
Qed.

(** The dispatch of a message leaves the buffer alone and, when it does not
    throw, asks for another turn. *)
Lemma dispatch_continues (message : JSON) (s : IPCService) :
  exists s', processOutputBuffer s' = processOutputBuffer s /\
    (processIpcMessage_dispatch message s = (Normal Continue, s') \/
     exists e, processIpcMessage_dispatch message s = (Throw e, s')).
Proof.
  unfold processIpcMessage_dispatch.
  destruct (prop_is message (js "command") (js "connected")).
  { eexists. split; [|left; reflexivity].
    unfold modify. by rewrite foldl_Deferred_void_settle. }
  destruct (prop_is message (js "command") (js "disconnected")).
  { eexists. split; [|left; reflexivity]. done. }
  rewrite bind_eq.
  destruct (processMessage message s) as [[[]|e] s'] eqn:Hrun;
    exists s'; (split; [by eapply processMessage_buffer|]); eauto.
Qed.

(** [processIpcMessage] on data that completes a length prefix with at most
    that many bytes behind it: one message is parsed from the bytes at hand
    and dispatched, and the buffer is left empty. *)
Lemma processIpcMessage_decodes
  (data : list byte) (s : IPCService) (n : N) (payload : list byte) (message : JSON) :
  processOutputBuffer s ++ data = uint32LE n ++ payload ->
  n < 2 ^ 32 ->
  N.of_nat (length payload) <= n ->
  JSON_parse (Buffer_toString payload) = Some message ->
  processIpcMessage data s =
    match processIpcMessage_dispatch message (set_processOutputBuffer [] s) with
    | (Normal _, s') => Some (Normal tt, s')
    | (Throw e, s') => Some (Throw e, s')
    end.
Proof.
  intros Hbuf Hn Hlen Hparse. unfold processIpcMessage. cbn zeta.
  set (s0 := set_processOutputBuffer (processOutputBuffer s ++ data) s).
  assert (Hlen0 : length (processOutputBuffer s0) = (4 + length payload)%nat).
  { unfold s0. cbn. by rewrite Hbuf, length_app. }
  rewrite Hlen0. cbn [processIpcMessage_loop Nat.add].
  rewrite (turn_decodes s0 n payload message) by done.
  change (set_processOutputBuffer [] s0) with (set_processOutputBuffer [] s).
  destruct (dispatch_continues message (set_processOutputBuffer [] s))
    as (s' & Hb & [->|[e ->]]); [|done].
  rewrite turn_returns_on_short_buffer; [done|].
  rewrite Hb. cbn. lia.
Qed.

(** [processIpcMessage] on data that leaves a whole frame and something after
    it in the buffer: nothing is parsed, nothing is dispatched, the bytes stay
    in the buffer. *)
Lemma processIpcMessage_keeps_longer_buffer
  (data : list byte) (s : IPCService) (payload more : list byte) :
  processOutputBuffer s ++ data = frame payload ++ more ->
  N.of_nat (length payload) < 2 ^ 32 ->
  more <> [] ->
  processIpcMessage data s =
    Some (Normal tt, set_processOutputBuffer (processOutputBuffer s ++ data) s).
Proof.
  intros Hbuf Hn Hmore. unfold processIpcMessage.
  cbn [processIpcMessage_loop].
  by rewrite (turn_returns_on_longer_buffer _ payload more).
Qed.

(** C1.  One data event brings two complete frames into an empty buffer: the
    first turn of the loop returns because the buffer is longer than the first
    frame, so neither message is parsed or dispatched and both frames stay in
    the buffer; the state is otherwise unchanged, in particular no message
    reached the handler and no pending request was resolved. *)
Theorem processIpcMessage_two_frames_dispatch_nothing
  (s : IPCService) (payload1 payload2 : list byte) :
  processOutputBuffer s = [] ->
  N.of_nat (length payload1) < 2 ^ 32 ->
  processIpcMessage (frame payload1 ++ frame payload2) s =
    Some (Normal tt,
          set_processOutputBuffer (frame payload1 ++ frame payload2) s).
Proof.
  intros Hempty Hn.
  rewrite (processIpcMessage_keeps_longer_buffer _ s payload1 (frame payload2));
    rewrite ?Hempty; done.
Qed.

(** The other half of the same comparison: a length prefix with fewer bytes
    behind it than it announces is not waited on.  The bytes at hand are given
    to [JSON.parse]; when that throws, the callback throws. *)
Lemma processIpcMessage_partial_frame_throws
  (data : list byte) (s : IPCService) (n : N) (part : list byte) :
  processOutputBuffer s ++ data = uint32LE n ++ part ->
  n < 2 ^ 32 ->
  N.of_nat (length part) < n ->
  JSON_parse (Buffer_toString part) = None ->
  processIpcMessage data s =
    Some (Throw SyntaxError,
          set_processOutputBuffer (processOutputBuffer s ++ data) s).
Proof.
  intros Hbuf Hn Hlen Hparse. unfold processIpcMessage. cbn zeta.
  set (s0 := set_processOutputBuffer (processOutputBuffer s ++ data) s).
  assert (Hb0 : processOutputBuffer s0 = uint32LE n ++ part) by done.
  replace (length (processOutputBuffer s0)) with (4 + length part)%nat
    by (by rewrite Hb0, length_app).
  cbn [processIpcMessage_loop Nat.add].
  unfold processIpcMessage_turn. rewrite bind_eq. unfold gets at 1.
  rewrite Hb0, readUInt32LE_uint32LE by done.
  rewrite length_app, length_uint32LE.
  replace (4 + length part <? 4)%nat with false
    by (symmetry; apply Nat.ltb_ge; lia).
  replace (n + 4 <? N.of_nat (4 + length part)) with false
    by (symmetry; apply N.ltb_ge; lia).
  cbv zeta.
  replace (subarray (uint32LE n ++ part) 4 (N.to_nat (n + 4))) with part.
  - by rewrite Hparse.
  - unfold subarray. rewrite drop_app_length' by apply (length_uint32LE n).
    symmetry. apply take_ge. lia.
Qed.

(** [processIpcMessage] returns on every input. *)
Lemma processIpcMessage_total (data : list byte) (s : IPCService) :
  is_Some (processIpcMessage data s).
Proof.
  unfold processIpcMessage. cbn zeta.
  generalize (set_processOutputBuffer (processOutputBuffer s ++ data) s).
  clear s data. intros s.
  remember (length (processOutputBuffer s)) as n eqn:Hn.
  assert (Hle : (length (processOutputBuffer s) <= n)%nat) by lia.
  clear Hn. revert s Hle.
  induction n as [|n IH]; intros s Hle.
  - cbn [processIpcMessage_loop]. rewrite turn_returns_on_short_buffer by lia. eauto.
  - cbn [processIpcMessage_loop].
    destruct (processIpcMessage_turn s) as [[[]|e] s'] eqn:Hturn; eauto.
    apply IH. revert Hturn.
    unfold processIpcMessage_turn. rewrite bind_eq. unfold gets at 1.
    destruct (length (processOutputBuffer s) <? 4)%nat eqn:Hshort; [discriminate|].
    apply Nat.ltb_ge in Hshort.
    destruct (readUInt32LE _) as [msgLength|]; [|discriminate].
    destruct (msgLength + 4 <? _); [discriminate|].
    cbv zeta. destruct (JSON_parse _) as [message|]; [|discriminate].
    rewrite bind_eq. unfold modify at 1.
    destruct (dispatch_continues message
      (set_processOutputBuffer
         (subarray_from (processOutputBuffer s) (N.to_nat (msgLength + 4))) s))
      as (s'' & Hb & [->|[e ->]]); [|discriminate].
    intros [= <-]. rewrite Hb. cbn. unfold subarray_from.
    rewrite length_drop. lia.
Qed.

End Dispatch.

(** ** Framing of what is sent *)

Lemma utf8_fit_length (chars : list (list byte)) (room : nat) :
  (length (utf8_fit chars room) <= room)%nat.
Proof.
  revert room. induction chars as [|c chars IH]; intros room; cbn; [lia|].
  destruct (length c <=? room)%nat eqn:Hfit; cbn; [|lia].
  apply Nat.leb_le in Hfit. rewrite length_app.
  specialize (IH (room - length c)%nat). lia.
Qed.

Lemma utf8_chars_ascii (str : JSString) :
  Forall (fun u => u < 0x80) str ->
  utf8_chars str = (fun u => [byte_of_N u]) <$> str.
Proof.
  induction 1 as [|u str Hu _ IH]; [done|].
  cbn [utf8_chars fmap list_fmap].
  replace (is_high_surrogate u) with false
    by (symmetry; apply andb_false_iff; left; apply N.leb_gt; lia).
  replace (is_low_surrogate u) with false
    by (symmetry; apply andb_false_iff; left; apply N.leb_gt; lia).
  rewrite IH. f_equal. unfold utf8_encode.
  by replace (u <? 0x80) with true by (symmetry; by apply N.ltb_lt).
Qed.

Lemma utf8_fit_singletons (bytes : list byte) (room : nat) :
  (length bytes <= room)%nat ->
  utf8_fit ((fun b => [b]) <$> bytes) room = bytes.
Proof.
  revert room. induction bytes as [|b bytes IH]; intros room Hroom; [done|].
  cbn in *. destruct room as [|room]; [lia|]. cbn.
  rewrite Nat.sub_0_r. f_equal. apply IH. lia.
Qed.

(** An ASCII string has one byte for every code unit. *)
Lemma utf8_ascii (str : JSString) :
  Forall (fun u => u < 0x80) str ->
  utf8 str = byte_of_N <$> str /\ byteLength str = length str.
Proof.
  intros Hascii. unfold byteLength, utf8. rewrite utf8_chars_ascii by done.
  assert (Hconcat : forall l : list N,
    concat ((fun u => [byte_of_N u]) <$> l) = byte_of_N <$> l).
  { induction l as [|u l IH]; cbn; [done|by rewrite IH]. }
  rewrite Hconcat. by rewrite length_fmap.
Qed.

Lemma utf8_encode_length (cp : N) :
  length (utf8_encode cp) =
  if cp <? 0x80 then 1%nat else if cp <? 0x800 then 2%nat
  else if cp <? 0x10000 then 3%nat else 4%nat.
Proof. unfold utf8_encode. by repeat case_match. Qed.

(** A string never has more code units than UTF-8 bytes, and it has fewer as
    soon as one of its code units is outside ASCII. *)
Lemma code_units_le_bytes (str : JSString) :
  (length str <= byteLength str)%nat /\
  (Exists (fun u => 0x80 <= u) str -> (length str < byteLength str)%nat).
Proof.
  unfold byteLength, utf8.
  remember (length str) as n eqn:Hn.
  assert (Hle : (length str <= n)%nat) by lia. rewrite Hn. clear Hn.
  revert str Hle. induction n as [|n IH]; intros str Hle.
  { destruct str; [|cbn in Hle; lia]. cbn. split; [lia|].
    intros Hex. by apply Exists_nil in Hex. }
  destruct str as [|u rest]. { cbn. split; [lia|]. intros Hex. by apply Exists_nil in Hex. }
  cbn in Hle. cbn [utf8_chars].
  destruct (is_high_surrogate u) eqn:Hhigh.
  - apply andb_true_iff in Hhigh as [Hlo%N.leb_le Hhi%N.leb_le].
    destruct rest as [|l rest'].
    + cbn [concat]. rewrite app_nil_r, utf8_encode_length. cbn. split; lia.
    + destruct (is_low_surrogate l) eqn:Hlow.
      * apply andb_true_iff in Hlow as [Hlo'%N.leb_le Hhi'%N.leb_le].
        cbn [concat]. rewrite length_app, utf8_encode_length.
        replace (_ <? 0x80) with false by (symmetry; apply N.ltb_ge; lia).
        replace (_ <? 0x800) with false by (symmetry; apply N.ltb_ge; lia).
        replace (_ <? 0x10000) with false by (symmetry; apply N.ltb_ge; lia).
        cbn in Hle. destruct (IH rest') as [Hrest _]; [lia|]. cbn. split; lia.
      * cbn [concat]. rewrite length_app, utf8_encode_length. cbn.
        destruct (IH (l :: rest')) as [Hrest _]; [cbn in *; lia|].
        cbn in *. split; lia.
  - destruct (is_low_surrogate u) eqn:Hlow.
    + cbn [concat]. rewrite length_app, utf8_encode_length. cbn.
      destruct (IH rest) as [Hrest _]; [lia|]. cbn. split; lia.
    + cbn [concat]. rewrite length_app, utf8_encode_length.
      destruct (IH rest) as [Hrest Hstrict]; [lia|].
      destruct (u <? 0x80) eqn:Hascii.
      * apply N.ltb_lt in Hascii. cbn. split; [lia|].
        intros Hex. apply Exists_cons in Hex as [Hu|Hex]; [lia|].
        specialize (Hstrict Hex). lia.
      * cbn. split; repeat case_match; lia.
Qed.

Section Framing.
Context `{Platform}.

(** What [sendIpcMessage] writes to the child it has: the number of code
    units of the text as the prefix, then the characters of the text that fit
    into as many bytes as the text has code units, then zeros up to that
    size. *)
Lemma sendIpcMessage_writes (message : MessageCommon) (s : IPCService) (p : nat) :
  process s = Some p ->
  N.of_nat (length (JSON_stringify message)) < 2 ^ 32 ->
  let str := JSON_stringify message in
  let fit := utf8_fit (utf8_chars str) (length str) in
  sendIpcMessage message s =
    (Normal tt,
     set_children
       (alter (fun sent =>
                 sent ++ [uint32LE (N.of_nat (length str)) ++ fit
                          ++ replicate (length str - length fit) Byte.x00])
          p (children s)) s).
Proof.
  intros Hp Hlen str fit. unfold sendIpcMessage, writeUInt32LE, Buffer_alloc.
  fold str. rewrite length_replicate.
  replace (N.of_nat (length str) <? 2 ^ 32) with true
    by (symmetry; by apply N.ltb_lt).
  cbn [andb Nat.add Nat.leb take app replicate drop].
  match goal with
  | |- stdin_write ?buffer _ = _ =>
      assert (Hbuffer : buffer =
        uint32LE (N.of_nat (length str)) ++ fit
          ++ replicate (length str - length fit) Byte.x00)
  end.
  { unfold Buffer_write. rewrite drop_0.
    rewrite length_app, length_uint32LE, length_replicate.
    replace (4 + length str - 4)%nat with (length str) by lia. fold fit.
    rewrite take_app_length' by done. do 2 f_equal.
    rewrite drop_app_ge by (rewrite length_uint32LE; lia).
    rewrite length_uint32LE, drop_replicate. f_equal.
    pose proof (utf8_fit_length (utf8_chars str) (length str)) as Hfit.
    fold fit in Hfit. lia. }
  rewrite Hbuffer. unfold stdin_write, modify. by rewrite Hp.
Qed.

(** On a message whose JSON text is ASCII, [sendIpcMessage] writes the frame
    of the protocol: the byte count of the UTF-8 text, then the text. *)
Lemma sendIpcMessage_ascii_frame (message : MessageCommon) (s : IPCService) (p : nat) :
  process s = Some p ->
  N.of_nat (length (JSON_stringify message)) < 2 ^ 32 ->
  Forall (fun u => u < 0x80) (JSON_stringify message) ->
  sendIpcMessage message s =
    (Normal tt,
     set_children
       (alter (fun sent => sent ++ [frame (utf8 (JSON_stringify message))])
          p (children s)) s).
Proof.
  intros Hp Hlen Hascii. rewrite (sendIpcMessage_writes message s p) by done.
  cbv zeta. destruct (utf8_ascii _ Hascii) as [Hutf8 Hbytes].
  unfold byteLength in Hbytes.
  rewrite utf8_chars_ascii by done.
  assert (Hfit : utf8_fit ((fun u => [byte_of_N u]) <$> JSON_stringify message)
                   (length (JSON_stringify message))
                 = utf8 (JSON_stringify message)).
  { rewrite Hutf8.
    rewrite <- (utf8_fit_singletons (byte_of_N <$> JSON_stringify message)
                  (length (JSON_stringify message)))
      by (by rewrite length_fmap).
    by rewrite <- list_fmap_compose. }
  rewrite Hfit, Hbytes, Nat.sub_diag. cbn [replicate].
  unfold frame. by rewrite app_nil_r, Hbytes.
Qed.

(** On a message whose JSON text has a character outside ASCII, the prefix
    that [sendIpcMessage] writes is smaller than the byte count of the text,
    and the buffer is too short for the text. *)
Lemma sendIpcMessage_non_ascii_prefix (message : MessageCommon) (s : IPCService)
  (p : nat) :
  process s = Some p ->
  N.of_nat (length (JSON_stringify message)) < 2 ^ 32 ->
  Exists (fun u => 0x80 <= u) (JSON_stringify message) ->
  exists written,
    sendIpcMessage message s =
      (Normal tt,
       set_children (alter (fun sent => sent ++ [written]) p (children s)) s) /\
    take 4 written = uint32LE (N.of_nat (length (JSON_stringify message))) /\
    (length (JSON_stringify message) < byteLength (JSON_stringify message))%nat /\
    (length written < length (frame (utf8 (JSON_stringify message))))%nat.
Proof.
  intros Hp Hlen Hex. eexists. split.
  { by apply (sendIpcMessage_writes message s p). }
  destruct (code_units_le_bytes (JSON_stringify message)) as [_ Hstrict].
  specialize (Hstrict Hex).
  pose proof (utf8_fit_length (utf8_chars (JSON_stringify message))
                (length (JSON_stringify message))) as Hfit.
  split; [done|]. split; [done|].
  rewrite length_frame. unfold byteLength in Hstrict.
  rewrite !length_app, length_uint32LE, length_replicate. lia.
Qed.

End Framing.

(** ** Connecting *)

Lemma prop_is_disconnected_not_connected (message : JSON) :
  prop_is message (js "command") (js "disconnected") = true ->
  prop_is message (js "command") (js "connected") = false.
Proof.
  unfold prop_is. destruct (prop message (js "command")) as [[]|]; try done.
  intros ->%bool_decide_eq_true. by apply bool_decide_eq_false.
Qed.

Section Connecting.
Context `{Platform}.

(** The dispatch of [{command: "connected"}]. *)
Lemma dispatch_connected (message : JSON) (s : IPCService) :
  prop_is message (js "command") (js "connected") = true ->
  processIpcMessage_dispatch message s =
    (Normal Continue,
     set_awaitingConnection []
       (set_connections
          (foldl (fun c d => alter (settle (Resolved tt)) d c)
             (connections s) (awaitingConnection s))
          (set_connectionState Connected s))).
Proof.
  intros Hconnected. unfold processIpcMessage_dispatch. rewrite Hconnected.
  unfold mbind, M_bind, modify, mret, M_ret.
  by rewrite foldl_Deferred_void_settle.
Qed.

(** [connect] and the settling of its callers, when the signal of the proxy
    is all that the buffer holds:
    - in state [Connected] it returns at once and changes nothing;
    - in state [Connecting] it adds a fresh deferred to [awaitingConnection]
      and returns its promise, and no child is spawned: [children] and
      [process] are as before;
    - when a frame that parses to a message with command "connected"
      completes in the buffer, the state becomes [Connected], every deferred
      that was waiting is resolved and [awaitingConnection] is empty;
    - when the child emits "error", every deferred that was waiting is
      rejected with that error and [awaitingConnection] is empty. *)
Theorem connect_joins_and_settles_together (s : IPCService) :
  (connectionState s = Connected -> connect s = (Normal None, s)) /\
  (connectionState s = Connecting ->
   exists d s',
     connect s = (Normal (Some d), s') /\
     children s' = children s /\ process s' = process s /\
     connectionState s' = Connecting /\
     awaitingConnection s' = awaitingConnection s ++ [d] /\
     connections s !! d = None /\ connections s' !! d = Some Pending) /\
  (forall (data payload : list byte) (message : JSON),
     processOutputBuffer s ++ data = frame payload ->
     N.of_nat (length payload) < 2 ^ 32 ->
     JSON_parse (Buffer_toString payload) = Some message ->
     prop_is message (js "command") (js "connected") = true ->
     exists s',
       processIpcMessage data s = Some (Normal tt, s') /\
       connectionState s' = Connected /\
       awaitingConnection s' = [] /\
       forall d, d ∈ awaitingConnection s ->
         connections s !! d = Some Pending ->
         connections s' !! d = Some (Resolved tt)) /\
  (forall error : Error,
     awaitingConnection (on_process_error error s) = [] /\
     forall d, d ∈ awaitingConnection s ->
       connections s !! d = Some Pending ->
       connections (on_process_error error s) !! d = Some (Rejected error)).
Proof.
  repeat split.
  - intros Hstate. unfold connect. rewrite bind_eq. unfold gets. by rewrite Hstate.
  - intros Hstate. unfold connect. rewrite bind_eq. unfold gets at 1.
    rewrite Hstate. unfold new_Deferred_void. run_method. cbn. rewrite Hstate.
    do 2 eexists. split; [reflexivity|]. cbn.
    repeat split; try done.
    + by apply lookup_ge_None_2.
    + by rewrite lookup_app_r, Nat.sub_diag.
  - intros data payload message Hbuf Hlen Hparse Hconnected.
    rewrite (processIpcMessage_decodes data s _ payload message Hbuf) by done.
    rewrite dispatch_connected by done.
    eexists. split; [reflexivity|]. cbn. repeat split.
    intros d Hin Hpending. by apply lookup_foldl_settle.
  - intros d Hin Hpending. unfold on_process_error.
    rewrite foldl_Deferred_void_settle. cbn. by apply lookup_foldl_settle.
Qed.

(** From [Disconnected], two calls of [connect] before the child is ready
    spawn one child and wait on two deferreds. *)
Lemma connect_twice_spawns_once (s : IPCService) :
  connectionState s = Disconnected ->
  exists d1 d2 s1 s2,
    connect s = (Normal (Some d1), s1) /\
    connect s1 = (Normal (Some d2), s2) /\
    children s2 = children s ++ [[]] /\
    process s2 = Some (length (children s)) /\
    connectionState s2 = Connecting /\
    awaitingConnection s2 = awaitingConnection s ++ [d1; d2].
Proof.
  intros Hstate. unfold connect at 1. rewrite bind_eq. unfold gets at 1.
  rewrite Hstate. unfold new_Deferred_void, _connect. run_method. cbn.
  rewrite Hstate. do 4 eexists. split; [reflexivity|].
  unfold connect, new_Deferred_void. run_method. cbn.
  split; [reflexivity|]. cbn. by rewrite <- app_assoc.
Qed.

(** C10.  A frame that parses to a message with command "disconnected"
    completes in the buffer: the frame is taken off the buffer, the state
    becomes [Disconnected], and nothing else changes; [pendingMessages],
    [awaitingConnection] and every promise are as they were, and the message
    handler is not called. *)
Theorem disconnected_message_changes_only_the_state
  (data payload : list byte) (message : JSON) (s : IPCService) :
  processOutputBuffer s ++ data = frame payload ->
  N.of_nat (length payload) < 2 ^ 32 ->
  JSON_parse (Buffer_toString payload) = Some message ->
  prop_is message (js "command") (js "disconnected") = true ->
  let s' := set_connectionState Disconnected (set_processOutputBuffer [] s) in
  processIpcMessage data s = Some (Normal tt, s') /\
  connectionState s' = Disconnected /\
  pendingMessages s' = pendingMessages s /\
  awaitingConnection s' = awaitingConnection s /\
  responses s' = responses s /\
  connections s' = connections s /\
  races s' = races s /\
  handled s' = handled s /\
  children s' = children s /\
  process s' = process s.
Proof.
  intros Hbuf Hlen Hparse Hdisconnected s'. split; [|done].
  rewrite (processIpcMessage_decodes data s _ payload message Hbuf) by done.
  unfold processIpcMessage_dispatch.
  by rewrite prop_is_disconnected_not_connected, Hdisconnected.
Qed.

End Connecting.

(** ** The run of [Scenario] *)

(** The states of [Scenario] are the ones the client reaches. *)
Lemma scenario_reached :
  connect initial = (Normal (Some 0%nat), Scenario.connecting) /\
  processIpcMessage (H := Node.platform)
    (frame Scenario.connected_signal) Scenario.connecting
    = Some (Normal tt, Scenario.connected) /\
  sendMessage (H := Node.platform)
    Scenario.m1 Scenario.short_timeout Scenario.connected
    = (Normal 0%nat, Scenario.awaiting_m1).
Proof. repeat split; vm_compute; reflexivity. Qed.

(** On the run: [m1] is sent again while its request is pending. *)
Lemma sendMessage_duplicate_id_rejected_witness :
  sendMessage (H := Node.platform)
    Scenario.m1 Scenario.short_timeout Scenario.awaiting_m1
  = (Throw (duplicate_error (js "m1")), Scenario.awaiting_m1).
Proof.
  apply (sendMessage_duplicate_id_rejected (H := Node.platform)
           Scenario.m1 Scenario.short_timeout Scenario.awaiting_m1).
  exists 0%nat. vm_compute. reflexivity.
Defined.

(** On the run: the timer of [m1] fires after 50 ms, then the response
    comes. *)
Lemma sendMessage_timeout_leaves_pending_entry_witness :
  let s2 := timeout_elapses 0 Scenario.awaiting_m1 in
  outcome_of 0 s2 = Some (Rejected (timeout_error (js "m1"))) /\
  is_Some (pendingMessages s2 !! js "m1") /\
  forall response : JSON,
    prop response (js "messageId") = Some (JString (js "m1")) ->
    js "m1" <> [] ->
    exists s3, processMessage response s2 = (Normal tt, s3) /\
      handled s3 = handled s2 /\
      pendingMessages s3 !! js "m1" = None.
Proof.
  apply (sendMessage_timeout_leaves_pending_entry (H := Node.platform)
           Scenario.m1 Scenario.short_timeout Scenario.connected
           Scenario.awaiting_m1 0).
  vm_compute. reflexivity.
Defined.

(** The late response of the run, as bytes from the proxy: it is not handed
    to the message handler. *)
Lemma late_response_not_handled :
  exists s3,
    processIpcMessage (H := Node.platform) (frame Scenario.response_m1)
      (timeout_elapses 0 Scenario.awaiting_m1) = Some (Normal tt, s3) /\
    handled s3 = [] /\ pendingMessages s3 !! js "m1" = None.
Proof. eexists. vm_compute. done. Qed.

(** After the timeout of the run, [m1] cannot be sent again. *)
Lemma send_after_timeout_is_duplicate :
  sendMessage (H := Node.platform) Scenario.m1 Scenario.short_timeout
    (timeout_elapses 0 Scenario.awaiting_m1)
  = (Throw (duplicate_error (js "m1")), timeout_elapses 0 Scenario.awaiting_m1).
Proof. vm_compute. reflexivity. Qed.

(** On the run: two responses to [m1] in one data event. *)
Lemma processIpcMessage_two_frames_dispatch_nothing_witness :
  processIpcMessage (H := Node.platform)
    (frame Scenario.response_m1 ++ frame Scenario.response_m1)
    Scenario.awaiting_m1
  = Some (Normal tt,
          set_processOutputBuffer
            (frame Scenario.response_m1 ++ frame Scenario.response_m1)
            Scenario.awaiting_m1).
Proof.
  apply (processIpcMessage_two_frames_dispatch_nothing (H := Node.platform)
           Scenario.awaiting_m1 Scenario.response_m1 Scenario.response_m1).
  - reflexivity.
  - vm_compute. reflexivity.
Defined.

(** On the run, a response that arrives in two data events: the first event,
    the length prefix and the first ten bytes, makes the callback throw. *)
Lemma partial_frame_on_the_run :
  processIpcMessage (H := Node.platform)
    (take 14 (frame Scenario.response_m1)) Scenario.awaiting_m1
  = Some (Throw SyntaxError,
          set_processOutputBuffer (take 14 (frame Scenario.response_m1))
            Scenario.awaiting_m1).
Proof. vm_compute. reflexivity. Qed.

(** When the bytes at hand happen to be JSON, the truncated message is
    dispatched: of the frame of [12] the handler gets [1]. *)
Lemma partial_frame_dispatched_on_the_run :
  processIpcMessage (H := Node.platform)
    Scenario.truncated_number Scenario.connected
  = Some (Normal tt, set_handled [JNumber 1 0] Scenario.connected).
Proof. vm_compute. reflexivity. Qed.

(** C3.  [sendIpcMessage] on the request whose id is U+00E9: the JSON text
    has 17 code units and 18 bytes of UTF-8; the buffer written to the child
    has 21 bytes, its prefix says 17 and the last byte of the text, the
    closing brace, is missing.  It is not the frame of the text. *)
Theorem sendIpcMessage_non_ascii_prefix_counts_code_units :
  let text := Node.JSON_stringify Scenario.accented in
  length text = 17%nat /\ byteLength text = 18%nat /\
  sendIpcMessage (H := Node.platform) Scenario.accented Scenario.connected
  = (Normal tt,
     set_children [[uint32LE 17 ++ take 17 (utf8 text)]] Scenario.connected) /\
  uint32LE 17 ++ take 17 (utf8 text) <> frame (utf8 text).
Proof. vm_compute. repeat split; discriminate. Qed.

(** The same request with an ASCII id is framed as the protocol says. *)
Lemma sendIpcMessage_ascii_frame_witness :
  sendIpcMessage (H := Node.platform) Scenario.m1 Scenario.connected
  = (Normal tt,
     set_children [[frame (utf8 (Node.JSON_stringify Scenario.m1))]]
       Scenario.connected).
Proof.
  rewrite (sendIpcMessage_ascii_frame (H := Node.platform)
             Scenario.m1 Scenario.connected 0).
  - reflexivity.
  - reflexivity.
  - vm_compute. reflexivity.
  - vm_compute. repeat constructor.
Defined.

(** On the run: [connect] when connected and when connecting, the signal of
    the proxy and a spawn error, each with one caller waiting. *)
Lemma connect_joins_and_settles_together_witness :
  connect Scenario.connected = (Normal None, Scenario.connected) /\
  (exists d s',
     connect Scenario.connecting = (Normal (Some d), s') /\
     children s' = [[]] /\ process s' = Some 0%nat /\
     connectionState s' = Connecting /\
     awaitingConnection s' = [0%nat; d]) /\
  (exists s',
     processIpcMessage (H := Node.platform)
       (frame Scenario.connected_signal) Scenario.connecting
     = Some (Normal tt, s') /\
     connectionState s' = Connected /\ awaitingConnection s' = [] /\
     connections s' !! 0%nat = Some (Resolved tt)) /\
  (awaitingConnection
     (on_process_error (SpawnError (js "ENOENT")) Scenario.connecting) = [] /\
   connections
     (on_process_error (SpawnError (js "ENOENT")) Scenario.connecting) !! 0%nat
   = Some (Rejected (SpawnError (js "ENOENT")))).
Proof.
  split; [|split; [|split]].
  - apply (connect_joins_and_settles_together (H := Node.platform)
             Scenario.connected). reflexivity.
  - destruct (connect_joins_and_settles_together (H := Node.platform)
                Scenario.connecting) as (_ & Hjoin & _).
    destruct (Hjoin eq_refl) as (d & s' & Hrun & Hc & Hp & Hs & Ha & _).
    exists d, s'. by repeat split.
  - destruct (connect_joins_and_settles_together (H := Node.platform)
                Scenario.connecting) as (_ & _ & Hready & _).
    destruct (Hready (frame Scenario.connected_signal) Scenario.connected_signal
                (JObject [(js "command", JString (js "connected"))]))
      as (s' & Hrun & Hs & Ha & Hd).
    + reflexivity.
    + vm_compute. reflexivity.
    + vm_compute. reflexivity.
    + vm_compute. reflexivity.
    + exists s'. repeat split; try done.
      apply Hd; [|done]. apply list_elem_of_In. by left.
  - destruct (connect_joins_and_settles_together (H := Node.platform)
                Scenario.connecting) as (_ & _ & _ & Herror).
    destruct (Herror (SpawnError (js "ENOENT"))) as [Ha Hd].
    split; [done|]. apply Hd; [|done]. apply list_elem_of_In. by left.
Defined.

(** On the run: the proxy writes [{command: "disconnected"}] while [m1] is
    pending. *)
Lemma disconnected_message_changes_only_the_state_witness :
  let s' := set_connectionState Disconnected
              (set_processOutputBuffer [] Scenario.awaiting_m1) in
  processIpcMessage (H := Node.platform)
    (frame Scenario.disconnected_signal) Scenario.awaiting_m1
  = Some (Normal tt, s') /\
  connectionState s' = Disconnected /\
  pendingMessages s' = pendingMessages Scenario.awaiting_m1 /\
  awaitingConnection s' = awaitingConnection Scenario.awaiting_m1 /\
  responses s' = responses Scenario.awaiting_m1 /\
  connections s' = connections Scenario.awaiting_m1 /\
  races s' = races Scenario.awaiting_m1 /\
  handled s' = handled Scenario.awaiting_m1 /\
  children s' = children Scenario.awaiting_m1 /\
  process s' = process Scenario.awaiting_m1.
Proof.
  apply (disconnected_message_changes_only_the_state (H := Node.platform)
           (frame Scenario.disconnected_signal) Scenario.disconnected_signal
           (JObject [(js "command", JString (js "disconnected"))])
           Scenario.awaiting_m1).
  - reflexivity.
  - vm_compute. reflexivity.
  - vm_compute. reflexivity.
  - vm_compute. reflexivity.
Defined.

End IPCTheory.

(** * Properties of the session broker *)

Module Fido2Theory.
Import Fido2.
Local Open Scope string_scope.

(** ** The filter on the session id *)

(** [messages$] lets nothing through that has another session id. *)
Lemma messages_other_session (s : Session) (msg : BrowserFido2Message) :
  msg_sessionId msg <> sessionId s -> messages s msg = None.
Proof.
  intros Hother. unfold messages, only. by rewrite bool_decide_false.
Qed.

(** No listener of a session reacts to a message of another session. *)
Lemma on_message_other_session
  (s : Session) (msg : BrowserFido2Message) (entry : nat * Subscription) :
  msg_sessionId msg <> sessionId s -> on_message msg s entry = s.
Proof.
  intros Hother. unfold on_message.
  rewrite (messages_other_session s msg Hother).
  destruct (live entry.1 s); [|done]. by destruct entry.2.
Qed.

Lemma notify_other_session (s : Session) (msg : BrowserFido2Message) :
  msg_sessionId msg <> sessionId s -> notify msg s = s.
Proof.
  intros Hother. unfold notify.
  induction (subscriptions s) as [|entry l IH]; [done|].
  cbn. by rewrite on_message_other_session.
Qed.

(** Between two events no call is ready to go on. *)
Lemma resume_quiescent (s : Session) (i : nat) :
  quiescent s = true -> resume s i = s.
Proof.
  intros Hq. unfold resume.
  destruct (tasks s !! i) as [[st c k]|] eqn:Hi; [|done].
  destruct st; try done.
  unfold quiescent in Hq. rewrite forallb_forall in Hq.
  specialize (Hq _ (proj1 (list_elem_of_In _ _) (list_elem_of_lookup_2 _ _ _ Hi))).
  cbn in Hq. by destruct (connects s !! c) as [[]|].
Qed.

Lemma run_tasks_quiescent (s : Session) :
  quiescent s = true -> run_tasks s = s.
Proof.
  intros Hq. unfold run_tasks.
  induction (seq 0 (length (tasks s))) as [|i l IH]; [done|].
  cbn. by rewrite resume_quiescent.
Qed.

(** What going on after [connect] leaves alone. *)
Lemma resume_frame (s : Session) (i : nat) :
  connects (resume s i) = connects s /\
  length (tasks (resume s i)) = length (tasks s) /\
  (forall j, j <> i -> tasks (resume s i) !! j = tasks s !! j) /\
  (forall t, tasks (resume s i) !! i = Some t ->
     match stage t, connects s !! connectPromise t with
     | AwaitConnected, Some (Resolved _) | AwaitConnected, Some (Rejected _) =>
         False
     | _, _ => True
     end).
Proof.
  unfold resume.
  destruct (tasks s !! i) as [[st c k]|] eqn:Hi.
  2: { repeat split; try done. intros t Ht. congruence. }
  assert (Hidle : forall t, tasks s !! i = Some t ->
            stage t <> AwaitConnected \/ connects s !! connectPromise t = None
            \/ connects s !! connectPromise t = Some Pending ->
            match stage t, connects s !! connectPromise t with
            | AwaitConnected, Some (Resolved _)
            | AwaitConnected, Some (Rejected _) => False
            | _, _ => True
            end).
  { intros t _ [Hst|[->| ->]]; destruct (stage t); try done;
      by destruct (connects s !! connectPromise t) as [[]|]. }
  destruct st;
    try (repeat split; try done; intros t Ht; apply Hidle; [done|];
         left; rewrite Hi in Ht; by injection Ht as <-).
  destruct (connects s !! c) as [[|v|e]|] eqn:Hc.
  - repeat split; try done. intros t Ht. apply Hidle; [done|].
    rewrite Hi in Ht. injection Ht as <-. cbn. by right; right.
  - assert (Hreturned : forall s', tasks s' = tasks (set_stage i Returned s) ->
              forall t, tasks s' !! i = Some t -> stage t = Returned).
    { intros s' -> t. cbn. rewrite list_lookup_alter_eq, Hi. cbn.
      by intros [= <-]. }
    destruct k as [p|msg [awaited p]]; cbn; rewrite length_alter;
      (repeat split; try done;
       [ intros j Hj; by rewrite list_lookup_alter_ne
       | intros t Ht; rewrite list_lookup_alter_eq, Hi in Ht; cbn in Ht;
         by injection Ht as <- ]).
  - destruct k as [p|msg [awaited p]]; cbn; rewrite length_alter;
      (repeat split; try done;
       [ intros j Hj; by rewrite list_lookup_alter_ne
       | intros t Ht; rewrite list_lookup_alter_eq, Hi in Ht; cbn in Ht;
         by injection Ht as <- ]).
  - repeat split; try done. intros t Ht. apply Hidle; [done|].
    rewrite Hi in Ht. injection Ht as <-. cbn. by right; left.
Qed.

(** The microtasks at the end of an event leave no call ready to go on: the
    session is quiescent when the next event comes. *)
Lemma run_tasks_makes_quiescent (s : Session) :
  quiescent (run_tasks s) = true.
Proof.
  unfold run_tasks.
  assert (Hinv : forall n, (n <= length (tasks s))%nat ->
    let s' := foldl resume s (seq 0 n) in
    connects s' = connects s /\ length (tasks s') = length (tasks s) /\
    (forall j, (n <= j)%nat -> tasks s' !! j = tasks s !! j) /\
    (forall j t, (j < n)%nat -> tasks s' !! j = Some t ->
       match stage t, connects s !! connectPromise t with
       | AwaitConnected, Some (Resolved _)
       | AwaitConnected, Some (Rejected _) => False
       | _, _ => True
       end)).
  { induction n as [|n IH]; intros Hn.
    - cbn. repeat split; try done. intros j t Hj. lia.
    - rewrite seq_S, foldl_app. cbn [foldl Nat.add].
      destruct IH as (Hc & Hlen & Hrest & Hdone); [lia|].
      set (s1 := foldl resume s (seq 0 n)) in *.
      destruct (resume_frame s1 n) as (Hc' & Hlen' & Hother & Hat).
      cbv zeta. rewrite Hc', Hlen', Hc, Hlen. repeat split; try done.
      + intros j Hj. rewrite Hother by lia. apply Hrest. lia.
      + intros j t Hj Ht. destruct (decide (j = n)) as [->|Hne].
        * specialize (Hat t Ht). by rewrite Hc in Hat.
        * rewrite Hother in Ht by done. apply (Hdone j); [lia|done]. }
  destruct (Hinv (length (tasks s)) (le_n _)) as (Hc & Hlen & _ & Hdone).
  unfold quiescent. apply forallb_forall. intros t Ht.
  apply list_elem_of_In, list_elem_of_lookup in Ht as [j Hj].
  rewrite Hc. pose proof (lookup_lt_Some _ _ _ Hj) as Hlt.
  rewrite Hlen in Hlt. specialize (Hdone j t Hlt Hj).
  destruct (stage t); try done.
  by destruct (connects s !! connectPromise t) as [[]|].
Qed.

(** A session is quiescent when it is created and after every message. *)
Lemma quiescent_between_events
  (fallback : bool) (id : string) (msg : BrowserFido2Message) (s : Session) :
  quiescent (create fallback id) = true /\ quiescent (deliver msg s) = true.
Proof. split; [done|apply run_tasks_makes_quiescent]. Qed.

(** C6.  A message that carries the session id of session [A] leaves every
    session [B] with another id as it is: none of [B]'s listeners gets past
    the filter of [messages$], so no promise of [B] is settled, no
    subscription of [B] ends and [B] does nothing to the outside. *)
Theorem message_of_other_session_is_ignored
  (A B : Session) (msg : BrowserFido2Message) :
  sessionId A <> sessionId B ->
  msg_sessionId msg = sessionId A ->
  quiescent B = true ->
  deliver msg B = B.
Proof.
  intros Hdistinct Hmsg Hq. unfold deliver.
  rewrite notify_other_session by congruence.
  by apply run_tasks_quiescent.
Qed.

(** ** Sending on a closed session *)

Lemma refused_nothing_done (s : Session) :
  log (refused s) = log s /\ subscriptions (refused s) = subscriptions s /\
  tasks (refused s) = tasks s /\ popout (refused s) = popout s /\
  connects (refused s) = connects s.
Proof. done. Qed.

Lemma connect_closed (k : AfterConnect) (s : Session) :
  closed s = true -> connect k s = fail k cannot_reopen s.
Proof. intros Hclosed. unfold connect. by rewrite Hclosed. Qed.

Lemma request_refused (data : Body) (awaited : string) (s : Session) :
  closed s = true -> connected s = false ->
  request data awaited s = (length (promises s), refused s).
Proof.
  intros Hclosed Hconnected. unfold request, new_promise, send. cbn.
  rewrite Hconnected. cbn. rewrite connect_closed by done.
  unfold fail, settle_promise, refused, set_promises. cbn.
  by rewrite alter_app_r_alt, Nat.sub_diag by done.
Qed.

Lemma ensureUnlockedVault_refused (s : Session) :
  closed s = true -> ensureUnlockedVault s = (length (promises s), refused s).
Proof.
  intros Hclosed. unfold ensureUnlockedVault, new_promise.
  rewrite connect_closed by done.
  unfold fail, settle_promise, refused, set_promises. cbn.
  by rewrite alter_app_r_alt, Nat.sub_diag by done.
Qed.

Lemma refused_is_refused (operation : Session -> nat * Session) (s : Session) :
  operation s = (length (promises s), refused s) ->
  refused_with cannot_reopen operation s.
Proof.
  intros Hrun. unfold refused_with. rewrite Hrun.
  split; [done|]. cbn. by rewrite lookup_app_r, Nat.sub_diag.
Qed.

(** C7, as the code has it.  A closed session cannot reconnect: [connect]
    throws "Cannot re-open closed session" before it does anything.  So on a
    closed session whose popout is not connected, every public operation that
    would send a message is refused with that error and broadcasts nothing,
    and [ensureUnlockedVault] is refused whether the popout is connected or
    not. *)
Theorem closed_session_cannot_reconnect (s : Session) :
  closed s = true ->
  (forall k : AfterConnect, connect k s = fail k cannot_reopen s) /\
  refused_with cannot_reopen ensureUnlockedVault s /\
  (connected s = false ->
   (forall cipherIds userVerification,
      refused_with cannot_reopen (pickCredential cipherIds userVerification) s) /\
   (forall credentialName userName userVerification,
      refused_with cannot_reopen
        (confirmNewCredential credentialName userName userVerification) s) /\
   (forall credentialName userName userVerification,
      refused_with cannot_reopen
        (confirmNewNonDiscoverableCredential credentialName userName
           userVerification) s) /\
   (forall existingCipherIds,
      refused_with cannot_reopen (informExcludedCredential existingCipherIds) s) /\
   refused_with cannot_reopen informCredentialNotFound s).
Proof.
  intros Hclosed. split; [intros k; by apply connect_closed|].
  split; [by apply refused_is_refused, ensureUnlockedVault_refused|].
  intros Hconnected.
  repeat split; intros; apply refused_is_refused; by apply request_refused.
Qed.

(** C7 as stated fails: the session of [Ceremony] was connected when it was
    closed, and [pickCredential] on it broadcasts its request and waits. *)
Lemma closed_connected_session_still_broadcasts :
  closed Ceremony.finished = true /\
  ~ fails_without_broadcast (pickCredential ["c1"] false) Ceremony.finished /\
  log (pickCredential ["c1"] false Ceremony.finished).2 =
    (log Ceremony.finished ++
     [Broadcast {| msg_sessionId := "A";
                   body := PickCredentialRequest ["c1"] false true |}])%list.
Proof.
  split; [vm_compute; reflexivity|]. split; [|vm_compute; reflexivity].
  intros [e [Hlog _]]. vm_compute in Hlog. discriminate.
Qed.

(** On a session that was closed before its popout was opened. *)
Lemma closed_session_cannot_reconnect_witness :
  (forall k : AfterConnect,
     connect k Ceremony.closed_early = fail k cannot_reopen Ceremony.closed_early) /\
  refused_with cannot_reopen ensureUnlockedVault Ceremony.closed_early /\
  refused_with cannot_reopen (pickCredential ["c1"] false) Ceremony.closed_early /\
  refused_with cannot_reopen informCredentialNotFound Ceremony.closed_early.
Proof.
  assert (Hclosed : closed Ceremony.closed_early = true)
    by (vm_compute; reflexivity).
  assert (Hconnected : connected Ceremony.closed_early = false)
    by (vm_compute; reflexivity).
  destruct (closed_session_cannot_reconnect Ceremony.closed_early Hclosed)
    as (Hconnect & Hensure & Hoperations).
  destruct (Hoperations Hconnected) as (Hpick & _ & _ & _ & Hinform).
  split; [exact Hconnect|]. split; [exact Hensure|].
  split; [apply Hpick|exact Hinform].
Defined.

(** ** Teardown *)

(** What [destroy$.next()] leaves alone. *)
Lemma destroy_fold_frame (l : list (nat * Subscription)) (s : Session) :
  let s' := foldl complete_on_destroy s l in
  log s' = log s /\ closed s' = closed s /\ stopped s' = stopped s /\
  signal s' = signal s /\ popout s' = popout s /\ sessionId s' = sessionId s /\
  connects s' = connects s /\ tasks s' = tasks s.
Proof.
  revert s. induction l as [|entry l IH]; intros s; [done|].
  cbn. specialize (IH (complete_on_destroy s entry)). cbn in IH.
  destruct IH as (-> & -> & -> & -> & -> & -> & -> & ->).
  unfold complete_on_destroy. by destruct entry.2.
Qed.

(** A promise that teardown has rejected stays rejected. *)
Lemma destroy_fold_keeps_rejected
  (l : list (nat * Subscription)) (s : Session) (p : nat) :
  promises s !! p = Some (Rejected SessionClosedError) ->
  promises (foldl complete_on_destroy s l) !! p
  = Some (Rejected SessionClosedError).
Proof.
  revert s. induction l as [|entry l IH]; intros s Hp; [done|].
  cbn. apply IH. unfold complete_on_destroy.
  destruct entry.2 as [| | |awaited p'| |]; try done.
  cbn. rewrite list_lookup_alter.
  destruct (decide (p' = p)) as [->|]; [by rewrite Hp|done].
Qed.

(** A pending promise whose [receive] is among the subscriptions that
    [destroy$] completes is rejected with [SessionClosedError]. *)
Lemma destroy_fold_rejects_receive
  (l : list (nat * Subscription)) (s : Session) (id : nat) (awaited : string)
  (p : nat) :
  (id, ReceiveSub awaited p) ∈ l ->
  promises s !! p = Some Pending ->
  promises (foldl complete_on_destroy s l) !! p
  = Some (Rejected SessionClosedError).
Proof.
  revert s. induction l as [|entry l IH]; intros s Hin Hp.
  - by apply elem_of_nil in Hin.
  - cbn. apply elem_of_cons in Hin as [<-|Hin].
    + apply destroy_fold_keeps_rejected. cbn.
      by rewrite list_lookup_alter_eq, Hp.
    + unfold complete_on_destroy at 2.
      destruct entry.2 as [| | |awaited' p'| |] eqn:Hentry;
        try (apply IH; done).
      destruct (decide (p' = p)) as [->|Hne].
      * apply destroy_fold_keeps_rejected. cbn.
        by rewrite list_lookup_alter_eq, Hp.
      * apply IH; [done|]. cbn. by rewrite list_lookup_alter_ne.
Qed.

(** C8.  [close] runs while a [receive] waits for its response: the promise
    that waits is rejected with [SessionClosedError].  That error is neither
    of the reasons an abort gives to the signal, and [close] itself does not
    abort the signal. *)
Theorem close_rejects_pending_receive
  (s : Session) (id : nat) (awaited : string) (p : nat) :
  (id, ReceiveSub awaited p) ∈ subscriptions s ->
  stopped s = false ->
  promises s !! p = Some Pending ->
  promises (close s) !! p = Some (Rejected SessionClosedError) /\
  signal (close s) = signal s /\
  SessionClosedError <> AbortError /\
  SessionClosedError <> UserRequestedFallbackAbortReason.
Proof.
  intros Hin Hstopped Hp. unfold close, destroy_next. cbn. rewrite Hstopped.
  repeat split; try done.
  - by apply (destroy_fold_rejects_receive _ _ id awaited p).
  - by destruct (destroy_fold_frame (subscriptions s)
      (emit DestroyNext (set_closed true (emit (ClosePopOut (popout s)) s))))
      as (_ & _ & _ & -> & _).
Qed.

(** On the ceremony: the session is closed while [pickCredential] waits for
    its response. *)
Lemma close_rejects_pending_receive_witness :
  promises (close Ceremony.receiving) !! 0%nat
  = Some (Rejected SessionClosedError) /\
  signal (close Ceremony.receiving) = signal Ceremony.receiving /\
  SessionClosedError <> AbortError /\
  SessionClosedError <> UserRequestedFallbackAbortReason.
Proof.
  apply (close_rejects_pending_receive Ceremony.receiving 5
           "PickCredentialResponse" 0).
  - vm_compute. apply list_elem_of_In. do 3 right. by left.
  - vm_compute. reflexivity.
  - vm_compute. reflexivity.
Defined.

(** The other ways into teardown on the ceremony: the relying party aborts,
    the popout answers with an [AbortResponse], the window of the popout is
    removed.  Each time the waiting promise is rejected with
    [SessionClosedError], and the abort shows in the signal. *)
Lemma teardown_paths_reject_pending_receive :
  let by_relying_party := aborted_by_relying_party Ceremony.receiving in
  let by_user :=
    deliver {| msg_sessionId := "A"; body := AbortResponse true |}
      Ceremony.receiving in
  let by_window := windows_onRemoved 7 Ceremony.receiving in
  promises by_relying_party !! 0%nat = Some (Rejected SessionClosedError) /\
  signal by_relying_party = Some AbortError /\
  promises by_user !! 0%nat = Some (Rejected SessionClosedError) /\
  signal by_user = Some UserRequestedFallbackAbortReason /\
  promises by_window !! 0%nat = Some (Rejected SessionClosedError) /\
  signal by_window = Some AbortError.
Proof. vm_compute. done. Qed.

(** Subscriptions are told apart by their ids. *)
Lemma same_id_same_entry {B} (l : list (nat * B)) (x y : nat * B) :
  NoDup l.*1 -> x ∈ l -> y ∈ l -> x.1 = y.1 -> x = y.
Proof.
  induction l as [|e l IH]; intros Hnodup Hx Hy Hid.
  - by apply elem_of_nil in Hx.
  - rewrite fmap_cons in Hnodup. apply NoDup_cons in Hnodup as [Hfresh Hnodup].
    apply elem_of_cons in Hx as [->|Hx]; apply elem_of_cons in Hy as [->|Hy];
      try done.
    + destruct Hfresh. rewrite Hid. by apply list_elem_of_fmap_2.
    + destruct Hfresh. rewrite <- Hid. by apply list_elem_of_fmap_2.
    + by apply IH.
Qed.

(** After [destroy$.next()] only subscriptions of connect promises are left,
    and none is new. *)
Lemma destroy_fold_subscriptions (l : list (nat * Subscription)) (s : Session) :
  (forall x, x ∈ subscriptions s -> x ∈ l \/ is_connect x.2 = true) ->
  Forall (fun x => is_connect x.2 = true)
    (subscriptions (foldl complete_on_destroy s l)) /\
  subscriptions (foldl complete_on_destroy s l) ⊆ subscriptions s.
Proof.
  revert s. induction l as [|entry l IH]; intros s Hcover.
  - cbn. split; [|done]. apply Forall_forall. intros x Hx.
    destruct (Hcover x Hx) as [Hnil|]; [by apply elem_of_nil in Hnil|done].
  - cbn. destruct entry as [eid sub].
    destruct (IH (complete_on_destroy s (eid, sub))) as [Hall Hsub].
    + intros x Hx. unfold complete_on_destroy in Hx. cbn in Hx.
      destruct (is_connect sub) eqn:Hkind.
      * destruct sub; try done.
        destruct (Hcover x Hx) as [Hin|]; [|by right].
        apply elem_of_cons in Hin as [->|]; [by right|by left].
      * assert (Hx' : x ∈ filter (fun e => e.1 <> eid) (subscriptions s))
          by (by destruct sub).
        apply list_elem_of_filter in Hx' as [Hne Hx'].
        destruct (Hcover x Hx') as [Hin|]; [|by right].
        apply elem_of_cons in Hin as [->|]; [done|by left].
    + split; [done|]. etrans; [exact Hsub|].
      unfold complete_on_destroy.
      destruct sub; cbn; try done;
        intros x Hx; by apply list_elem_of_filter in Hx as [_ Hx].
Qed.

(** The listeners of "abort" that run after the handler of the session has
    closed it: connect promises are rejected, and no subscription is left. *)
Lemma abort_fold_after_close (l : list (nat * Subscription)) (s : Session) :
  NoDup l.*1 -> subscriptions s ⊆ l ->
  Forall (fun x => is_connect x.2 = true) (subscriptions s) ->
  let s' := foldl on_abort_event s l in
  log s' = log s /\ closed s' = closed s /\ stopped s' = stopped s /\
  signal s' = signal s /\ subscriptions s' = [].
Proof.
  revert s. induction l as [|[eid sub] l IH]; intros s Hnodup Hsub Hall.
  { cbn. repeat split; try done.
    destruct (subscriptions s) as [|x rest]; [done|].
    exfalso. eapply elem_of_nil, Hsub. by left. }
  pose proof Hnodup as Hnodup'.
  rewrite fmap_cons in Hnodup'. apply NoDup_cons in Hnodup' as [Hfresh Hnodupl].
  cbn in Hfresh. cbn [foldl].
  destruct (live eid s) eqn:Hlive.
  - apply bool_decide_eq_true in Hlive.
    apply list_elem_of_fmap in Hlive as (x & Hid & Hx).
    assert (x = (eid, sub)) as ->.
    { apply (same_id_same_entry ((eid, sub) :: l));
        [done|by apply Hsub|by left|done]. }
    rewrite Forall_forall in Hall. pose proof (Hall _ Hx) as Hkind.
    destruct sub as [| | | | |c]; try done.
    replace (on_abort_event s (eid, ConnectSub c))
      with (settle_connect c (Rejected SessionClosedError) (unsubscribe eid s)).
    2: { unfold on_abort_event, live. cbn. rewrite bool_decide_true; [done|].
         by apply (list_elem_of_fmap_2 fst _ (eid, ConnectSub c)). }
    set (s1 := settle_connect c (Rejected SessionClosedError) (unsubscribe eid s)).
    assert (Hsub1 : subscriptions s1 ⊆ l).
    { cbn. intros y Hy. apply list_elem_of_filter in Hy as [Hne Hy].
      apply Hsub, elem_of_cons in Hy as [->|Hy]; [by destruct Hne|done]. }
    assert (Hall1 : Forall (fun x => is_connect x.2 = true) (subscriptions s1)).
    { cbn. apply Forall_forall. intros y Hy.
      apply list_elem_of_filter in Hy as [_ Hy]. by apply Hall. }
    destruct (IH s1 Hnodupl Hsub1 Hall1)
      as (Hlog' & Hclosed' & Hstopped' & Hsignal' & Hnone).
    cbv zeta. rewrite Hlog', Hclosed', Hstopped', Hsignal'. by repeat split.
  - replace (on_abort_event s (eid, sub)) with s
      by (unfold on_abort_event; cbn; by rewrite Hlive).
    apply IH; try done.
    intros y Hy. pose proof (Hsub y Hy) as Hy'.
    apply elem_of_cons in Hy' as [->|Hy']; [|done].
    apply bool_decide_eq_false in Hlive. destruct Hlive.
    by apply (list_elem_of_fmap_2 fst _ (eid, sub)).
Qed.

(** The listeners of "abort" on a session that still listens: the handler of
    the session runs once, closes the session and then broadcasts. *)
Lemma abort_fold_closes_then_broadcasts
  (l : list (nat * Subscription)) (s : Session) :
  NoDup l.*1 ->
  (forall x, x ∈ l -> x ∈ subscriptions s) ->
  (forall x, x ∈ subscriptions s -> is_connect x.2 = true -> x ∈ l) ->
  stopped s = false ->
  (exists id, (id, AbortSignalSub) ∈ l) ->
  let s' := foldl on_abort_event s l in
  log s' =
    (log s ++
     [ClosePopOut (popout s); DestroyNext;
      Broadcast {| msg_sessionId := sessionId s; body := AbortRequest |}])%list /\
  closed s' = true /\ stopped s' = true /\ signal s' = signal s /\
  subscriptions s' = [].
Proof.
  revert s. induction l as [|[eid sub] l IH];
    intros s Hnodup Hlive Hconnects Hstopped [id Hid].
  { by apply elem_of_nil in Hid. }
  rewrite fmap_cons in Hnodup. apply NoDup_cons in Hnodup as [Hfresh Hnodupl].
  cbn in Hfresh.
  assert (Hrest : forall x, x ∈ l -> x ∈ subscriptions s)
    by (intros x Hx; apply Hlive; by right).
  assert (Hlive_eid : live eid s = true).
  { apply bool_decide_eq_true.
    apply (list_elem_of_fmap_2 fst _ (eid, sub)), Hlive. by left. }
  cbn [foldl].
  destruct sub as [| | |awaited p|windowId|c].
  2: { (* the handler of the session *)
    set (s0 := emit DestroyNext (set_closed true (emit (ClosePopOut (popout s)) s))).
    destruct (destroy_fold_subscriptions (subscriptions s) s0)
      as [Hall Hsubs]; [by left|].
    destruct (destroy_fold_frame (subscriptions s) s0)
      as (Hlog & Hclosed & _ & Hsignal & _ & Hsid & _).
    replace (on_abort_event s (eid, AbortSignalSub))
      with (sendMessage {| msg_sessionId := sessionId s; body := AbortRequest |}
              (set_stopped true (foldl complete_on_destroy s0 (subscriptions s)))).
    2: { unfold on_abort_event. cbn. rewrite Hlive_eid.
         unfold close, destroy_next. cbn. rewrite Hstopped. fold s0.
         cbn. by rewrite Hsid. }
    set (s1 := sendMessage _ _).
    assert (Hsub1 : subscriptions s1 ⊆ l).
    { cbn. intros y Hy. rewrite Forall_forall in Hall.
      pose proof (Hall y Hy) as Hkind.
      pose proof (Hconnects y (Hsubs y Hy) Hkind) as Hy'.
      apply elem_of_cons in Hy' as [->|Hy']; [done|done]. }
    destruct (abort_fold_after_close l s1 Hnodupl Hsub1 Hall)
      as (Hlog' & Hclosed' & Hstopped' & Hsignal' & Hnone).
    cbv zeta. rewrite Hlog', Hclosed', Hstopped', Hsignal'. cbn.
    rewrite Hlog, Hclosed, Hsignal. cbn.
    by rewrite <- !app_assoc. }
  5: { (* a connect promise that was made before *)
    replace (on_abort_event s (eid, ConnectSub c))
      with (settle_connect c (Rejected SessionClosedError) (unsubscribe eid s))
      by (unfold on_abort_event; cbn; by rewrite Hlive_eid).
    set (s1 := settle_connect c (Rejected SessionClosedError) (unsubscribe eid s)).
    assert (Hlive1 : forall x, x ∈ l -> x ∈ subscriptions s1).
    { cbn. intros y Hy. apply list_elem_of_filter. split; [|by apply Hrest].
      intros Heq. apply Hfresh. cbn in Heq. rewrite <- Heq.
      by apply list_elem_of_fmap_2. }
    assert (Hconnects1 : forall x, x ∈ subscriptions s1 ->
                           is_connect x.2 = true -> x ∈ l).
    { cbn. intros y Hy Hkind. apply list_elem_of_filter in Hy as [Hne Hy].
      pose proof (Hconnects y Hy Hkind) as Hy'.
      apply elem_of_cons in Hy' as [->|Hy']; [by destruct Hne|done]. }
    assert (Hid1 : exists id, (id, AbortSignalSub) ∈ l)
      by (apply elem_of_cons in Hid as [[=]|Hid]; eauto).
    destruct (IH s1 Hnodupl Hlive1 Hconnects1 Hstopped Hid1)
      as (Hlog' & Hclosed' & Hstopped' & Hsignal' & Hnone).
    cbv zeta. rewrite Hlog', Hclosed', Hstopped', Hsignal'. by repeat split. }
  (* the listeners of something else *)
  all: match goal with
       | |- context [foldl on_abort_event (on_abort_event ?s0 ?e) _] =>
           replace (on_abort_event s0 e) with s0
             by (unfold on_abort_event; cbn; by rewrite Hlive_eid)
       end.
  all: apply IH; try done.
  all: try (apply elem_of_cons in Hid as [[=]|Hid]; by eauto).
  all: intros y Hy Hkind; pose proof (Hconnects y Hy Hkind) as Hy';
       apply elem_of_cons in Hy' as [->|Hy']; done.
Qed.

(** C9.  The signal of a session that still listens is aborted: the handler
    of the session first closes the popout and lets [destroy$] end the
    subscriptions, and only then broadcasts the [AbortRequest]; these three
    are all the session does to the outside, in this order.  Afterwards the
    session is closed and none of its subscriptions is left. *)
Theorem abort_closes_before_it_broadcasts
  (s : Session) (reason : Error) (id : nat) :
  signal s = None ->
  stopped s = false ->
  (id, AbortSignalSub) ∈ subscriptions s ->
  NoDup (subscriptions s).*1 ->
  let s' := abortController_abort reason s in
  log s' =
    (log s ++
     [ClosePopOut (popout s); DestroyNext;
      Broadcast {| msg_sessionId := sessionId s; body := AbortRequest |}])%list /\
  closed s' = true /\ stopped s' = true /\ signal s' = Some reason /\
  subscriptions s' = [].
Proof.
  intros Hsignal Hstopped Hid Hnodup. unfold abortController_abort.
  rewrite Hsignal.
  apply (abort_fold_closes_then_broadcasts (subscriptions s)
           (set_signal (Some reason) s)); eauto.
Qed.

(** A session listens, in the sense of the hypotheses above, from the moment
    it is created. *)
Lemma created_session_listens (fallback : bool) (id : string) :
  let s := create fallback id in
  signal s = None /\ stopped s = false /\
  (1%nat, AbortSignalSub) ∈ subscriptions s /\ NoDup (subscriptions s).*1.
Proof.
  cbn. repeat split.
  - apply list_elem_of_In. right. by left.
  - by apply (bool_decide_unpack _).
Qed.

(** Once the session is closed, an abort broadcasts nothing: the listener
    of the signal went with [destroy$]. *)
Lemma abort_after_close_is_silent :
  log (abortController_abort AbortError Ceremony.finished)
  = log Ceremony.finished.
Proof. vm_compute. reflexivity. Qed.

(** On the ceremony: the relying party aborts while [pickCredential] waits
    for its response. *)
Lemma abort_closes_before_it_broadcasts_witness :
  let s' := abortController_abort AbortError Ceremony.receiving in
  log s' =
    (log Ceremony.receiving ++
     [ClosePopOut (Some (PopoutWindow 7)); DestroyNext;
      Broadcast {| msg_sessionId := "A"; body := AbortRequest |}])%list /\
  closed s' = true /\ stopped s' = true /\ signal s' = Some AbortError /\
  subscriptions s' = [].
Proof.
  apply (abort_closes_before_it_broadcasts Ceremony.receiving AbortError 1).
  - vm_compute. reflexivity.
  - vm_compute. reflexivity.
  - vm_compute. apply list_elem_of_In. by left.
  - apply (bool_decide_unpack _). vm_compute. reflexivity.
Defined.

(** On the ceremony: the response for session "A" on session "B", which
    waits for a response of the same type. *)
Lemma message_of_other_session_is_ignored_witness :
  deliver Ceremony.pick_response Ceremony.other = Ceremony.other.
Proof.
  apply (message_of_other_session_is_ignored Ceremony.receiving).
  - vm_compute. discriminate.
  - vm_compute. reflexivity.
  - vm_compute. reflexivity.
Defined.

End Fido2Theory.

(** * Further properties of the IPC client *)

Module IPCMore.
Import IPC IPCEvents IPCTheory.

Section Frames.
Context `{Platform}.

(** A whole frame whose message is neither of the two connection signals is
    handed to [processMessage], with the buffer emptied. *)
Lemma processIpcMessage_message
  (data payload : list byte) (message : JSON) (s : IPCService) :
  processOutputBuffer s ++ data = frame payload ->
  N.of_nat (length payload) < 2 ^ 32 ->
  JSON_parse (Buffer_toString payload) = Some message ->
  prop_is message (js "command") (js "connected") = false ->
  prop_is message (js "command") (js "disconnected") = false ->
  processIpcMessage data s =
    match processMessage message (set_processOutputBuffer [] s) with
    | (Normal _, s') => Some (Normal tt, s')
    | (Throw e, s') => Some (Throw e, s')
    end.
Proof.
  intros Hbuf Hn Hparse Hc Hd.
  rewrite (processIpcMessage_decodes data s _ payload message Hbuf Hn) by done.
  unfold processIpcMessage_dispatch. rewrite Hc, Hd, bind_eq.
  by destruct (processMessage message _) as [[[]|e] s'].
Qed.

(** What [processMessage] does with a response to a pending request, on
    every field. *)
Lemma processMessage_response
  (response : JSON) (id : JSString) (d : nat) (s : IPCService) :
  prop response (js "messageId") = Some (JString id) ->
  id <> [] ->
  pendingMessages s !! id = Some d ->
  processMessage response s =
    (Normal tt,
     set_pendingMessages (delete id (pendingMessages s))
       (set_races (race_settle d (Resolved response) <$> races s)
          (set_responses (alter (settle (Resolved response)) d (responses s)) s))).
Proof.
  intros Hid Hne Hpending. unfold processMessage.
  destruct response; try discriminate.
  rewrite Hid, bind_eq. unfold gets at 1.
  unfold pending_has. rewrite bool_decide_true
    by (unfold pending_get; rewrite Hpending; eauto).
  replace (truthy (Some (JString id))) with true
    by (cbn; by rewrite bool_decide_false).
  cbn [andb]. rewrite bind_eq. unfold gets at 1, pending_get. rewrite Hpending.
  reflexivity.
Qed.

(** What [processMessage] does with a message that answers no pending
    request. *)
Lemma processMessage_unsolicited (message : JSON) (s : IPCService) :
  message <> JNull ->
  truthy (prop message (js "messageId"))
    && pending_has (prop message (js "messageId")) s = false ->
  processMessage message s =
    (Normal tt, set_handled (handled s ++ [message]) s).
Proof.
  intros Hnull Hfree. unfold processMessage.
  destruct message; try done; rewrite bind_eq; unfold gets at 1;
    by rewrite Hfree.
Qed.


(** X2.  A request and its response.  After [sendMessage] has returned its
    promise, a frame that holds a message with the request's (non-empty)
    [messageId] fulfils that promise with the message, removes the entry of
    the id and is not shown to the message handler; the timer of the request,
    when it fires afterwards, changes nothing. *)
Theorem response_settles_request
  (message : MessageCommon) (options : IPCOptions) (s s1 : IPCService) (r : nat)
  (data payload : list byte) (response : JSON) :
  sendMessage message options s = (Normal r, s1) ->
  processOutputBuffer s1 ++ data = frame payload ->
  N.of_nat (length payload) < 2 ^ 32 ->
  JSON_parse (Buffer_toString payload) = Some response ->
  prop response (js "messageId") = Some (JString (messageId message)) ->
  messageId message <> [] ->
  prop_is response (js "command") (js "connected") = false ->
  prop_is response (js "command") (js "disconnected") = false ->
  exists s2,
    processIpcMessage data s1 = Some (Normal tt, s2) /\
    outcome_of r s2 = Some (Resolved response) /\
    pendingMessages s2 !! messageId message = None /\
    handled s2 = handled s /\
    processOutputBuffer s2 = [] /\
    outcome_of r (timeout_elapses r s2) = Some (Resolved response).
Proof.
  intros Hsend Hbuf Hn Hparse Hid Hne Hc Hd.
  destruct (sendMessage_returns _ _ _ _ _ Hsend)
    as (_ & -> & Hraces & Hpending & _ & Hhandled).
  rewrite (processIpcMessage_message data payload response s1) by done.
  rewrite (processMessage_response response (messageId message)
             (length (responses s))) by (try done; cbn; by rewrite Hpending, lookup_insert_eq).
  eexists. split; [reflexivity|].
  assert (Hr : (race_settle (length (responses s)) (Resolved response) <$> races s1)
                 !! length (races s)
               = Some {| race_promise := length (responses s);
                         race_timeout :=
                           default DEFAULT_MESSAGE_TIMEOUT (overrideTimeout options);
                         race_error := timeout_error (messageId message);
                         race_outcome := Resolved response |}).
  { rewrite Hraces, list_lookup_fmap, lookup_app_r, Nat.sub_diag by done.
    cbn. unfold race_settle. cbn. by rewrite bool_decide_true. }
  repeat split.
  - unfold outcome_of. cbn. by rewrite Hr.
  - cbn. by rewrite lookup_delete_eq.
  - by cbn.
  - unfold outcome_of, timeout_elapses. cbn.
    rewrite list_lookup_alter, decide_True by done. by rewrite Hr.
Qed.

(** X3.  The empty id.  [processMessage] tests [message.messageId] for
    truthiness before it looks the id up, and the empty string is falsy: a
    request sent with the empty string as its [messageId] is registered, but a
    response that carries that id goes to the message handler, the promise of
    the request stays pending, the entry stays, and a second request with the
    empty id is refused as a duplicate. *)
Theorem empty_id_is_never_answered
  (message : MessageCommon) (options : IPCOptions) (s s1 : IPCService) (r : nat)
  (data payload : list byte) (response : JSON) :
  messageId message = [] ->
  sendMessage message options s = (Normal r, s1) ->
  processOutputBuffer s1 ++ data = frame payload ->
  N.of_nat (length payload) < 2 ^ 32 ->
  JSON_parse (Buffer_toString payload) = Some response ->
  prop response (js "messageId") = Some (JString []) ->
  prop_is response (js "command") (js "connected") = false ->
  prop_is response (js "command") (js "disconnected") = false ->
  let s2 := set_handled (handled s1 ++ [response]) (set_processOutputBuffer [] s1) in
  processIpcMessage data s1 = Some (Normal tt, s2) /\
  outcome_of r s2 = Some Pending /\
  is_Some (pendingMessages s2 !! []) /\
  sendMessage message options s2 = (Throw (duplicate_error []), s2).
Proof.
  intros Hempty Hsend Hbuf Hn Hparse Hid Hc Hd s2.
  destruct (sendMessage_returns _ _ _ _ _ Hsend)
    as (_ & -> & Hraces & Hpending & _ & _).
  rewrite Hempty in Hpending.
  assert (Hentry : is_Some (pendingMessages s2 !! [])).
  { cbn. rewrite Hpending, lookup_insert_eq. eauto. }
  repeat split.
  - rewrite (processIpcMessage_message data payload response s1) by done.
    rewrite processMessage_unsolicited; [done| |].
    + intros ->. discriminate.
    + by rewrite Hid.
  - unfold outcome_of. cbn.
    by rewrite Hraces, lookup_app_r, Nat.sub_diag.
  - done.
  - rewrite <- Hempty in Hentry |- *.
    unfold sendMessage. rewrite bind_eq. unfold gets at 1.
    by rewrite bool_decide_true.
Qed.

(** X4.  A message that answers nothing.  A frame whose message is not
    [null], is neither connection signal and has no [messageId] that is
    pending (none at all, one that is not a string, the empty string, or an
    id nobody waits for) is given to the message handler, once, and changes
    nothing else but the buffer, which is emptied. *)
Theorem unsolicited_message_reaches_the_handler
  (data payload : list byte) (message : JSON) (s : IPCService) :
  processOutputBuffer s ++ data = frame payload ->
  N.of_nat (length payload) < 2 ^ 32 ->
  JSON_parse (Buffer_toString payload) = Some message ->
  message <> JNull ->
  prop_is message (js "command") (js "connected") = false ->
  prop_is message (js "command") (js "disconnected") = false ->
  truthy (prop message (js "messageId"))
    && pending_has (prop message (js "messageId")) s = false ->
  processIpcMessage data s =
    Some (Normal tt,
          set_handled (handled s ++ [message]) (set_processOutputBuffer [] s)).
Proof.
  intros Hbuf Hn Hparse Hnull Hc Hd Hfree.
  rewrite (processIpcMessage_message data payload message s) by done.
  by rewrite processMessage_unsolicited.
Qed.

(** X5.  A frame that holds [null].  [message?.command] lets [null] pass,
    [message.messageId] does not: the frame is taken off the buffer and
    [processIpcMessage] throws a [TypeError] out of the data callback;
    nothing is resolved and the handler is not called. *)
Theorem null_frame_throws_TypeError
  (data payload : list byte) (s : IPCService) :
  processOutputBuffer s ++ data = frame payload ->
  N.of_nat (length payload) < 2 ^ 32 ->
  JSON_parse (Buffer_toString payload) = Some JNull ->
  processIpcMessage data s =
    Some (Throw TypeError, set_processOutputBuffer [] s).
Proof.
  intros Hbuf Hn Hparse.
  by rewrite (processIpcMessage_message data payload JNull s).
Qed.

(** X6.  A whole frame that is not JSON.  [JSON.parse] throws before the
    buffer is cut: the [SyntaxError] leaves the data callback, nothing is
    dispatched and the frame stays at the head of the buffer. *)
Theorem invalid_frame_throws_and_stays
  (data payload : list byte) (s : IPCService) :
  processOutputBuffer s ++ data = frame payload ->
  N.of_nat (length payload) < 2 ^ 32 ->
  JSON_parse (Buffer_toString payload) = None ->
  processIpcMessage data s =
    Some (Throw SyntaxError,
          set_processOutputBuffer (frame payload) s).
Proof.
  intros Hbuf Hn Hparse. unfold processIpcMessage. cbn zeta.
  rewrite Hbuf.
  set (s0 := set_processOutputBuffer (frame payload) s).
  cbn [processIpcMessage_loop].
  unfold processIpcMessage_turn. rewrite bind_eq. unfold gets at 1.
  replace (processOutputBuffer s0) with (frame payload) by done.
  rewrite length_frame.
  replace (4 + length payload <? 4)%nat with false
    by (symmetry; apply Nat.ltb_ge; lia).
  unfold frame at 1. rewrite readUInt32LE_uint32LE by done.
  replace (N.of_nat (length payload) + 4 <? N.of_nat (4 + length payload))
    with false by (symmetry; apply N.ltb_ge; lia).
  cbv zeta.
  replace (subarray (frame payload) 4 (N.to_nat (N.of_nat (length payload) + 4)))
    with payload.
  - by rewrite Hparse.
  - unfold subarray, frame.
    rewrite drop_app_length' by (by rewrite length_uint32LE).
    rewrite take_ge; [done|lia].
Qed.

End Frames.


Section OneAtATime.
Context `{Platform}.

(** What the dispatch of a message does to the buffer and to what the
    handler has seen. *)
Lemma processMessage_handled (message : JSON) (t t' : IPCService) (c : Completion unit) :
  processMessage message t = (c, t') ->
  handled t' = handled t \/ handled t' = handled t ++ [message].
Proof.
  unfold processMessage.
  destruct message; [by intros [= <- <-]; auto|..].
  all: remember (prop _ (js "messageId")) as id eqn:Hid; clear Hid.
  all: unfold Deferred_resolve, messageHandler; run_method.
  all: destruct (truthy id && pending_has id t); [|by intros [= <- <-]; auto].
  all: destruct (pending_get id t); intros [= <- <-]; left.
  all: by destruct id as [[]|].
Qed.

Lemma dispatch_handled (message : JSON) (t t' : IPCService) (c : Completion Turn) :
  processIpcMessage_dispatch message t = (c, t') ->
  processOutputBuffer t' = processOutputBuffer t /\
  (handled t' = handled t \/ handled t' = handled t ++ [message]).
Proof.
  unfold processIpcMessage_dispatch.
  destruct (prop_is message (js "command") (js "connected")).
  { run_method. cbn. rewrite foldl_Deferred_void_settle. intros [= <- <-]. by cbn; auto. }
  destruct (prop_is message (js "command") (js "disconnected")).
  { run_method. cbn. intros [= <- <-]. by cbn; auto. }
  rewrite bind_eq.
  destruct (processMessage message t) as [[[]|e] t1] eqn:Hp; intros [= <- <-].
  all: split; [by eapply processMessage_buffer|by eapply processMessage_handled].
Qed.

(** The three ways a turn of the loop ends. *)
Lemma turn_cases (s0 : IPCService) :
  processIpcMessage_turn s0 = (Normal Return, s0) \/
  (exists e, processIpcMessage_turn s0 = (Throw e, s0)) \/
  exists message,
    (4 <= length (processOutputBuffer s0))%nat /\
    processIpcMessage_turn s0
    = processIpcMessage_dispatch message (set_processOutputBuffer [] s0).
Proof.
  destruct (processIpcMessage_turn s0) as [c t] eqn:Hturn. revert Hturn.
  unfold processIpcMessage_turn. rewrite bind_eq. unfold gets at 1.
  destruct (length (processOutputBuffer s0) <? 4)%nat eqn:Hshort;
    [intros [= <- <-]; by left|].
  apply Nat.ltb_ge in Hshort.
  destruct (readUInt32LE _) as [msgLength|];
    [|intros [= <- <-]; right; left; by eexists].
  destruct (msgLength + 4 <? _) eqn:Hlong; [intros [= <- <-]; by left|].
  apply N.ltb_ge in Hlong.
  cbv zeta. destruct (JSON_parse _) as [message|];
    [|intros [= <- <-]; right; left; by eexists].
  rewrite bind_eq. unfold modify at 1.
  unfold subarray_from. rewrite drop_ge by lia.
  intros <-. right. right. by exists message.
Qed.

(** The three ways a data event ends: nothing is taken off the buffer (it
    is too short, or longer than its first frame, or its head is not JSON),
    or one message is parsed, the buffer is emptied and the message is
    dispatched. *)
Lemma processIpcMessage_cases (data : list byte) (s : IPCService) :
  let s0 := set_processOutputBuffer (processOutputBuffer s ++ data) s in
  processIpcMessage data s = Some (Normal tt, s0) \/
  (exists e, processIpcMessage data s = Some (Throw e, s0)) \/
  exists message,
    processIpcMessage data s =
      match processIpcMessage_dispatch message (set_processOutputBuffer [] s) with
      | (Normal _, s') => Some (Normal tt, s')
      | (Throw e, s') => Some (Throw e, s')
      end.
Proof.
  intros s0. unfold processIpcMessage. cbn zeta. fold s0.
  cbn [processIpcMessage_loop].
  destruct (turn_cases s0) as [->|[[e ->]|(message & Hlen & ->)]];
    [by left|right; left; by eexists|].
  right. right. exists message.
  change (set_processOutputBuffer [] s0) with (set_processOutputBuffer [] s).
  destruct (dispatch_continues message (set_processOutputBuffer [] s))
    as (s' & Hb & [Hd|[e Hd]]); rewrite Hd; [|done].
  destruct (length (processOutputBuffer s0)) as [|fuel]; [lia|].
  cbn [processIpcMessage_loop].
  rewrite turn_returns_on_short_buffer; [done|].
  rewrite Hb. cbn. lia.
Qed.

(** X7.  One message per data event, at most.  Whatever the buffer holds
    and whatever arrives, [processIpcMessage] ends, and it ends in one of two
    ways: it has dispatched nothing and the arrived bytes are appended to the
    buffer, or it has dispatched one message and the buffer is empty.  The
    message handler is called at most once. *)
Theorem data_event_dispatches_at_most_one_message
  (data : list byte) (s : IPCService) :
  exists c s',
    processIpcMessage data s = Some (c, s') /\
    (s' = set_processOutputBuffer (processOutputBuffer s ++ data) s \/
     processOutputBuffer s' = []) /\
    (handled s' = handled s \/ exists message, handled s' = handled s ++ [message]).
Proof.
  destruct (processIpcMessage_cases data s) as [Hr|[[e Hr]|[message Hr]]].
  - eexists _, _. split; [exact Hr|]. split; [by left|by left].
  - eexists _, _. split; [exact Hr|]. split; [by left|by left].
  - destruct (processIpcMessage_dispatch message (set_processOutputBuffer [] s))
      as [c t'] eqn:Hd.
    destruct (dispatch_handled _ _ _ _ Hd) as [Hb Hh].
    exists (match c with Normal _ => Normal tt | Throw e => Throw e end), t'.
    split; [rewrite Hr; by destruct c|].
    split; [by right|]. destruct Hh as [Hh|Hh]; [by left|right; by exists message].
Qed.

(** A data event on a buffer that already holds a whole frame and more. *)
Lemma step_wedged (data payload more : list byte) (s : IPCService) :
  processOutputBuffer s = frame payload ++ more ->
  N.of_nat (length payload) < 2 ^ 32 ->
  more <> [] ->
  step s (Stdout_data data)
  = set_processOutputBuffer (processOutputBuffer s ++ data) s.
Proof.
  intros Hbuf Hn Hmore. cbn [step].
  rewrite (processIpcMessage_keeps_longer_buffer data s payload (more ++ data));
    [done| |done|].
  - by rewrite Hbuf, (assoc_L (++)).
  - by destruct more.
Qed.

(** X8.  A buffer that holds more than its first frame never drains.  Once
    a whole frame is followed by at least one byte, every later data event
    only appends: no message is dispatched, no request is answered, no
    connection signal is seen, however much data arrives. *)
Theorem buffer_behind_a_frame_never_drains
  (datas : list (list byte)) (payload more : list byte) (s : IPCService) :
  processOutputBuffer s = frame payload ++ more ->
  N.of_nat (length payload) < 2 ^ 32 ->
  more <> [] ->
  run (Stdout_data <$> datas) s
  = set_processOutputBuffer (processOutputBuffer s ++ concat datas) s.
Proof.
  revert more s. induction datas as [|data datas IH]; intros more s Hbuf Hn Hmore.
  - cbn. rewrite app_nil_r. by destruct s.
  - change (run (Stdout_data <$> data :: datas) s)
      with (run (Stdout_data <$> datas) (step s (Stdout_data data))).
    rewrite (step_wedged data payload more) by done.
    rewrite (IH (more ++ data)); [| |done|].
    + cbn. by rewrite (assoc_L (++)).
    + cbn. by rewrite Hbuf, (assoc_L (++)).
    + by destruct more.
Qed.

(** Data events on a buffer that holds a whole frame and more. *)
Lemma run_wedged
  (datas : list (list byte)) (payload more : list byte) (s : IPCService) :
  processOutputBuffer s = frame payload ++ more ->
  N.of_nat (length payload) < 2 ^ 32 ->
  more <> [] ->
  run (Stdout_data <$> datas) s
  = set_processOutputBuffer (processOutputBuffer s ++ concat datas) s.
Proof.
  revert more s. induction datas as [|data datas IH]; intros more s Hbuf Hn Hmore.
  - cbn. rewrite app_nil_r. by destruct s.
  - change (run (Stdout_data <$> data :: datas) s)
      with (run (Stdout_data <$> datas) (step s (Stdout_data data))).
    rewrite (step_wedged data payload more) by done.
    rewrite (IH (more ++ data)); [| |done|].
    + cbn. by rewrite (assoc_L (++)).
    + cbn. by rewrite Hbuf, (assoc_L (++)).
    + by destruct more.
Qed.

(** C5.  The callers of [connect] that wait are not resolved together when
    the signal of the proxy does not come alone.  A frame that parses to a
    message with command "connected" resolves every waiting deferred and
    empties [awaitingConnection] when it is all that arrives; when the same
    frame arrives with at least one more byte behind it in the same chunk,
    the guard of [processIpcMessage] returns before the frame is read:
    the state of the connection, [awaitingConnection] and every deferred are as
    before, and they stay so through every data event that follows, since the
    buffer only grows.  No caller is ever resolved. *)
Theorem connected_signal_with_more_data_resolves_nobody
  (payload more : list byte) (message : JSON) (datas : list (list byte))
  (s : IPCService) :
  processOutputBuffer s = [] ->
  N.of_nat (length payload) < 2 ^ 32 ->
  JSON_parse (Buffer_toString payload) = Some message ->
  prop_is message (js "command") (js "connected") = true ->
  more <> [] ->
  (exists s1,
     processIpcMessage (frame payload) s = Some (Normal tt, s1) /\
     connectionState s1 = Connected /\
     awaitingConnection s1 = [] /\
     forall d, d ∈ awaitingConnection s ->
       connections s !! d = Some Pending ->
       connections s1 !! d = Some (Resolved tt)) /\
  run (Stdout_data <$> (frame payload ++ more) :: datas) s
  = set_processOutputBuffer (frame payload ++ more ++ concat datas) s.
Proof.
  intros Hempty Hn Hparse Hconnected Hmore. split.
  - rewrite (processIpcMessage_decodes (frame payload) s _ payload message)
      by (try done; by rewrite Hempty).
    rewrite dispatch_connected by done.
    eexists. split; [reflexivity|]. cbn. repeat split.
    intros d Hin Hpending. by apply lookup_foldl_settle.
  - change (run (Stdout_data <$> (frame payload ++ more) :: datas) s)
      with (run (Stdout_data <$> datas)
              (step s (Stdout_data (frame payload ++ more)))).
    assert (Hstep : step s (Stdout_data (frame payload ++ more))
                    = set_processOutputBuffer (frame payload ++ more) s).
    { cbn [step].
      rewrite (processIpcMessage_keeps_longer_buffer _ s payload more)
        by (try done; by rewrite Hempty).
      by rewrite Hempty. }
    rewrite Hstep, (run_wedged datas payload more) by done.
    cbn. by rewrite <- (assoc_L (++)).
Qed.

End OneAtATime.

Section Invariant.
Context `{Platform}.

Lemma coherent_fields (s t : IPCService) :
  pendingMessages t = pendingMessages s -> responses t = responses s ->
  awaitingConnection t = awaitingConnection s -> connections t = connections s ->
  coherent s -> coherent t.
Proof.
  unfold coherent, pending_unresolved, pending_distinct, waiters_unsettled.
  by intros -> -> -> ->.
Qed.

Lemma coherent_connect (s : IPCService) : coherent s -> coherent (connect s).2.
Proof.
  intros (Hu & Hd & Hw). unfold connect, _connect. run_method. cbn.
  destruct (connectionState s) eqn:Hstate; cbn; rewrite ?Hstate; cbn; [| |done];
    (split; [exact Hu|split; [exact Hd|]]);
    intros d [Hin| ->%list_elem_of_singleton]%elem_of_app; cbn;
    try (rewrite lookup_app_l; [by apply Hw|]; by eapply lookup_lt_Some, Hw);
    by rewrite lookup_app_r, Nat.sub_diag.
Qed.

Lemma coherent_sendMessage
  (message : MessageCommon) (options : IPCOptions) (s : IPCService) :
  coherent s -> coherent (sendMessage message options s).2.
Proof.
  intros (Hu & Hd & Hw).
  assert (Hnew : coherent
    (set_pendingMessages (<[messageId message := length (responses s)]> (pendingMessages s))
       (set_responses (responses s ++ [Pending]) s))).
  { unfold coherent, pending_unresolved, pending_distinct, waiters_unsettled.
    cbn. repeat split.
    - intros id d [[<- <-]|[Hne Hl]]%lookup_insert_Some.
      + by rewrite lookup_app_r, Nat.sub_diag.
      + rewrite lookup_app_l; [by eapply Hu|]. by eapply lookup_lt_Some, Hu.
    - intros id1 id2 d [[<- <-]|[Hne1 Hl1]]%lookup_insert_Some
        [[<- Hd2]|[Hne2 Hl2]]%lookup_insert_Some; try done.
      + apply Hu, lookup_lt_Some in Hl2. lia.
      + apply Hu, lookup_lt_Some in Hl1. lia.
      + by eapply Hd.
    - done. }
  unfold sendMessage. rewrite bind_eq. unfold gets at 1.
  case_bool_decide; [done|].
  rewrite bind_eq. unfold new_Deferred at 1.
  rewrite bind_eq. unfold modify at 1.
  rewrite bind_eq. unfold sendIpcMessage.
  destruct (writeUInt32LE _ _ _) as [buffer|]; [|exact Hnew].
  unfold stdin_write, modify, try_catch, race. cbn.
  destruct (process s); cbn; by eapply coherent_fields, Hnew.
Qed.

Lemma coherent_processMessage (message : JSON) (t : IPCService) :
  coherent t -> coherent (processMessage message t).2.
Proof.
  intros (Hu & Hd & Hw). unfold processMessage.
  destruct message; [done|..].
  all: remember (prop _ (js "messageId")) as id eqn:Hid; clear Hid.
  all: unfold Deferred_resolve, messageHandler; run_method.
  all: destruct (truthy id && pending_has id t); [|done].
  all: destruct (pending_get id t) as [d|] eqn:Hget; [|done].
  all: destruct id as [[| | |id| |]|]; try discriminate; cbn in Hget.
  all: unfold coherent, pending_unresolved, pending_distinct, waiters_unsettled.
  all: cbn; repeat split; [| |done].
  all: try (intros id' d' [Hne Hl]%lookup_delete_Some;
            rewrite list_lookup_alter_ne; [by eapply Hu|];
            intros ->; apply Hne; by eapply Hd).
  all: intros id1 id2 d' [_ Hl1]%lookup_delete_Some [_ Hl2]%lookup_delete_Some;
    by eapply Hd.
Qed.

Lemma coherent_dispatch (message : JSON) (t t' : IPCService) (c : Completion Turn) :
  processIpcMessage_dispatch message t = (c, t') -> coherent t -> coherent t'.
Proof.
  intros Hdisp Ht. pose proof Ht as (Hu & Hd & Hw).
  revert Hdisp. unfold processIpcMessage_dispatch.
  destruct (prop_is message (js "command") (js "connected")).
  { run_method. cbn. rewrite foldl_Deferred_void_settle. intros [= <- <-].
    split; [exact Hu|split; [exact Hd|]].
    intros d Hin. cbn in Hin. by apply elem_of_nil in Hin. }
  destruct (prop_is message (js "command") (js "disconnected")).
  { run_method. cbn. intros [= <- <-]. done. }
  rewrite bind_eq.
  pose proof (coherent_processMessage message t Ht) as Hp.
  destruct (processMessage message t) as [[[]|e] t1]; intros [= <- <-]; exact Hp.
Qed.

Lemma coherent_step (e : Event) (s : IPCService) : coherent s -> coherent (step s e).
Proof.
  intros Hs. destruct e as [|message options| |data|error| |r]; cbn [step].
  - by apply coherent_connect.
  - by apply coherent_sendMessage.
  - done.
  - assert (Hs0 : forall b, coherent (set_processOutputBuffer b s)) by done.
    destruct (processIpcMessage_cases data s) as [->|[[e ->]|[message ->]]];
      try apply Hs0.
    destruct (processIpcMessage_dispatch message (set_processOutputBuffer [] s))
      as [[x|e] t'] eqn:Hd; eapply coherent_dispatch; eauto.
  - destruct Hs as (Hu & Hd & Hw). unfold on_process_error.
    rewrite foldl_Deferred_void_settle. repeat split; try done.
    intros d Hin. cbn in Hin. by apply elem_of_nil in Hin.
  - done.
  - done.
Qed.

(** X9.  What holds in every state the service can reach.  After any
    sequence of calls of [connect], [sendMessage] and [disconnect], of data,
    "error" and "exit" events of the child and of timers, from a new service:
    every id in [pendingMessages] names a deferred that is still unsettled,
    two ids never share a deferred, and every caller in [awaitingConnection]
    waits on a promise that is still unsettled.  So a response can only ever
    settle the request it names, and it settles it once. *)
Theorem reachable_states_are_coherent (events : list Event) :
  pending_unresolved (run events initial) /\
  pending_distinct (run events initial) /\
  waiters_unsettled (run events initial).
Proof.
  change (coherent (run events initial)).
  assert (Hinit : coherent initial).
  { repeat split.
    - intros id d Hl. cbn in Hl. by rewrite lookup_empty in Hl.
    - intros id1 id2 d Hl. cbn in Hl. by rewrite lookup_empty in Hl.
    - intros d Hin. by apply elem_of_nil in Hin. }
  revert Hinit. generalize initial. unfold run.
  induction events as [|e events IH]; intros s Hs; [done|].
  cbn. by apply IH, coherent_step.
Qed.

End Invariant.


(** [buf.write] stores a prefix of the UTF-8 bytes of the string. *)
Lemma utf8_fit_prefix (chars : list (list byte)) (room : nat) :
  utf8_fit chars room = take (length (utf8_fit chars room)) (concat chars).
Proof.
  revert room. induction chars as [|c chars IH]; intros room; cbn; [done|].
  destruct (length c <=? room)%nat; [|done].
  rewrite length_app, take_app_add. by rewrite <- IH.
Qed.

(** [buf.write] stores whole characters, and as many of them as fit: the
    first [j] characters of the string, where the next one, if there is one,
    would not fit any more. *)
Lemma utf8_fit_whole_characters (chars : list (list byte)) (room : nat) :
  exists j,
    utf8_fit chars room = concat (take j chars) /\
    (j < length chars -> room < length (concat (take (S j) chars)))%nat.
Proof.
  revert room. induction chars as [|c chars IH]; intros room.
  { exists 0%nat. split; [done|]. cbn. lia. }
  cbn [utf8_fit]. destruct (length c <=? room)%nat eqn:Hfits.
  - apply Nat.leb_le in Hfits.
    destruct (IH (room - length c)%nat) as (j & Hj & Hnext).
    exists (S j). split.
    + cbn. by rewrite Hj.
    + intros Hlt. cbn [length] in Hlt.
      assert (Hj' : (j < length chars)%nat) by lia.
      specialize (Hnext Hj').
      change (take (S (S j)) (c :: chars)) with (c :: take (S j) chars).
      cbn [concat]. rewrite length_app. lia.
  - apply Nat.leb_gt in Hfits. exists 0%nat. split; [done|].
    intros _. cbn. rewrite app_nil_r. lia.
Qed.

Section Lifecycle.
Context `{Platform}.

(** X10.  What is written is always a well-formed frame.  Whatever the
    text of the message, [sendIpcMessage] writes a length prefix followed by
    exactly as many bytes as the prefix says, one per code unit of the text.
    Those bytes are the UTF-8 bytes of the first [j] characters of the text,
    whole, as many characters as fit (the next one, if any, would pass the
    announced length), and zero bytes up to the announced length.  The reader
    is therefore never put out of step by a message; at worst the payload it
    gets is cut short, at a character boundary. *)
Theorem written_frame_has_the_announced_length
  (message : MessageCommon) (s : IPCService) (p : nat) :
  process s = Some p ->
  N.of_nat (length (JSON_stringify message)) < 2 ^ 32 ->
  exists body j,
    let text := JSON_stringify message in
    let whole := concat (take j (utf8_chars text)) in
    sendIpcMessage message s =
      (Normal tt,
       set_children (alter (fun sent => sent ++ [frame body]) p (children s)) s) /\
    length body = length text /\
    body = whole ++ replicate (length text - length whole) Byte.x00 /\
    (length whole <= length text)%nat /\
    whole = take (length whole) (utf8 text) /\
    (j < length (utf8_chars text) ->
     length text < length (concat (take (S j) (utf8_chars text))))%nat.
Proof.
  intros Hp Hn.
  set (str := JSON_stringify message).
  set (fit := utf8_fit (utf8_chars str) (length str)).
  pose proof (utf8_fit_length (utf8_chars str) (length str)) as Hfit. fold fit in Hfit.
  pose proof (utf8_fit_prefix (utf8_chars str) (length str)) as Hprefix.
  fold fit in Hprefix.
  destruct (utf8_fit_whole_characters (utf8_chars str) (length str))
    as (j & Hj & Hnext).
  fold fit in Hj.
  exists (fit ++ replicate (length str - length fit) Byte.x00), j.
  cbv zeta. fold str. rewrite <- Hj.
  assert (Hbody : length (fit ++ replicate (length str - length fit) Byte.x00)
                  = length str).
  { rewrite length_app, length_replicate. lia. }
  split; [|split; [done|split; [done|split; [done|split; [done|done]]]]].
  rewrite (sendIpcMessage_writes message s p Hp Hn). cbv zeta.
  unfold frame. by rewrite Hbody.
Qed.

(** X11.  [sendMessage] does not look at the connection state.  In every
    state, connected or not, it does the same: the request is registered,
    written to the stdin of the child (if there is a child object at all) and
    raced against its timer.  A request on a disconnected service is not
    refused; only its timer can end it. *)
Theorem sendMessage_ignores_connectionState
  (message : MessageCommon) (options : IPCOptions) (state : IPCConnectionState)
  (s : IPCService) :
  sendMessage message options (set_connectionState state s) =
  ((sendMessage message options s).1,
   set_connectionState state (sendMessage message options s).2).
Proof.
  unfold sendMessage, new_Deferred, sendIpcMessage, stdin_write, race.
  run_method.
  cbn -[writeUInt32LE Buffer_alloc Buffer_write duplicate_error timeout_error].
  case_bool_decide; [done|].
  destruct (writeUInt32LE _ _ _) as [buffer|]; [|done].
  cbn -[Buffer_write timeout_error].
  by destruct (process s).
Qed.

(** X12.  A request on a service that has no child.  Before the first
    [connect], [this.process] is undefined and [this.process?.stdin.write]
    does nothing: [sendMessage] returns a promise all the same, the request
    is left in [pendingMessages], and no byte is written anywhere. *)
Theorem request_without_a_process_is_dropped
  (message : MessageCommon) (options : IPCOptions) (s : IPCService) :
  process s = None ->
  pendingMessages s !! messageId message = None ->
  N.of_nat (length (JSON_stringify message)) < 2 ^ 32 ->
  exists s1,
    sendMessage message options s = (Normal (length (races s)), s1) /\
    children s1 = children s /\
    is_Some (pendingMessages s1 !! messageId message) /\
    outcome_of (length (races s)) s1 = Some Pending /\
    connectionState s1 = connectionState s.
Proof.
  intros Hp Hfree Hn. unfold sendMessage. rewrite bind_eq. unfold gets at 1.
  rewrite bool_decide_false by (rewrite Hfree; by intros [? ?]).
  rewrite bind_eq. unfold new_Deferred at 1.
  rewrite bind_eq. unfold modify at 1.
  rewrite bind_eq. unfold sendIpcMessage, writeUInt32LE.
  replace (_ <? 2 ^ 32) with true by (symmetry; by apply N.ltb_lt).
  replace (0 + 4 <=? _)%nat with true
    by (symmetry; apply Nat.leb_le; unfold Buffer_alloc;
        rewrite length_replicate; lia).
  cbn [andb]. unfold stdin_write, modify, try_catch, race. cbn.
  rewrite Hp. cbn. eexists. split; [reflexivity|]. cbn.
  rewrite lookup_insert_eq. unfold outcome_of. cbn.
  rewrite !lookup_app_r, !Nat.sub_diag by done. cbn. eauto.
Qed.

(** X13.  An "error" of the child does not reset the state.  The error
    handler rejects the callers that wait and clears the set, but leaves
    [connectionState] as it is: while the service is connecting, a call of
    [connect] after the error starts no new child and is not rejected; its
    promise is the only one that waits. *)
Theorem error_leaves_the_service_connecting (error : Error) (s : IPCService) :
  connectionState s = Connecting ->
  exists s1,
    connect (on_process_error error s)
    = (Normal (Some (length (connections s))), s1) /\
    connectionState s1 = Connecting /\
    children s1 = children s /\ process s1 = process s /\
    awaitingConnection s1 = [length (connections s)] /\
    connections s1 !! length (connections s) = Some Pending.
Proof.
  intros Hstate. unfold on_process_error.
  rewrite foldl_Deferred_void_settle.
  assert (Hlen : forall waiting (c : list (Settled unit)),
            length (foldl (fun c d => alter (settle (Rejected error)) d c) c waiting)
            = length c).
  { induction waiting as [|d waiting IH]; intros c; cbn; [done|].
    by rewrite IH, length_alter. }
  unfold connect, _connect. run_method. cbn. rewrite Hstate. cbn.
  rewrite Hstate, Hlen. eexists. split; [reflexivity|]. cbn.
  repeat split; try done.
  by rewrite lookup_app_r, Hlen, Nat.sub_diag by (by rewrite Hlen).
Qed.

(** X14.  The "disconnected" signal leaves the child running.  After the
    proxy has sent [{command: "disconnected"}] the state is [Disconnected]
    while the child is still there, so [disconnect] kills nothing; the next
    [connect] spawns a second child and takes its place in [this.process]. *)
Theorem disconnected_signal_leaves_the_child_running
  (data payload : list byte) (message : JSON) (s : IPCService) :
  processOutputBuffer s ++ data = frame payload ->
  N.of_nat (length payload) < 2 ^ 32 ->
  JSON_parse (Buffer_toString payload) = Some message ->
  prop_is message (js "command") (js "disconnected") = true ->
  exists s1 s2,
    processIpcMessage data s = Some (Normal tt, s1) /\
    process s1 = process s /\
    disconnect s1 = None /\
    connect s1 = (Normal (Some (length (connections s))), s2) /\
    children s2 = children s ++ [[]] /\
    process s2 = Some (length (children s)).
Proof.
  intros Hbuf Hn Hparse Hd.
  rewrite (processIpcMessage_decodes data s _ payload message Hbuf Hn) by done.
  unfold processIpcMessage_dispatch.
  rewrite (prop_is_disconnected_not_connected _ Hd), Hd.
  run_method. cbn. eexists _, _. split; [reflexivity|].
  unfold disconnect, connect, _connect. run_method. cbn. done.
Qed.

End Lifecycle.


(** ** The properties above on the runs *)


Lemma response_settles_request_witness :
  exists s2,
    processIpcMessage (H := Node.platform) (frame Scenario.response_m1)
      Scenario.awaiting_m1 = Some (Normal tt, s2) /\
    outcome_of 0 s2 = Some (Resolved Runs.parsed_response_m1) /\
    pendingMessages s2 !! js "m1" = None /\
    handled s2 = handled Scenario.connected /\
    processOutputBuffer s2 = [] /\
    outcome_of 0 (timeout_elapses 0 s2) = Some (Resolved Runs.parsed_response_m1).
Proof.
  apply (response_settles_request (H := Node.platform) Scenario.m1
           Scenario.short_timeout Scenario.connected Scenario.awaiting_m1 0
           (frame Scenario.response_m1) Scenario.response_m1
           Runs.parsed_response_m1).
  - exact (proj2 (proj2 scenario_reached)).
  - reflexivity.
  - vm_compute. reflexivity.
  - vm_compute. reflexivity.
  - vm_compute. reflexivity.
  - discriminate.
  - vm_compute. reflexivity.
  - vm_compute. reflexivity.
Defined.

Lemma empty_id_is_never_answered_witness :
  let s2 :=
    set_handled (handled Runs.awaiting_anonymous ++ [Runs.parsed_anonymous])
      (set_processOutputBuffer [] Runs.awaiting_anonymous) in
  processIpcMessage (H := Node.platform) (frame Runs.response_anonymous)
    Runs.awaiting_anonymous = Some (Normal tt, s2) /\
  outcome_of 0 s2 = Some Pending /\
  is_Some (pendingMessages s2 !! []) /\
  sendMessage (H := Node.platform) Runs.anonymous Scenario.short_timeout s2
  = (Throw (duplicate_error []), s2).
Proof.
  apply (empty_id_is_never_answered (H := Node.platform) Runs.anonymous
           Scenario.short_timeout Scenario.connected Runs.awaiting_anonymous 0
           (frame Runs.response_anonymous) Runs.response_anonymous
           Runs.parsed_anonymous).
  - reflexivity.
  - vm_compute. reflexivity.
  - reflexivity.
  - vm_compute. reflexivity.
  - vm_compute. reflexivity.
  - vm_compute. reflexivity.
  - vm_compute. reflexivity.
  - vm_compute. reflexivity.
Defined.

Lemma unsolicited_message_reaches_the_handler_witness :
  processIpcMessage (H := Node.platform) (frame Runs.locked_notice)
    Scenario.awaiting_m1
  = Some (Normal tt,
          set_handled (handled Scenario.awaiting_m1 ++ [Runs.parsed_locked_notice])
            (set_processOutputBuffer [] Scenario.awaiting_m1)).
Proof.
  apply (unsolicited_message_reaches_the_handler (H := Node.platform)
           (frame Runs.locked_notice) Runs.locked_notice
           Runs.parsed_locked_notice Scenario.awaiting_m1).
  - reflexivity.
  - vm_compute. reflexivity.
  - vm_compute. reflexivity.
  - discriminate.
  - vm_compute. reflexivity.
  - vm_compute. reflexivity.
  - vm_compute. reflexivity.
Defined.

Lemma null_frame_throws_TypeError_witness :
  processIpcMessage (H := Node.platform) (frame Runs.null_text)
    Scenario.awaiting_m1
  = Some (Throw TypeError, set_processOutputBuffer [] Scenario.awaiting_m1).
Proof.
  apply (null_frame_throws_TypeError (H := Node.platform)
           (frame Runs.null_text) Runs.null_text Scenario.awaiting_m1).
  - reflexivity.
  - vm_compute. reflexivity.
  - vm_compute. reflexivity.
Defined.

Lemma invalid_frame_throws_and_stays_witness :
  processIpcMessage (H := Node.platform) (frame Runs.not_json)
    Scenario.awaiting_m1
  = Some (Throw SyntaxError,
          set_processOutputBuffer (frame Runs.not_json) Scenario.awaiting_m1).
Proof.
  apply (invalid_frame_throws_and_stays (H := Node.platform)
           (frame Runs.not_json) Runs.not_json Scenario.awaiting_m1).
  - reflexivity.
  - vm_compute. reflexivity.
  - vm_compute. reflexivity.
Defined.

Lemma buffer_behind_a_frame_never_drains_witness :
  run (H := Node.platform)
    (Stdout_data <$> [drop 1 (frame Scenario.response_m1);
                      frame Scenario.response_m1]) Runs.wedged
  = set_processOutputBuffer
      (processOutputBuffer Runs.wedged
       ++ concat [drop 1 (frame Scenario.response_m1); frame Scenario.response_m1])
      Runs.wedged.
Proof.
  apply (buffer_behind_a_frame_never_drains (H := Node.platform)
           [drop 1 (frame Scenario.response_m1); frame Scenario.response_m1]
           Scenario.response_m1 (take 1 (frame Scenario.response_m1))
           Runs.wedged).
  - reflexivity.
  - vm_compute. reflexivity.
  - discriminate.
Defined.

Lemma written_frame_has_the_announced_length_witness :
  exists body j,
    let text := Node.JSON_stringify Scenario.accented in
    let whole := concat (take j (utf8_chars text)) in
    sendIpcMessage (H := Node.platform) Scenario.accented Scenario.connected =
      (Normal tt,
       set_children
         (alter (fun sent => sent ++ [frame body]) 0%nat
            (children Scenario.connected)) Scenario.connected) /\
    length body = length text /\
    body = whole ++ replicate (length text - length whole) Byte.x00 /\
    (length whole <= length text)%nat /\
    whole = take (length whole) (utf8 text) /\
    (j < length (utf8_chars text) ->
     length text < length (concat (take (S j) (utf8_chars text))))%nat.
Proof.
  apply (written_frame_has_the_announced_length (H := Node.platform)
           Scenario.accented Scenario.connected 0).
  - reflexivity.
  - vm_compute. reflexivity.
Defined.

(** On the run, for the text of [Scenario.accented], seventeen code units
    and eighteen bytes: sixteen characters are written whole, in seventeen
    bytes; the closing brace is the one that does not fit. *)
Lemma accented_is_cut_at_a_character :
  let text := Node.JSON_stringify Scenario.accented in
  length text = 17%nat /\
  length (utf8_chars text) = 17%nat /\
  utf8_fit (utf8_chars text) (length text) = concat (take 16 (utf8_chars text)) /\
  length (concat (take 16 (utf8_chars text))) = 17%nat /\
  length (concat (take 17 (utf8_chars text))) = 18%nat.
Proof. vm_compute. done. Qed.

Lemma request_without_a_process_is_dropped_witness :
  exists s1,
    sendMessage (H := Node.platform) Scenario.m1 Scenario.short_timeout initial
    = (Normal (length (races initial)), s1) /\
    children s1 = children initial /\
    is_Some (pendingMessages s1 !! js "m1") /\
    outcome_of (length (races initial)) s1 = Some Pending /\
    connectionState s1 = connectionState initial.
Proof.
  apply (request_without_a_process_is_dropped (H := Node.platform)
           Scenario.m1 Scenario.short_timeout initial).
  - reflexivity.
  - reflexivity.
  - vm_compute. reflexivity.
Defined.

Lemma error_leaves_the_service_connecting_witness :
  exists s1,
    connect (on_process_error (SpawnError (js "ENOENT")) Scenario.connecting)
    = (Normal (Some (length (connections Scenario.connecting))), s1) /\
    connectionState s1 = Connecting /\
    children s1 = children Scenario.connecting /\
    process s1 = process Scenario.connecting /\
    awaitingConnection s1 = [length (connections Scenario.connecting)] /\
    connections s1 !! length (connections Scenario.connecting) = Some Pending.
Proof.
  apply (error_leaves_the_service_connecting
           (SpawnError (js "ENOENT")) Scenario.connecting).
  reflexivity.
Defined.

Lemma disconnected_signal_leaves_the_child_running_witness :
  exists s1 s2,
    processIpcMessage (H := Node.platform) (frame Scenario.disconnected_signal)
      Scenario.awaiting_m1 = Some (Normal tt, s1) /\
    process s1 = process Scenario.awaiting_m1 /\
    disconnect s1 = None /\
    connect s1 = (Normal (Some (length (connections Scenario.awaiting_m1))), s2) /\
    children s2 = children Scenario.awaiting_m1 ++ [[]] /\
    process s2 = Some (length (children Scenario.awaiting_m1)).
Proof.
  apply (disconnected_signal_leaves_the_child_running (H := Node.platform)
           (frame Scenario.disconnected_signal) Scenario.disconnected_signal
           Runs.parsed_disconnected Scenario.awaiting_m1).
  - reflexivity.
  - vm_compute. reflexivity.
  - vm_compute. reflexivity.
  - vm_compute. reflexivity.
Defined.

(** On the run, with two callers waiting: the signal alone, and the signal
    with a response behind it in the same chunk, followed by a second chunk. *)
Lemma connected_signal_with_more_data_resolves_nobody_witness :
  (exists s1,
     processIpcMessage (H := Node.platform) (frame Scenario.connected_signal)
       Runs.two_waiting = Some (Normal tt, s1) /\
     connectionState s1 = Connected /\
     awaitingConnection s1 = [] /\
     forall d, d ∈ awaitingConnection Runs.two_waiting ->
       connections Runs.two_waiting !! d = Some Pending ->
       connections s1 !! d = Some (Resolved tt)) /\
  run (H := Node.platform)
    (Stdout_data <$> (frame Scenario.connected_signal ++ frame Scenario.response_m1)
                     :: [frame Scenario.response_m1]) Runs.two_waiting
  = set_processOutputBuffer
      (frame Scenario.connected_signal ++ frame Scenario.response_m1
       ++ concat [frame Scenario.response_m1]) Runs.two_waiting.
Proof.
  apply (connected_signal_with_more_data_resolves_nobody (H := Node.platform)
           Scenario.connected_signal (frame Scenario.response_m1)
           Runs.parsed_connected [frame Scenario.response_m1] Runs.two_waiting).
  - reflexivity.
  - vm_compute. reflexivity.
  - vm_compute. reflexivity.
  - vm_compute. reflexivity.
  - discriminate.
Defined.

(** The two callers on the run: both are resolved by the signal alone; with
    a response behind the signal both still wait and the service is still
    [Connecting]. *)
Lemma two_callers_on_the_run :
  (connect Scenario.connecting = (Normal (Some 1%nat), Runs.two_waiting)) /\
  (exists s1,
     processIpcMessage (H := Node.platform) (frame Scenario.connected_signal)
       Runs.two_waiting = Some (Normal tt, s1) /\
     connectionState s1 = Connected /\
     connections s1 = [Resolved tt; Resolved tt]) /\
  (exists s2,
     processIpcMessage (H := Node.platform)
       (frame Scenario.connected_signal ++ frame Scenario.response_m1)
       Runs.two_waiting = Some (Normal tt, s2) /\
     connectionState s2 = Connecting /\
     awaitingConnection s2 = [0%nat; 1%nat] /\
     connections s2 = [Pending; Pending]).
Proof.
  split; [reflexivity|]. split; eexists; (split; [vm_compute; reflexivity|]); done.
Qed.

End IPCMore.

(** * Further properties of the session broker *)

Module Fido2More.
Import Fido2 Fido2Theory.
Local Open Scope string_scope.

(** ** The session id is never changed *)

Lemma destroy_next_sessionId (s : Session) : sessionId (destroy_next s) = sessionId s.
Proof.
  unfold destroy_next. destruct (stopped s); [done|].
  by destruct (destroy_fold_frame (subscriptions s) (emit DestroyNext s))
    as (_ & _ & _ & _ & _ & -> & _).
Qed.

Lemma close_sessionId (s : Session) : sessionId (close s) = sessionId s.
Proof. unfold close. cbn -[destroy_next]. by rewrite destroy_next_sessionId. Qed.

Lemma on_abort_event_sessionId (s : Session) (entry : nat * Subscription) :
  sessionId (on_abort_event s entry) = sessionId s.
Proof.
  unfold on_abort_event. destruct (live _ s); [|done].
  destruct entry.2; try done. cbn -[close]. by rewrite close_sessionId.
Qed.

Lemma abortController_abort_sessionId (reason : Error) (s : Session) :
  sessionId (abortController_abort reason s) = sessionId s.
Proof.
  unfold abortController_abort. destruct (signal s); [done|].
  assert (Hfold : forall l t, sessionId (foldl on_abort_event t l) = sessionId t).
  { induction l as [|e l IH]; intros t; cbn; [done|].
    by rewrite IH, on_abort_event_sessionId. }
  by rewrite Hfold.
Qed.

Lemma connected_next_sessionId (value : bool) (s : Session) :
  sessionId (connected_next value s) = sessionId s.
Proof.
  unfold connected_next. cbv zeta. destruct value; [|done].
  assert (Hfold : forall l t, sessionId (foldl on_connected t l) = sessionId t).
  { induction l as [|e l IH]; intros t; cbn; [done|].
    rewrite IH. unfold on_connected. destruct (live _ t); [|done].
    by destruct e.2. }
  by rewrite Hfold.
Qed.

(** ** A message that passes the filter of the session *)

(** What a listener of the bus does with a message of its own session: the
    tests on the session id are passed. *)
Lemma on_message_own
  (msg : BrowserFido2Message) (s : Session) (entry : nat * Subscription) :
  msg_sessionId msg = sessionId s ->
  on_message msg s entry =
  if live entry.1 s then
    match entry.2 with
    | ConnectResponseSub =>
        if bool_decide (type msg = "ConnectResponse")
        then unsubscribe entry.1 (connected_next true s) else s
    | AbortResponseSub =>
        match body msg with
        | AbortResponse fallbackRequested =>
            unsubscribe entry.1 (abort fallbackRequested (close s))
        | _ => s
        end
    | ReceiveSub awaited p =>
        if bool_decide (type msg = awaited)
        then unsubscribe entry.1 (settle_promise p (Resolved (Response msg)) s)
        else s
    | _ => s
    end
  else s.
Proof.
  intros Hown. unfold on_message, messages, only. cbv beta.
  rewrite (bool_decide_true _ Hown). cbn [mbind option_bind].
  destruct (live _ s); [|done].
  destruct entry.2 as [| | |awaited p| |]; try done.
  - by destruct (bool_decide _).
  - destruct msg as [sid []]; done.
  - rewrite (bool_decide_true _ Hown). by destruct (bool_decide _).
Qed.

Lemma on_message_sessionId
  (msg : BrowserFido2Message) (s : Session) (entry : nat * Subscription) :
  sessionId (on_message msg s entry) = sessionId s.
Proof.
  unfold on_message. destruct (live _ s); [|done].
  destruct entry.2 as [| | |awaited p| |]; try done.
  - destruct (_ ≫= _); [|done]. cbn -[connected_next].
    by rewrite connected_next_sessionId.
  - destruct (_ ≫= _) as [[sid []]|]; try done. cbn -[abort close].
    unfold abort. by rewrite abortController_abort_sessionId, close_sessionId.
  - by destruct (_ ≫= _).
Qed.

(** The listeners of the bus on a message of their own session. *)
Lemma notify_own (msg : BrowserFido2Message) (s : Session) :
  msg_sessionId msg = sessionId s ->
  notify msg s =
  foldl
    (fun s entry =>
       if live entry.1 s then
         match entry.2 with
         | ConnectResponseSub =>
             if bool_decide (type msg = "ConnectResponse")
             then unsubscribe entry.1 (connected_next true s) else s
         | AbortResponseSub =>
             match body msg with
             | AbortResponse fallbackRequested =>
                 unsubscribe entry.1 (abort fallbackRequested (close s))
             | _ => s
             end
         | ReceiveSub awaited p =>
             if bool_decide (type msg = awaited)
             then unsubscribe entry.1 (settle_promise p (Resolved (Response msg)) s)
             else s
         | _ => s
         end
       else s)
    s (subscriptions s).
Proof.
  unfold notify. generalize (subscriptions s) as l. intros l. revert s.
  induction l as [|entry l IH]; intros s Hown; [done|].
  cbn [foldl]. rewrite <- (on_message_own msg s entry Hown).
  apply IH. by rewrite on_message_sessionId.
Qed.


(** A message of the session's own arrives. *)
Lemma deliver_own (msg : BrowserFido2Message) (s : Session) :
  msg_sessionId msg = sessionId s ->
  deliver msg s =
  run_tasks
    (foldl
       (fun s entry =>
          if live entry.1 s then
            match entry.2 with
            | ConnectResponseSub =>
                if bool_decide (type msg = "ConnectResponse")
                then unsubscribe entry.1 (connected_next true s) else s
            | AbortResponseSub =>
                match body msg with
                | AbortResponse fallbackRequested =>
                    unsubscribe entry.1 (abort fallbackRequested (close s))
                | _ => s
                end
            | ReceiveSub awaited p =>
                if bool_decide (type msg = awaited)
                then unsubscribe entry.1
                       (settle_promise p (Resolved (Response msg)) s)
                else s
            | _ => s
            end
          else s)
       s (subscriptions s)).
Proof. intros Hown. unfold deliver. by rewrite notify_own. Qed.

(** ** Ceremonies *)

Section Ceremony.
Variables (fallback : bool) (id : string).
Variables (status : AuthenticationStatus) (popout : Popout).

(** Connect on demand: the first operation of a session asks for the auth
    status, opens the popout and, when the popout has announced itself,
    broadcasts its request and awaits the response. *)
Lemma connected_to_request (data : Body) (awaited : string) :
  Ceremonies.connected_to fallback id (request data awaited) status popout
  = Ceremonies.awaiting fallback id data awaited status popout.
Proof.
  unfold Ceremonies.connected_to.
  rewrite deliver_own by reflexivity. vm_compute. reflexivity.
Qed.

(** The same for an operation that is a [request] on the new session. *)
Lemma connected_to_operation (operation : Session -> nat * Session)
  (data : Body) (awaited : string) :
  operation (create fallback id) = request data awaited (create fallback id) ->
  Ceremonies.connected_to fallback id operation status popout
  = Ceremonies.awaiting fallback id data awaited status popout.
Proof.
  intros Hop. rewrite <- connected_to_request.
  unfold Ceremonies.connected_to, Ceremonies.opened, Ceremonies.opening,
    Ceremonies.calling.
  by rewrite Hop.
Qed.

(** X15.  The ceremony of an operation, from a new session to its result.
    Each of the three operations that await a response of their own type is
    fulfilled with the response that arrives for the session, after exactly
    these effects: the announcement of the session, the question for the auth
    status, the opening of the popout at the path that the status selects,
    and the broadcast of the request, which carries the session's
    [fallbackSupported].  The session is then still open. *)
Theorem operations_are_fulfilled_with_their_response :
  (forall cipherIds userVerification cipherId userVerified,
     let response :=
       {| msg_sessionId := id;
          body := PickCredentialResponse cipherId userVerified |} in
     let s :=
       deliver response
         (Ceremonies.connected_to fallback id
            (pickCredential cipherIds userVerification) status popout) in
     promises s !! 0%nat = Some (Resolved (Response response)) /\
     log s =
       [Broadcast {| msg_sessionId := id; body := NewSessionCreatedRequest |};
        GetAuthStatus;
        PopOut (popout_url status (create fallback id));
        Broadcast
          {| msg_sessionId := id;
             body := PickCredentialRequest cipherIds userVerification fallback |}] /\
     closed s = false /\ signal s = None) /\
  (forall credentialName userName userVerification userVerified,
     let response :=
       {| msg_sessionId := id;
          body := ConfirmNewCredentialResponse userVerified |} in
     let s :=
       deliver response
         (Ceremonies.connected_to fallback id
            (confirmNewCredential credentialName userName userVerification)
            status popout) in
     promises s !! 0%nat = Some (Resolved (Response response)) /\
     log s =
       [Broadcast {| msg_sessionId := id; body := NewSessionCreatedRequest |};
        GetAuthStatus;
        PopOut (popout_url status (create fallback id));
        Broadcast
          {| msg_sessionId := id;
             body :=
               ConfirmNewCredentialRequest credentialName userName
                 userVerification fallback |}] /\
     closed s = false /\ signal s = None) /\
  (forall credentialName userName userVerification cipherId userVerified,
     let response :=
       {| msg_sessionId := id;
          body := ConfirmNewNonDiscoverableCredentialResponse cipherId userVerified |} in
     let s :=
       deliver response
         (Ceremonies.connected_to fallback id
            (confirmNewNonDiscoverableCredential credentialName userName
               userVerification) status popout) in
     promises s !! 0%nat = Some (Resolved (Response response)) /\
     log s =
       [Broadcast {| msg_sessionId := id; body := NewSessionCreatedRequest |};
        GetAuthStatus;
        PopOut (popout_url status (create fallback id));
        Broadcast
          {| msg_sessionId := id;
             body :=
               ConfirmNewNonDiscoverableCredentialRequest credentialName userName
                 userVerification fallback |}] /\
     closed s = false /\ signal s = None).
Proof.
  split; [|split]; intros;
    repeat match goal with x := _ |- _ => subst x end.
  all: unfold Ceremonies.connected_to.
  all: rewrite (deliver_own (Ceremonies.connect_response id)) by reflexivity.
  all: rewrite deliver_own by reflexivity.
  all: vm_compute; done.
Qed.

(** The user aborts the first operation of a new session.  When the popout
    answers with [AbortResponse], the listener of the constructor runs before
    the one of [receive]: it closes the session and aborts the controller with
    the fallback reason or with the plain one.  Whatever the operation awaits,
    its promise is rejected with [SessionClosedError]; so it is for
    [informExcludedCredential] and [informCredentialNotFound], which await the
    [AbortResponse] itself.  The popout is asked to close and nothing is
    broadcast. *)
Theorem abort_response_rejects_the_pending_operation
  (data : Body) (awaited : string) (fallbackRequested : bool) :
  let answer :=
    {| msg_sessionId := id; body := AbortResponse fallbackRequested |} in
  let before :=
    Ceremonies.connected_to fallback id (request data awaited) status popout in
  let s := deliver answer before in
  (promises s !! 0%nat = Some (Rejected SessionClosedError) /\
   closed s = true /\
   signal s =
     Some (if fallbackRequested then UserRequestedFallbackAbortReason
           else AbortError) /\
   subscriptions s = [] /\
   log s = (log before ++ [ClosePopOut (Some popout); DestroyNext])%list) /\
  (forall existingCipherIds,
     promises
       (deliver answer
          (Ceremonies.connected_to fallback id
             (informExcludedCredential existingCipherIds) status popout))
       !! 0%nat = Some (Rejected SessionClosedError)) /\
  promises
    (deliver answer
       (Ceremonies.connected_to fallback id informCredentialNotFound
          status popout))
    !! 0%nat = Some (Rejected SessionClosedError).
Proof.
  cbv zeta. split; [|split]; intros.
  all: unfold Ceremonies.connected_to.
  all: rewrite (deliver_own (Ceremonies.connect_response id)) by reflexivity.
  all: rewrite deliver_own by reflexivity.
  all: vm_compute; by destruct fallbackRequested.
Qed.

(** X17.  The popout may announce itself early.  [connect] makes its
    connect promise before it asks for the auth status, so a
    [ConnectResponse] that arrives while the auth status or the popout is
    still awaited is not lost: once the popout is there, the call goes on, and
    the session ends in the same state as when the [ConnectResponse] comes
    last. *)
Theorem connect_response_may_come_early (data : Body) (awaited : string) :
  let operation := request data awaited in
  let announce := deliver (Ceremonies.connect_response id) in
  popOut_resolves 0 popout (announce (Ceremonies.opening fallback id operation status))
  = Ceremonies.connected_to fallback id operation status popout /\
  popOut_resolves 0 popout
    (authStatus_resolves 0 status (announce (Ceremonies.calling fallback id operation)))
  = Ceremonies.connected_to fallback id operation status popout.
Proof.
  cbv zeta. rewrite connected_to_request.
  split; rewrite deliver_own by reflexivity; vm_compute; reflexivity.
Qed.

(** X18.  The relying party aborts while [connect] is under way.  The
    session is closed at once and [AbortRequest] is broadcast, but the call of
    [connect] is suspended at [getAuthStatus()] and does not look at [closed]
    again: when the auth status and the popout arrive, the popout is opened
    after the session was closed, it is kept in [this.popout], and only then
    is the promise of the operation rejected, with [SessionClosedError].
    Nothing closes that popout: the only [closePopOut] was called before it
    existed. *)
Theorem abort_while_connecting_still_opens_the_popout
  (data : Body) (awaited : string) :
  let aborted :=
    aborted_by_relying_party
      (Ceremonies.calling fallback id (request data awaited)) in
  let s := popOut_resolves 0 popout (authStatus_resolves 0 status aborted) in
  closed aborted = true /\
  promises aborted !! 0%nat = Some Pending /\
  promises s !! 0%nat = Some (Rejected SessionClosedError) /\
  Fido2.popout s = Some popout /\
  log s =
    [Broadcast {| msg_sessionId := id; body := NewSessionCreatedRequest |};
     GetAuthStatus;
     ClosePopOut None; DestroyNext;
     Broadcast {| msg_sessionId := id; body := AbortRequest |};
     PopOut (popout_url status (create fallback id))].
Proof. cbv zeta. vm_compute. done. Qed.

(** X28.  Unlock first, then operate.  [ensureUnlockedVault] on a new
    session connects: it opens the popout and is fulfilled when the popout
    has announced itself, without any request.  An operation that follows
    finds [connected$] true: it opens nothing, broadcasts its request at once
    and is fulfilled with the response. *)
Theorem unlock_first_then_operate
  (cipherIds : list string) (userVerification : bool)
  (cipherId : option string) (userVerified : bool) :
  let unlocked :=
    Ceremonies.connected_to fallback id ensureUnlockedVault status popout in
  let asked := pickCredential cipherIds userVerification unlocked in
  let response :=
    {| msg_sessionId := id; body := PickCredentialResponse cipherId userVerified |} in
  promises unlocked !! 0%nat = Some (Resolved Void) /\
  log unlocked =
    [Broadcast {| msg_sessionId := id; body := NewSessionCreatedRequest |};
     GetAuthStatus;
     PopOut (popout_url status (create fallback id))] /\
  asked.1 = 1%nat /\
  log asked.2 =
    (log unlocked
     ++ [Broadcast
           {| msg_sessionId := id;
              body := PickCredentialRequest cipherIds userVerification fallback |}])%list /\
  promises (deliver response asked.2) !! 1%nat
  = Some (Resolved (Response response)).
Proof.
  cbv zeta. unfold Ceremonies.connected_to.
  rewrite (deliver_own (Ceremonies.connect_response id)) by reflexivity.
  rewrite deliver_own by reflexivity.
  vm_compute. done.
Qed.

(** X29.  [ensureUnlockedVault] opens a popout every time.  It calls
    [connect] without looking at [connected$]: on a session that is already
    connected the connect promise is fulfilled at once, but the auth status is
    asked for and a popout is opened again.  The new popout takes the place of
    the first in [this.popout], so [close] asks for the second to be closed
    and never for the first. *)
Theorem ensureUnlockedVault_opens_a_popout_every_time
  (status' : AuthenticationStatus) (popout' : Popout) :
  let unlocked :=
    Ceremonies.connected_to fallback id ensureUnlockedVault status popout in
  let again := ensureUnlockedVault unlocked in
  let s := popOut_resolves 1 popout' (authStatus_resolves 1 status' again.2) in
  log s =
    (log unlocked
     ++ [GetAuthStatus; PopOut (popout_url status' (create fallback id))])%list /\
  promises s !! again.1 = Some (Resolved Void) /\
  Fido2.popout s = Some popout' /\
  log (close s) = (log s ++ [ClosePopOut (Some popout'); DestroyNext])%list.
Proof.
  cbv zeta. unfold Ceremonies.connected_to.
  rewrite (deliver_own (Ceremonies.connect_response id)) by reflexivity.
  vm_compute. done.
Qed.

End Ceremony.


(** ** After [close] *)

Lemma destroy_next_frame (s : Session) :
  let s' := destroy_next s in
  log s' = (log s ++ (if stopped s then [] else [DestroyNext]))%list /\
  closed s' = closed s /\ stopped s' = stopped s /\
  signal s' = signal s /\ popout s' = popout s /\
  connects s' = connects s /\ tasks s' = tasks s.
Proof.
  unfold destroy_next. destruct (stopped s) eqn:Hstopped.
  - cbn. by rewrite app_nil_r.
  - destruct (destroy_fold_frame (subscriptions s) (emit DestroyNext s))
      as (Hl & Hc & Hs & Hsig & Hp & _ & Hco & Ht).
    cbv zeta. by rewrite Hl, Hc, Hs, Hsig, Hp, Hco, Ht.
Qed.

Lemma close_frame (s : Session) :
  log (close s) =
    (log s ++ ClosePopOut (popout s) :: (if stopped s then [] else [DestroyNext]))%list /\
  closed (close s) = true /\ stopped (close s) = true /\
  signal (close s) = signal s /\ popout (close s) = popout s /\
  connects (close s) = connects s /\ tasks (close s) = tasks s.
Proof.
  unfold close. cbv zeta.
  destruct (destroy_next_frame
              (set_closed true (emit (ClosePopOut (popout s)) s)))
    as (Hl & Hc & Hs & Hsig & Hp & Hco & Ht).
  cbn -[destroy_next] in *. rewrite Hl, Hc, Hsig, Hp, Hco, Ht.
  by rewrite <- (assoc_L (++)).
Qed.

Lemma close_stopped (s : Session) :
  stopped s = true ->
  close s = set_stopped true (set_closed true (emit (ClosePopOut (popout s)) s)).
Proof.
  intros Hstopped. unfold close, destroy_next. cbn. by rewrite Hstopped.
Qed.

(** X19.  [close] twice.  The second call asks again for the popout to be
    closed and does nothing else: [destroy$] has completed, so no
    subscription and no promise is touched, and the abort signal is left as it
    is. *)
Theorem close_twice_only_repeats_closePopOut (s : Session) :
  let once := close s in
  let twice := close once in
  log twice = (log once ++ [ClosePopOut (popout s)])%list /\
  subscriptions twice = subscriptions once /\
  promises twice = promises once /\
  connects twice = connects once /\
  tasks twice = tasks once /\
  signal twice = signal once /\
  popout twice = popout once /\
  closed twice = true /\ stopped twice = true.
Proof.
  cbv zeta.
  destruct (close_frame s) as (_ & _ & Hstopped & _ & Hpopout & _ & _).
  rewrite (close_stopped (close s) Hstopped). cbn -[close].
  by rewrite Hpopout.
Qed.


(** The subscriptions that [close] leaves are those of connect promises. *)
Lemma close_subscriptions (s : Session) :
  stopped s = false ->
  Forall (fun x => is_connect x.2 = true) (subscriptions (close s)) /\
  subscriptions (close s) ⊆ subscriptions s.
Proof.
  intros Hstopped. unfold close, destroy_next. cbn. rewrite Hstopped.
  apply (destroy_fold_subscriptions (subscriptions s)
           (emit DestroyNext (set_closed true (emit (ClosePopOut (popout s)) s)))).
  intros x Hx. by left.
Qed.


(** X21.  The removal of another window.  [chrome.windows.onRemoved] fires
    for every window of the browser; a session that does not listen for the
    id that is removed is left exactly as it is. *)
Theorem removal_of_another_window_is_ignored (windowId : nat) (s : Session) :
  (forall eid, (eid, PopoutClosedSub windowId) ∉ subscriptions s) ->
  quiescent s = true ->
  windows_onRemoved windowId s = s.
Proof.
  intros Hother Hq. unfold windows_onRemoved.
  assert (Hfold : forall l u,
            (forall eid, (eid, PopoutClosedSub windowId) ∉ l) ->
            foldl (on_window_removed windowId) u l = u).
  { induction l as [|[eid sub] l IH]; intros u Hl; [done|].
    cbn [foldl].
    replace (on_window_removed windowId u (eid, sub)) with u.
    - apply IH. intros e He. apply (Hl e). by right.
    - unfold on_window_removed. destruct (live _ u); [|done].
      destruct sub as [| | | |w|]; try done. cbn.
      rewrite bool_decide_false; [done|]. intros ->. apply (Hl eid). by left. }
  rewrite Hfold by done. by apply run_tasks_quiescent.
Qed.


(** ** The popout is closed by the user *)

Lemma destroy_fold_sublist (l : list (nat * Subscription)) (s : Session) :
  subscriptions (foldl complete_on_destroy s l) `sublist_of` subscriptions s.
Proof.
  revert s. induction l as [|entry l IH]; intros s; [done|].
  cbn. etrans; [apply IH|]. unfold complete_on_destroy.
  destruct entry.2; cbn; try done; apply sublist_filter.
Qed.

Lemma close_NoDup (s : Session) :
  NoDup (subscriptions s).*1 -> NoDup (subscriptions (close s)).*1.
Proof.
  intros Hnodup. unfold close, destroy_next. cbn. destruct (stopped s); [done|].
  eapply sublist_NoDup; [exact Hnodup|]. apply fmap_sublist.
  apply (destroy_fold_sublist (subscriptions s)
           (emit DestroyNext (set_closed true (emit (ClosePopOut (popout s)) s)))).
Qed.

(** The listeners of "abort" after [close]: what they leave alone. *)
Lemma abort_fold_after_close_frame (l : list (nat * Subscription)) (s : Session) :
  NoDup l.*1 -> subscriptions s ⊆ l ->
  Forall (fun x => is_connect x.2 = true) (subscriptions s) ->
  let s' := foldl on_abort_event s l in
  promises s' = promises s /\ tasks s' = tasks s /\ popout s' = popout s /\
  forall c, connects s !! c <> Some (Resolved tt) ->
            connects s' !! c <> Some (Resolved tt).
Proof.
  revert s. induction l as [|[eid sub] l IH]; intros s Hnodup Hsub Hall; [done|].
  pose proof Hnodup as Hnodup'.
  rewrite fmap_cons in Hnodup'. apply NoDup_cons in Hnodup' as [Hfresh Hnodupl].
  cbn in Hfresh. cbn [foldl].
  destruct (live eid s) eqn:Hlive.
  - apply bool_decide_eq_true in Hlive.
    apply list_elem_of_fmap in Hlive as (x & Hid & Hx).
    assert (x = (eid, sub)) as ->.
    { apply (same_id_same_entry ((eid, sub) :: l));
        [done|by apply Hsub|by left|done]. }
    rewrite Forall_forall in Hall. pose proof (Hall _ Hx) as Hkind.
    destruct sub as [| | | | |c]; try done.
    replace (on_abort_event s (eid, ConnectSub c))
      with (settle_connect c (Rejected SessionClosedError) (unsubscribe eid s)).
    2: { unfold on_abort_event, live. cbn. rewrite bool_decide_true; [done|].
         by apply (list_elem_of_fmap_2 fst _ (eid, ConnectSub c)). }
    set (s1 := settle_connect c (Rejected SessionClosedError) (unsubscribe eid s)).
    assert (Hsub1 : subscriptions s1 ⊆ l).
    { cbn. intros y Hy. apply list_elem_of_filter in Hy as [Hne Hy].
      apply Hsub, elem_of_cons in Hy as [->|Hy]; [by destruct Hne|done]. }
    assert (Hall1 : Forall (fun x => is_connect x.2 = true) (subscriptions s1)).
    { cbn. apply Forall_forall. intros y Hy.
      apply list_elem_of_filter in Hy as [_ Hy]. by apply Hall. }
    destruct (IH s1 Hnodupl Hsub1 Hall1) as (Hp & Ht & Hpop & Hc).
    cbv zeta. rewrite Hp, Ht, Hpop. repeat split; try done.
    intros c' Hc'. apply Hc. cbn.
    destruct (decide (c' = c)) as [->|Hne].
    + rewrite list_lookup_alter_eq. by destruct (connects s !! c) as [[]|].
    + by rewrite list_lookup_alter_ne.
  - replace (on_abort_event s (eid, sub)) with s
      by (unfold on_abort_event; cbn; by rewrite Hlive).
    apply IH; try done.
    intros y Hy. pose proof (Hsub y Hy) as Hy'.
    apply elem_of_cons in Hy' as [->|Hy']; [|done].
    apply bool_decide_eq_false in Hlive. destruct Hlive.
    by apply (list_elem_of_fmap_2 fst _ (eid, sub)).
Qed.

(** [this.close(); this.abort(fallback)], what the session does when the
    user gives up: the session is closed, the controller is aborted, nothing
    is broadcast, and every pending [receive] is rejected. *)
Lemma close_then_abort (fallback : bool) (s : Session) :
  signal s = None -> stopped s = false -> NoDup (subscriptions s).*1 ->
  let s' := abort fallback (close s) in
  log s' = (log s ++ [ClosePopOut (popout s); DestroyNext])%list /\
  closed s' = true /\ stopped s' = true /\
  signal s' =
    Some (if fallback then UserRequestedFallbackAbortReason else AbortError) /\
  subscriptions s' = [] /\ tasks s' = tasks s /\
  (forall c, connects s !! c <> Some (Resolved tt) ->
             connects s' !! c <> Some (Resolved tt)) /\
  (forall eid awaited p,
     (eid, ReceiveSub awaited p) ∈ subscriptions s ->
     promises s !! p = Some Pending ->
     promises s' !! p = Some (Rejected SessionClosedError)).
Proof.
  intros Hsignal Hstopped Hnodup.
  destruct (close_frame s) as (Hlog & Hclosed & Hstop & Hsig & Hpop & Hco & Hta).
  rewrite Hstopped in Hlog.
  destruct (close_subscriptions s Hstopped) as [Hall _].
  pose proof (close_NoDup s Hnodup) as Hnodup'.
  unfold abort, abortController_abort. rewrite Hsig, Hsignal.
  set (reason := if fallback then UserRequestedFallbackAbortReason else AbortError).
  set (t := set_signal (Some reason) (close s)).
  destruct (abort_fold_after_close (subscriptions (close s)) t)
    as (Hl' & Hc' & Hs' & Hsig' & Hnone); [done|done|done|].
  destruct (abort_fold_after_close_frame (subscriptions (close s)) t)
    as (Hp' & Ht' & _ & Hco'); [done|done|done|].
  cbv zeta. rewrite Hl', Hc', Hs', Hsig', Hnone, Hp', Ht'.
  cbn -[close]. rewrite Hlog, Hclosed, Hstop, Hta.
  repeat split; try done.
  - intros c Hc. apply Hco'. cbn -[close]. by rewrite Hco.
  - intros eid awaited p Hin Hp. unfold close, destroy_next. cbn.
    rewrite Hstopped. cbn.
    by apply (destroy_fold_rejects_receive (subscriptions s) _ eid awaited).
Qed.

(** A call that goes on after [connect] when no connect promise is
    fulfilled can only fail: it broadcasts nothing. *)
Lemma resume_fails_only (s : Session) (i : nat) :
  (forall j t, tasks s !! j = Some t -> stage t = AwaitConnected ->
               connects s !! connectPromise t <> Some (Resolved tt)) ->
  let s' := resume s i in
  (forall j t, tasks s' !! j = Some t -> stage t = AwaitConnected ->
               connects s' !! connectPromise t <> Some (Resolved tt)) /\
  log s' = log s /\ closed s' = closed s /\ stopped s' = stopped s /\
  signal s' = signal s /\ subscriptions s' = subscriptions s /\
  popout s' = popout s /\ length (tasks s') = length (tasks s) /\
  forall p e, promises s !! p = Some (Rejected e) ->
              promises s' !! p = Some (Rejected e).
Proof.
  intros Hnone. unfold resume.
  destruct (tasks s !! i) as [[st c k]|] eqn:Hi; [|done].
  destruct st; try done.
  destruct (connects s !! c) as [[|[]|e]|] eqn:Hc; try done.
  { exfalso. by apply (Hnone i _ Hi). }
  cbv zeta. unfold fail. cbn. rewrite length_alter. repeat split; try done.
  - intros j t Hj Hstage. destruct (decide (j = i)) as [->|Hne].
    + rewrite list_lookup_alter_eq, Hi in Hj. cbn in Hj.
      injection Hj as <-. done.
    + rewrite list_lookup_alter_ne in Hj by done. by eapply Hnone.
  - intros p e' Hp. destruct (decide (p = promise_of k)) as [->|Hne].
    + by rewrite list_lookup_alter_eq, Hp.
    + by rewrite list_lookup_alter_ne.
Qed.

Lemma run_tasks_fails_only (s : Session) :
  (forall j t, tasks s !! j = Some t -> stage t = AwaitConnected ->
               connects s !! connectPromise t <> Some (Resolved tt)) ->
  let s' := run_tasks s in
  log s' = log s /\ closed s' = closed s /\ stopped s' = stopped s /\
  signal s' = signal s /\ subscriptions s' = subscriptions s /\
  popout s' = popout s /\
  forall p e, promises s !! p = Some (Rejected e) ->
              promises s' !! p = Some (Rejected e).
Proof.
  unfold run_tasks. generalize (seq 0 (length (tasks s))) as l.
  intros l. revert s. induction l as [|i l IH]; intros s Hnone; [done|].
  cbn [foldl].
  destruct (resume_fails_only s i Hnone)
    as (Hnone' & Hl & Hc & Hs & Hsig & Hsub & Hpop & _ & Hp).
  destruct (IH (resume s i) Hnone') as (Hl' & Hc' & Hs' & Hsig' & Hsub' & Hpop' & Hp').
  cbv zeta. rewrite Hl', Hc', Hs', Hsig', Hsub', Hpop'.
  repeat split; try done. intros p e He. by apply Hp', Hp.
Qed.

Lemma quiescent_not_resolved (s : Session) :
  quiescent s = true ->
  forall j t, tasks s !! j = Some t -> stage t = AwaitConnected ->
              connects s !! connectPromise t <> Some (Resolved tt).
Proof.
  intros Hq j t Hj Hstage. unfold quiescent in Hq. rewrite forallb_forall in Hq.
  specialize (Hq _ (proj1 (list_elem_of_In _ _) (list_elem_of_lookup_2 _ _ _ Hj))).
  cbn in Hq. rewrite Hstage in Hq.
  by destruct (connects s !! connectPromise t) as [[]|].
Qed.

(** The listeners of the windows on a session that has no subscription. *)
Lemma window_fold_nobody (windowId : nat) (l : list (nat * Subscription))
  (s : Session) :
  subscriptions s = [] -> foldl (on_window_removed windowId) s l = s.
Proof.
  intros Hnone. induction l as [|entry l IH]; [done|].
  cbn [foldl]. replace (on_window_removed windowId s entry) with s; [done|].
  unfold on_window_removed, live. rewrite Hnone.
  rewrite bool_decide_false; [done|]. cbn. apply not_elem_of_nil.
Qed.

(** The listeners of the windows when one of them listens for the window
    that is removed. *)
Lemma window_fold_match (windowId : nat) (l : list (nat * Subscription))
  (s : Session) :
  (forall x, x ∈ l -> x ∈ subscriptions s) ->
  (exists eid, (eid, PopoutClosedSub windowId) ∈ l) ->
  subscriptions (abort false (close s)) = [] ->
  foldl (on_window_removed windowId) s l = abort false (close s).
Proof.
  intros Hl [eid0 Hin] Hnone.
  induction l as [|[eid sub] l IH]; [by apply elem_of_nil in Hin|].
  cbn [foldl].
  assert (Hlive : live eid s = true).
  { apply bool_decide_eq_true.
    apply (list_elem_of_fmap_2 fst _ (eid, sub)), Hl. by left. }
  assert (Hskip : forall sub',
            sub = sub' ->
            (forall w, sub' = PopoutClosedSub w -> w <> windowId) ->
            on_window_removed windowId s (eid, sub') = s ->
            foldl (on_window_removed windowId) s l = abort false (close s)).
  { intros sub' -> Hother _. apply IH.
    - intros x Hx. apply Hl. by right.
    - apply elem_of_cons in Hin as [[= -> Heq]|Hin]; [|done].
      by destruct (Hother _ (eq_sym Heq)). }
  unfold on_window_removed at 2. cbn [fst snd]. rewrite Hlive.
  destruct sub as [| | |awaited p|w|c];
    try (by eapply Hskip; [reflexivity|intros w [=]|
                           unfold on_window_removed; cbn; by rewrite Hlive]).
  case_bool_decide as Hw.
  - subst w. by apply window_fold_nobody.
  - eapply Hskip; [reflexivity|by intros w' [= <-]|].
    unfold on_window_removed. cbn. by rewrite Hlive, bool_decide_false.
Qed.

(** X22.  The popout is removed.  When [chrome.windows.onRemoved] fires
    with the id that the session listens for, the session closes itself and
    aborts the controller with the plain reason, not the fallback one; every
    pending [receive] is rejected with [SessionClosedError], no subscription
    is left, and nothing is broadcast: the relying party learns of it through
    the signal only.  The id listened for is the one that [connect] took
    from the popout, a window or a tab: [tabClosed$] too is built on
    [chrome.windows.onRemoved]. *)
Theorem removal_of_the_popout_aborts_the_ceremony
  (windowId eid : nat) (s : Session) :
  signal s = None ->
  stopped s = false ->
  NoDup (subscriptions s).*1 ->
  quiescent s = true ->
  (eid, PopoutClosedSub windowId) ∈ subscriptions s ->
  let s' := windows_onRemoved windowId s in
  log s' = (log s ++ [ClosePopOut (popout s); DestroyNext])%list /\
  closed s' = true /\
  signal s' = Some AbortError /\
  subscriptions s' = [] /\
  forall id awaited p,
    (id, ReceiveSub awaited p) ∈ subscriptions s ->
    promises s !! p = Some Pending ->
    promises s' !! p = Some (Rejected SessionClosedError).
Proof.
  intros Hsignal Hstopped Hnodup Hq Hin.
  destruct (close_then_abort false s Hsignal Hstopped Hnodup)
    as (Hlog & Hclosed & Hstop & Hsig & Hnone & Htasks & Hconnects & Hreceive).
  unfold windows_onRemoved.
  rewrite (window_fold_match windowId (subscriptions s) s); [|done|by eexists|done].
  destruct (run_tasks_fails_only (abort false (close s)))
    as (Hl' & Hc' & _ & Hsig' & Hsub' & _ & Hp').
  { intros j t Hj Hstage. rewrite Htasks in Hj.
    by apply Hconnects, (quiescent_not_resolved s Hq j t). }
  cbv zeta. rewrite Hl', Hc', Hsig', Hsub'.
  repeat split; try done.
  intros id awaited p Hsub Hp. by eapply Hp', Hreceive.
Qed.

(** ** The user aborts *)

Lemma unsubscribe_nobody (eid : nat) (s : Session) :
  subscriptions s = [] -> unsubscribe eid s = s.
Proof. destruct s. cbn. by intros ->. Qed.

(** The listeners of the bus on a session that has no subscription. *)
Lemma bus_fold_nobody (msg : BrowserFido2Message) (l : list (nat * Subscription))
  (s : Session) :
  subscriptions s = [] -> foldl (on_message msg) s l = s.
Proof.
  intros Hnone. induction l as [|entry l IH]; [done|].
  cbn [foldl]. replace (on_message msg s entry) with s; [done|].
  unfold on_message, live. rewrite Hnone.
  rewrite bool_decide_false; [done|]. cbn. apply not_elem_of_nil.
Qed.

(** The listeners of the bus on an [AbortResponse] of the session, when the
    listener of the constructor comes before every [receive] that awaits this
    type: it is the one that runs, and nobody is left to listen after it. *)
Lemma bus_fold_abort (fallbackRequested : bool) (eid : nat)
  (before after : list (nat * Subscription)) (s : Session) :
  (forall x, x ∈ (before ++ (eid, AbortResponseSub) :: after)%list ->
             x ∈ subscriptions s) ->
  Forall (fun x => forall p, x.2 <> ReceiveSub "AbortResponse" p) before ->
  subscriptions (abort fallbackRequested (close s)) = [] ->
  foldl
    (on_message
       {| msg_sessionId := sessionId s; body := AbortResponse fallbackRequested |})
    s (before ++ (eid, AbortResponseSub) :: after)%list
  = abort fallbackRequested (close s).
Proof.
  intros Hl Hbefore Hnone.
  set (msg := {| msg_sessionId := sessionId s;
                 body := AbortResponse fallbackRequested |}).
  assert (Hfire : forall e l,
            (e, AbortResponseSub) ∈ subscriptions s ->
            foldl (on_message msg) s ((e, AbortResponseSub) :: l)
            = abort fallbackRequested (close s)).
  { intros e l He. cbn [foldl]. rewrite on_message_own by done.
    cbn [fst snd body msg].
    replace (live e s) with true.
    2: { symmetry. apply bool_decide_eq_true.
         by apply (list_elem_of_fmap_2 fst _ (e, AbortResponseSub)). }
    rewrite unsubscribe_nobody by done. by apply bus_fold_nobody. }
  induction before as [|[e sub] before IH].
  { apply Hfire, Hl. by left. }
  apply Forall_cons in Hbefore as [Hsub Hbefore]. cbn [snd] in Hsub.
  change ((((e, sub) :: before) ++ (eid, AbortResponseSub) :: after)%list)
    with ((e, sub) :: (before ++ (eid, AbortResponseSub) :: after)%list).
  assert (Hrest : foldl (on_message msg) s
                    (before ++ (eid, AbortResponseSub) :: after)%list
                  = abort fallbackRequested (close s)).
  { apply IH; [|done]. intros x Hx. apply Hl. by right. }
  destruct sub as [| | |awaited p| |];
    try (cbn [foldl];
         replace (on_message msg s (e, _)) with s; [exact Hrest|];
         rewrite on_message_own by done; cbn [fst snd];
         by destruct (live e s)).
  - apply Hfire, Hl. by left.
  - cbn [foldl].
    replace (on_message msg s (e, ReceiveSub awaited p)) with s; [exact Hrest|].
    rewrite on_message_own by done. cbn [fst snd].
    destruct (live e s); [|done].
    rewrite bool_decide_false; [done|].
    intros <-. by apply (Hsub p).
Qed.

(** X16.  The user aborts.  On a session that is open, when the popout
    answers with [AbortResponse] and the listener that the constructor made
    for it comes before every [receive] that awaits this type, that listener
    is the one that runs: it closes the session and aborts the controller
    with the fallback reason or with the plain one.  The popout is asked to
    close, no subscription is left and nothing is broadcast; every pending
    [receive] is rejected with [SessionClosedError], whatever it awaits, the
    [AbortResponse] itself included. *)
Theorem abort_response_rejects_every_pending_receive
  (fallbackRequested : bool) (eid : nat)
  (before after : list (nat * Subscription)) (s : Session) :
  signal s = None ->
  stopped s = false ->
  NoDup (subscriptions s).*1 ->
  quiescent s = true ->
  subscriptions s = (before ++ (eid, AbortResponseSub) :: after)%list ->
  Forall (fun x => forall p, x.2 <> ReceiveSub "AbortResponse" p) before ->
  let s' :=
    deliver
      {| msg_sessionId := sessionId s; body := AbortResponse fallbackRequested |}
      s in
  log s' = (log s ++ [ClosePopOut (popout s); DestroyNext])%list /\
  closed s' = true /\
  signal s' =
    Some (if fallbackRequested then UserRequestedFallbackAbortReason
          else AbortError) /\
  subscriptions s' = [] /\
  forall id awaited p,
    (id, ReceiveSub awaited p) ∈ subscriptions s ->
    promises s !! p = Some Pending ->
    promises s' !! p = Some (Rejected SessionClosedError).
Proof.
  intros Hsignal Hstopped Hnodup Hq Hsubs Hbefore.
  destruct (close_then_abort fallbackRequested s Hsignal Hstopped Hnodup)
    as (Hlog & Hclosed & Hstop & Hsig & Hnone & Htasks & Hconnects & Hreceive).
  assert (Hbus : notify {| msg_sessionId := sessionId s;
                           body := AbortResponse fallbackRequested |} s
                 = abort fallbackRequested (close s)).
  { unfold notify. rewrite Hsubs.
    apply (bus_fold_abort fallbackRequested eid before after s);
      [by rewrite <- Hsubs|done|done]. }
  unfold deliver. rewrite Hbus.
  destruct (run_tasks_fails_only (abort fallbackRequested (close s)))
    as (Hl' & Hc' & _ & Hsig' & Hsub' & _ & Hp').
  { intros j t Hj Hstage. rewrite Htasks in Hj.
    by apply Hconnects, (quiescent_not_resolved s Hq j t). }
  cbv zeta. rewrite Hl', Hc', Hsig', Hsub'.
  repeat split; try done.
  intros id awaited p Hsub Hp. by eapply Hp', Hreceive.
Qed.


Lemma removal_of_another_window_is_ignored_witness :
  windows_onRemoved 9 Ceremony.receiving = Ceremony.receiving.
Proof.
  apply (removal_of_another_window_is_ignored 9 Ceremony.receiving).
  - intros eid Hin. apply list_elem_of_In in Hin. vm_compute in Hin.
    repeat destruct Hin as [Hin|Hin]; try discriminate. done.
  - vm_compute. reflexivity.
Defined.

Lemma removal_of_the_popout_aborts_the_ceremony_witness :
  let s' := windows_onRemoved 7 Ceremony.receiving in
  log s' =
    (log Ceremony.receiving
     ++ [ClosePopOut (popout Ceremony.receiving); DestroyNext])%list /\
  closed s' = true /\
  signal s' = Some AbortError /\
  subscriptions s' = [] /\
  forall id awaited p,
    (id, ReceiveSub awaited p) ∈ subscriptions Ceremony.receiving ->
    promises Ceremony.receiving !! p = Some Pending ->
    promises s' !! p = Some (Rejected SessionClosedError).
Proof.
  apply (removal_of_the_popout_aborts_the_ceremony 7 4 Ceremony.receiving).
  - reflexivity.
  - reflexivity.
  - apply (bool_decide_unpack _). vm_compute. reflexivity.
  - vm_compute. reflexivity.
  - vm_compute. apply list_elem_of_In. do 2 right. by left.
Defined.

Lemma abort_response_rejects_every_pending_receive_witness :
  let s' :=
    deliver
      {| msg_sessionId := sessionId Ceremony.receiving;
         body := AbortResponse true |}
      Ceremony.receiving in
  log s' =
    (log Ceremony.receiving
     ++ [ClosePopOut (popout Ceremony.receiving); DestroyNext])%list /\
  closed s' = true /\
  signal s' = Some UserRequestedFallbackAbortReason /\
  subscriptions s' = [] /\
  forall id awaited p,
    (id, ReceiveSub awaited p) ∈ subscriptions Ceremony.receiving ->
    promises Ceremony.receiving !! p = Some Pending ->
    promises s' !! p = Some (Rejected SessionClosedError).
Proof.
  apply (abort_response_rejects_every_pending_receive true 2
           [(1%nat, AbortSignalSub)]
           [(4%nat, PopoutClosedSub 7);
            (5%nat, ReceiveSub "PickCredentialResponse" 0)]
           Ceremony.receiving).
  - reflexivity.
  - reflexivity.
  - apply (bool_decide_unpack _). vm_compute. reflexivity.
  - vm_compute. reflexivity.
  - vm_compute. reflexivity.
  - apply Forall_cons_2; [by intros p|apply Forall_nil_2].
Defined.

(** On the run: the pending [receive] of [Ceremony.receiving] is rejected by
    an [AbortResponse] of the session. *)
Example receiving_is_rejected_by_AbortResponse :
  promises Ceremony.receiving !! 0%nat = Some Pending /\
  promises
    (deliver {| msg_sessionId := "A"; body := AbortResponse false |}
       Ceremony.receiving) !! 0%nat
  = Some (Rejected SessionClosedError).
Proof. vm_compute. done. Qed.

(** Where the order of the listeners matters: on a session that has been
    closed, the listener of the constructor is gone, and an
    [informCredentialNotFound] that is called then is fulfilled by the
    [AbortResponse] that it awaits. *)
Example closed_session_is_fulfilled_by_AbortResponse :
  let answer := {| msg_sessionId := "A"; body := AbortResponse false |} in
  let call := informCredentialNotFound Ceremony.finished in
  closed Ceremony.finished = true /\
  promises call.2 !! call.1 = Some Pending /\
  promises (deliver answer call.2) !! call.1 = Some (Resolved (Response answer)).
Proof. vm_compute. done. Qed.

(** A popout that is a tab is listened for on [chrome.windows.onRemoved]
    too: the removal of the window whose id is the tab's aborts the
    ceremony. *)
Example tab_popout_listens_for_a_window :
  let opened :=
    popOut_resolves 0 (PopoutTab 7)
      (authStatus_resolves 0 Unlocked Ceremony.asked) in
  let s := deliver Ceremony.connect_response opened in
  (4%nat, PopoutClosedSub 7) ∈ subscriptions s /\
  signal (windows_onRemoved 7 s) = Some AbortError /\
  closed (windows_onRemoved 7 s) = true /\
  promises (windows_onRemoved 7 s) !! 0%nat = Some (Rejected SessionClosedError).
Proof.
  cbv zeta. split; [|vm_compute; done].
  vm_compute. apply list_elem_of_In. do 2 right. by left.
Qed.

End Fido2More.

(** * What holds in every state of a session *)

Module Fido2Invariant.
Import Fido2 Fido2Theory Fido2More Fido2Events.
Local Open Scope string_scope.

Lemma keeps_refl (s : Session) : keeps s s.
Proof. unfold keeps. auto. Qed.

Lemma keeps_trans (s1 s2 s3 : Session) : keeps s1 s2 -> keeps s2 s3 -> keeps s1 s3.
Proof.
  intros (Ht & Hc & Hs) (Ht' & Hc' & Hs'). split; [auto|split; [auto|]].
  destruct Hs' as [Hs'|Hs']; [|by right].
  destruct Hs as [Hs|Hs]; [left; congruence|right; auto].
Qed.

(** A step that touches neither the subscriptions nor the flags. *)
Lemma keeps_fields (s s' : Session) :
  subscriptions s' = subscriptions s ->
  next_subscription s' = next_subscription s ->
  closed s' = closed s -> stopped s' = stopped s -> signal s' = signal s ->
  keeps s s'.
Proof.
  intros Hsub Hnext Hclosed Hstopped Hsignal. unfold keeps, tidy.
  rewrite Hsub, Hnext, Hclosed, Hstopped, Hsignal. auto.
Qed.

Lemma tidy_unsubscribe (l : list (nat * Subscription)) (e : nat * Subscription)
  (s : Session) :
  NoDup l.*1 -> e ∈ l -> subscriptions s ⊆ l ->
  e.2 <> AbortSignalSub \/ closed s = true ->
  tidy s -> tidy (unsubscribe e.1 s).
Proof.
  intros Hnodup He Hsub Hkind (Hids & Hbound & Hflags & Hlistens).
  unfold tidy. cbn. split; [|split; [|split]].
  - eapply sublist_NoDup; [exact Hids|]. apply fmap_sublist, sublist_filter.
  - intros x Hx. apply list_elem_of_filter in Hx as [_ Hx]. by apply Hbound.
  - done.
  - intros Hopen. apply list_elem_of_filter. split; [|by apply Hlistens].
    cbn. intros Hsame. destruct Hkind as [Hkind|Hclosed]; [|congruence].
    apply Hkind.
    assert (Heq : (1%nat, AbortSignalSub) = e).
    { apply (same_id_same_entry l); [done|by apply Hsub, Hlistens|done|done]. }
    by rewrite <- Heq.
Qed.

Lemma keeps_unsubscribe (l : list (nat * Subscription)) (e : nat * Subscription)
  (s : Session) :
  NoDup l.*1 -> e ∈ l -> subscriptions s ⊆ l ->
  e.2 <> AbortSignalSub \/ closed s = true ->
  keeps s (unsubscribe e.1 s).
Proof.
  intros Hnodup He Hsub Hkind. split; [|split; [done|by left]].
  by apply (tidy_unsubscribe l).
Qed.

Lemma keeps_subscribe (sub : Subscription) (s : Session) :
  keeps s (subscribe sub s).
Proof.
  split; [|split; [done|by left]].
  intros (Hids & Hbound & Hflags & Hlistens). unfold tidy. cbn.
  split; [|split; [|split]].
  - rewrite fmap_app. apply NoDup_app. split; [done|]. split.
    + intros i Hi Hnew. cbn in Hnew.
      apply list_elem_of_singleton in Hnew as ->.
      apply list_elem_of_fmap in Hi as (x & Heq & Hx).
      specialize (Hbound _ Hx). lia.
    + cbn. apply NoDup_singleton.
  - intros x [Hx| ->%list_elem_of_singleton]%elem_of_app; cbn; [|lia].
    specialize (Hbound _ Hx). lia.
  - done.
  - intros Hopen. apply elem_of_app. left. by apply Hlistens.
Qed.

(** ** [close] *)

Lemma destroy_fold_next (l : list (nat * Subscription)) (s : Session) :
  next_subscription (foldl complete_on_destroy s l) = next_subscription s.
Proof.
  revert s. induction l as [|entry l IH]; intros s; [done|].
  cbn. rewrite IH. unfold complete_on_destroy. by destruct entry.2.
Qed.

Lemma close_next (s : Session) :
  next_subscription (close s) = next_subscription s.
Proof.
  unfold close, destroy_next. cbn. destruct (stopped s); [done|].
  by rewrite destroy_fold_next.
Qed.

Lemma close_shrinks (s : Session) : subscriptions (close s) ⊆ subscriptions s.
Proof.
  unfold close, destroy_next. cbn. destruct (stopped s); [done|].
  intros x Hx. eapply elem_of_sublist; [exact Hx|].
  apply (destroy_fold_sublist (subscriptions s)
           (emit DestroyNext (set_closed true (emit (ClosePopOut (popout s)) s)))).
Qed.

Lemma keeps_close (s : Session) : keeps s (close s).
Proof.
  destruct (close_frame s) as (_ & Hclosed & Hstopped & Hsignal & _).
  split; [|split; [done|by left]].
  intros (Hids & Hbound & Hflags & Hlistens). unfold tidy.
  split; [|split; [|split]].
  - by apply close_NoDup.
  - intros x Hx. rewrite close_next. by apply Hbound, close_shrinks.
  - by rewrite Hclosed, Hstopped.
  - by rewrite Hclosed.
Qed.

(** ** The listeners, one after the other *)

(** The listeners of a list run on a tidy session: each of them that is
    still live is one of the subscriptions of the session. *)
Lemma keeps_fold (f : Session -> nat * Subscription -> Session)
  (l0 : list (nat * Subscription)) :
  NoDup l0.*1 ->
  (forall s e, e ∈ l0 -> subscriptions s ⊆ l0 -> tidy s ->
     (live e.1 s = true -> e ∈ subscriptions s) ->
     keeps s (f s e) /\ subscriptions (f s e) ⊆ subscriptions s) ->
  forall l s, l ⊆ l0 -> subscriptions s ⊆ l0 -> tidy s ->
    keeps s (foldl f s l) /\ subscriptions (foldl f s l) ⊆ subscriptions s.
Proof.
  intros Hnodup Hstep. induction l as [|e l IH]; intros s Hl Hsub Htidy.
  { split; [apply keeps_refl|done]. }
  cbn [foldl].
  destruct (Hstep s e) as [Hk Hs]; [apply Hl; by left|done|done| |].
  { intros Hlive. apply bool_decide_eq_true in Hlive.
    apply list_elem_of_fmap in Hlive as (x & Hid & Hx).
    assert (x = e) as ->; [|done].
    apply (same_id_same_entry l0); [done|by apply Hsub|apply Hl; by left|done]. }
  destruct (IH (f s e)) as [Hk' Hs'].
  - intros x Hx. apply Hl. by right.
  - by etrans.
  - by apply Hk.
  - split; [exact (keeps_trans _ _ _ Hk Hk')|by etrans].
Qed.

Lemma keeps_listeners (f : Session -> nat * Subscription -> Session) (s : Session) :
  (forall t e, e ∈ subscriptions s -> subscriptions t ⊆ subscriptions s -> tidy t ->
     (live e.1 t = true -> e ∈ subscriptions t) ->
     keeps t (f t e) /\ subscriptions (f t e) ⊆ subscriptions t) ->
  tidy s ->
  keeps s (foldl f s (subscriptions s)) /\
  subscriptions (foldl f s (subscriptions s)) ⊆ subscriptions s.
Proof.
  intros Hstep Htidy.
  apply (keeps_fold f (subscriptions s)); try done. by destruct Htidy.
Qed.

Lemma unsubscribe_shrinks (id : nat) (s : Session) :
  subscriptions (unsubscribe id s) ⊆ subscriptions s.
Proof. cbn. intros x Hx. by apply list_elem_of_filter in Hx as [_ Hx]. Qed.

(** [connected$.next(true)]. *)
Lemma keeps_connected_next (s : Session) :
  tidy s ->
  keeps s (connected_next true s) /\
  subscriptions (connected_next true s) ⊆ subscriptions s.
Proof.
  intros Htidy. unfold connected_next. cbv zeta.
  assert (Hset : keeps s (set_connected true s)) by (by apply keeps_fields).
  destruct (keeps_listeners on_connected (set_connected true s)) as [Hk Hs];
    [|by apply Hset|split; [exact (keeps_trans _ _ _ Hset Hk)|exact Hs]].
  intros t e He Hsub Ht Hlive. unfold on_connected.
  destruct (live e.1 t) eqn:Hl; [|split; [apply keeps_refl|done]].
  destruct e as [eid sub]. destruct sub as [| | | | |c];
    try (split; [apply keeps_refl|done]).
  split.
  - eapply keeps_trans; [|by apply keeps_fields].
    apply (keeps_unsubscribe (subscriptions t) (eid, ConnectSub c));
      [by destruct Ht|by apply Hlive|done|by left].
  - apply unsubscribe_shrinks.
Qed.

(** The listeners of "abort". *)
Lemma keeps_on_abort_event (t : Session) (e : nat * Subscription) :
  tidy t -> (live e.1 t = true -> e ∈ subscriptions t) ->
  keeps t (on_abort_event t e) /\
  subscriptions (on_abort_event t e) ⊆ subscriptions t.
Proof.
  intros Ht Hlive. unfold on_abort_event.
  destruct (live e.1 t) eqn:Hl; [|split; [apply keeps_refl|done]].
  destruct e as [eid sub]. destruct sub as [| | | | |c];
    try (split; [apply keeps_refl|done]).
  - split; [|apply close_shrinks].
    eapply keeps_trans; [apply keeps_close|]. by apply keeps_fields.
  - split; [|apply unsubscribe_shrinks].
    eapply keeps_trans; [|by apply keeps_fields].
    apply (keeps_unsubscribe (subscriptions t) (eid, ConnectSub c));
      [by destruct Ht|by apply Hlive|done|by left].
Qed.

(** [abortController.abort(reason)] on a tidy session: when it sets the
    signal, the session is closed afterwards. *)
Lemma keeps_abortController_abort (reason : Error) (s : Session) :
  tidy s ->
  keeps s (abortController_abort reason s) /\
  subscriptions (abortController_abort reason s) ⊆ subscriptions s.
Proof.
  intros Htidy. unfold abortController_abort.
  destruct (signal s) eqn:Hsignal; [split; [apply keeps_refl|done]|].
  set (t := set_signal (Some reason) s).
  assert (Ht : tidy t) by exact Htidy.
  destruct (keeps_listeners on_abort_event t) as [(Hk & Hc & _) Hs]; [|done|].
  { intros u e _ _ Hu Hlive. by apply keeps_on_abort_event. }
  split; [|done]. split; [by auto|split; [by auto|]]. right.
  destruct (closed s) eqn:Hclosed; [by apply Hc|].
  destruct Htidy as (Hids & _ & Hflags & Hlistens).
  destruct (abort_fold_closes_then_broadcasts (subscriptions t) t)
    as (_ & Hdone & _); try done.
  - cbn. by rewrite <- Hflags.
  - exists 1%nat. by apply Hlistens.
Qed.

Lemma keeps_abort (fallback : bool) (s : Session) :
  tidy s ->
  keeps s (abort fallback s) /\ subscriptions (abort fallback s) ⊆ subscriptions s.
Proof. apply keeps_abortController_abort. Qed.

(** [this.close(); this.abort(fallback)]. *)
Lemma keeps_close_abort (fallback : bool) (s : Session) :
  tidy s ->
  keeps s (abort fallback (close s)) /\
  subscriptions (abort fallback (close s)) ⊆ subscriptions s /\
  closed (abort fallback (close s)) = true.
Proof.
  intros Htidy. pose proof (keeps_close s) as Hclose.
  destruct (keeps_abort fallback (close s)) as [Habort Hs];
    [by apply Hclose|].
  split; [exact (keeps_trans _ _ _ Hclose Habort)|]. split.
  - etrans; [exact Hs|apply close_shrinks].
  - destruct Habort as (_ & Hc & _). apply Hc.
    by destruct (close_frame s) as (_ & -> & _).
Qed.

(** The listeners of the bus. *)
Lemma keeps_on_message (msg : BrowserFido2Message) (t : Session)
  (e : nat * Subscription) :
  tidy t -> (live e.1 t = true -> e ∈ subscriptions t) ->
  keeps t (on_message msg t e) /\
  subscriptions (on_message msg t e) ⊆ subscriptions t.
Proof.
  intros Ht Hlive. unfold on_message.
  destruct (live e.1 t) eqn:Hl; [|split; [apply keeps_refl|done]].
  specialize (Hlive eq_refl).
  destruct e as [eid sub]. destruct sub as [| | |awaited p| |];
    cbn [fst snd] in *; try (split; [apply keeps_refl|done]).
  - destruct (_ ≫= _); [|split; [apply keeps_refl|done]].
    destruct (keeps_connected_next t Ht) as [Hk Hs].
    split; [|etrans; [apply unsubscribe_shrinks|done]].
    eapply keeps_trans; [exact Hk|].
    apply (keeps_unsubscribe (subscriptions t) (eid, ConnectResponseSub));
      [by destruct Ht|done|done|by left].
  - destruct (_ ≫= _) as [[sid []]|]; try (split; [apply keeps_refl|done]).
    match goal with
    | |- context [abort ?fallback (close _)] =>
        destruct (keeps_close_abort fallback t Ht) as (Hk & Hs & Hclosed)
    end.
    split; [|etrans; [apply unsubscribe_shrinks|done]].
    eapply keeps_trans; [exact Hk|].
    apply (keeps_unsubscribe (subscriptions t) (eid, AbortResponseSub));
      [by destruct Ht|done|done|by right].
  - destruct (_ ≫= _) as [response|]; [|split; [apply keeps_refl|done]].
    set (t1 := settle_promise p (Resolved (Response response)) t).
    split; [|exact (unsubscribe_shrinks eid t1)].
    apply (keeps_trans t t1); [by apply keeps_fields|].
    apply (keeps_unsubscribe (subscriptions t) (eid, ReceiveSub awaited p));
      [by destruct Ht|done|done|by left].
Qed.

Lemma keeps_notify (msg : BrowserFido2Message) (s : Session) :
  tidy s -> keeps s (notify msg s).
Proof.
  intros Htidy. unfold notify.
  apply (keeps_listeners (on_message msg) s); [|done].
  intros t e _ _ Ht Hlive. by apply keeps_on_message.
Qed.

(** The listeners of the windows. *)
Lemma keeps_window_fold (windowId : nat) (s : Session) :
  tidy s -> keeps s (foldl (on_window_removed windowId) s (subscriptions s)).
Proof.
  intros Htidy.
  apply (keeps_listeners (on_window_removed windowId) s); [|done].
  intros t e _ _ Ht Hlive. unfold on_window_removed.
  destruct (live e.1 t); [|split; [apply keeps_refl|done]].
  destruct e as [eid sub]. destruct sub as [| | | |w|];
    try (split; [apply keeps_refl|done]).
  cbn. case_bool_decide; [|split; [apply keeps_refl|done]].
  destruct (keeps_close_abort false t Ht) as (Hk & Hs & _). done.
Qed.

(** ** The calls that go on, and the events *)

Lemma keeps_resume (s : Session) (i : nat) : keeps s (resume s i).
Proof.
  unfold resume.
  destruct (tasks s !! i) as [[st c k]|]; [|apply keeps_refl].
  destruct st; try apply keeps_refl.
  destruct (connects s !! c) as [[|v|e]|]; try apply keeps_refl.
  - destruct k as [p|msg [awaited p]]; cbn.
    + by apply keeps_fields.
    + eapply keeps_trans; [|apply keeps_subscribe]. by apply keeps_fields.
  - by apply keeps_fields.
Qed.

Lemma keeps_run_tasks (s : Session) : keeps s (run_tasks s).
Proof.
  unfold run_tasks. generalize (seq 0 (length (tasks s))) as l.
  intros l. revert s. induction l as [|i l IH]; intros s; [apply keeps_refl|].
  cbn [foldl]. eapply keeps_trans; [apply keeps_resume|apply IH].
Qed.

Lemma keeps_connect (k : AfterConnect) (s : Session) : keeps s (connect k s).
Proof.
  unfold connect. destruct (closed s) eqn:Hclosed; [by apply keeps_fields|].
  cbv zeta. destruct (connected s).
  - by apply keeps_fields.
  - eapply keeps_trans; [|by apply keeps_fields].
    eapply keeps_trans; [|apply keeps_subscribe]. by apply keeps_fields.
Qed.

Lemma keeps_request (data : Body) (awaited : string) (s : Session) :
  keeps s (request data awaited s).2.
Proof.
  unfold request, new_promise, send. cbn.
  destruct (connected s) eqn:Hconnected; cbn.
  - eapply keeps_trans; [|apply keeps_subscribe]. by apply keeps_fields.
  - eapply keeps_trans; [|apply keeps_connect]. by apply keeps_fields.
Qed.

Lemma keeps_call (operation : Operation) (s : Session) :
  keeps s (call operation s).2.
Proof.
  destruct operation; cbn [call];
    try apply keeps_request.
  unfold ensureUnlockedVault, new_promise. cbn.
  eapply keeps_trans; [|apply keeps_connect]. by apply keeps_fields.
Qed.

Lemma keeps_step (e : Event) (s : Session) : tidy s -> keeps s (step s e).
Proof.
  intros Htidy. destruct e as [operation| |fallback|i status|i opened|msg| |w];
    cbn [step].
  - apply keeps_call.
  - apply keeps_close.
  - eapply keeps_trans; [by apply keeps_abort|apply keeps_run_tasks].
  - unfold authStatus_resolves.
    destruct (tasks s !! i) as [[[] c k]|]; try apply keeps_refl.
    by apply keeps_fields.
  - unfold popOut_resolves.
    destruct (tasks s !! i) as [[[] c k]|]; try apply keeps_refl.
    cbv zeta. eapply keeps_trans; [|apply keeps_run_tasks].
    eapply keeps_trans; [|by apply keeps_fields].
    eapply keeps_trans; [|apply keeps_subscribe]. by apply keeps_fields.
  - unfold deliver.
    eapply keeps_trans; [by apply keeps_notify|apply keeps_run_tasks].
  - unfold aborted_by_relying_party.
    eapply keeps_trans; [by apply keeps_abortController_abort|apply keeps_run_tasks].
  - unfold windows_onRemoved.
    eapply keeps_trans; [by apply keeps_window_fold|apply keeps_run_tasks].
Qed.

Lemma tidy_create (fallback : bool) (id : string) : tidy (create fallback id).
Proof.
  unfold tidy. cbn. split; [|split; [|split]].
  - apply (bool_decide_unpack _). vm_compute. reflexivity.
  - intros x Hx. apply list_elem_of_In in Hx. cbn in Hx.
    destruct Hx as [<-|[<-|[<-|[]]]]; cbn; lia.
  - done.
  - intros _. apply list_elem_of_In. cbn. auto.
Qed.

(** X30.  What holds in every state of a session.  After any sequence of
    calls of the public methods, answers to [getAuthStatus()] and
    [popOut(...)], messages on the bus, aborts of the signal and removals of
    windows, from a session made with a controller that is not aborted: no two
    subscriptions have the same id; [closed] is true exactly when [destroy$]
    has completed; a session whose signal is aborted is closed; and a session
    that is not closed still listens to the abort of its signal. *)
Theorem every_state_of_a_session_is_tidy
  (fallback : bool) (id : string) (events : list Event) :
  let s := run events (create fallback id) in
  NoDup (subscriptions s).*1 /\
  closed s = stopped s /\
  (is_Some (signal s) -> closed s = true) /\
  (closed s = false -> (1%nat, AbortSignalSub) ∈ subscriptions s).
Proof.
  cbv zeta.
  assert (Hrun : forall l s,
            tidy s -> (is_Some (signal s) -> closed s = true) ->
            tidy (run l s) /\ (is_Some (signal (run l s)) -> closed (run l s) = true)).
  { induction l as [|e l IH]; intros s Htidy Hsignal; [done|].
    unfold run. cbn [foldl]. fold (run l (step s e)).
    destruct (keeps_step e s Htidy) as (Ht & Hc & Hs).
    apply IH; [by apply Ht|].
    intros Hsome. destruct Hs as [Hs|Hs]; [|done].
    rewrite Hs in Hsome. by apply Hc, Hsignal. }
  destruct (Hrun events (create fallback id)) as [(Hids & _ & Hflags & Hlistens) Hsig].
  - apply tidy_create.
  - cbn. by intros [? ?].
  - done.
Qed.

End Fido2Invariant.

(** * The popout and its session *)

Module PopupTheory.
Import Fido2 Fido2Theory Fido2More.
Local Open Scope string_scope.

(** A message of the session of the popout that is neither the announcement
    of a session nor an [AbortRequest] becomes the value of [data$]. *)
Lemma on_message_data (message : BrowserFido2Message) (c : Popup.Fido2Component)
  (id : string) :
  Popup.route_sessionId c = Some id ->
  Popup.destroyed c = false ->
  msg_sessionId message = id ->
  type message <> "NewSessionCreatedRequest" ->
  type message <> "AbortRequest" ->
  Popup.on_message message c
  = Popup.set_data (Some message) (Popup.set_sessionId (Some id) c).
Proof.
  intros Hroute Hlive <- Hnew Habort. unfold Popup.on_message.
  rewrite Hlive, Hroute. cbv zeta.
  rewrite (bool_decide_false _ Hnew), (bool_decide_false _ Habort).
  by rewrite (bool_decide_true (Some (msg_sessionId message)
                                = Some (msg_sessionId message))).
Qed.

(** An [AbortRequest] of the session of the popout, or the announcement of
    another session: the popout answers with an [AbortResponse] that asks for
    no fallback and closes its window. *)
Lemma on_message_abort (message : BrowserFido2Message) (c : Popup.Fido2Component)
  (id : string) :
  Popup.route_sessionId c = Some id ->
  Popup.destroyed c = false ->
  (type message = "NewSessionCreatedRequest" /\ msg_sessionId message <> id) \/
  (type message = "AbortRequest" /\ msg_sessionId message = id) ->
  Popup.on_message message c
  = Popup.abort false (Popup.set_sessionId (Some id) c).
Proof.
  intros Hroute Hlive Hcase. unfold Popup.on_message.
  rewrite Hlive, Hroute. cbv zeta.
  destruct Hcase as [[Htype Hother]|[Htype Hsame]].
  - rewrite (bool_decide_true _ Htype).
    rewrite bool_decide_false by (intros [= ?]; done). done.
  - subst id.
    rewrite (bool_decide_true (Some (msg_sessionId message)
                               = Some (msg_sessionId message))) by done.
    rewrite Htype. by rewrite bool_decide_false by discriminate.
Qed.

Section WithSession.
Variables (fallback : bool) (id : string).
Variables (status : AuthenticationStatus) (popout : Popout).

(** X23.  A new session takes the place of the old one.  The constructor
    of a session announces it on the bus; the popout of another session
    answers the announcement with an [AbortResponse] for its own session,
    without fallback, and closes its window; that answer closes the old
    session, aborts its controller with the plain reason and rejects its
    pending operation with [SessionClosedError]. *)
Theorem new_session_ends_the_ceremony_of_the_old_one
  (fallback' : bool) (id' : string) (data : Body) (awaited : string)
  (c : Popup.Fido2Component) :
  id' <> id ->
  Popup.route_sessionId c = Some id ->
  Popup.destroyed c = false ->
  let announcement :=
    {| msg_sessionId := id'; body := NewSessionCreatedRequest |} in
  let answer := {| msg_sessionId := id; body := AbortResponse false |} in
  let c' := Popup.on_message announcement c in
  let old :=
    Ceremonies.connected_to fallback id (request data awaited) status popout in
  log (create fallback' id') = [Broadcast announcement] /\
  Popup.sent c' =
    (Popup.sent c
     ++ [{| Popup.out_sessionId := Some id; Popup.reply := Popup.Aborted false |}])%list /\
  Popup.window_closes c' = S (Popup.window_closes c) /\
  Popup.last_sent c' = Some answer /\
  closed (deliver answer old) = true /\
  signal (deliver answer old) = Some AbortError /\
  promises (deliver answer old) !! 0%nat = Some (Rejected SessionClosedError).
Proof.
  intros Hother Hroute Hlive. cbv zeta.
  rewrite (on_message_abort _ c id Hroute Hlive) by (left; done).
  split; [done|]. split; [done|]. split; [done|].
  split; [unfold Popup.last_sent; cbn; by rewrite last_snoc|].
  rewrite connected_to_request, deliver_own by reflexivity.
  vm_compute. done.
Qed.

(** X24.  [confirmNewCredential], through the popout and back.  The popout
    that was opened for the session announces itself with the session's id;
    it takes the request of the session as its data; when the user confirms,
    it asks for the master password exactly when the request asked for user
    verification, and the operation is fulfilled with a response whose
    [userVerified] is true exactly when verification was asked for and the
    user passed it. *)
Theorem confirmNewCredential_verifies_the_user_when_asked
  (credentialName userName : string) (userVerification answer : bool) :
  let session :=
    Ceremonies.connected_to fallback id
      (confirmNewCredential credentialName userName userVerification)
      status popout in
  let asked :=
    {| msg_sessionId := id;
       body :=
         ConfirmNewCredentialRequest credentialName userName userVerification
           fallback |} in
  let response :=
    {| msg_sessionId := id;
       body := ConfirmNewCredentialResponse (userVerification && answer) |} in
  let loaded := Popup.ngOnInit (Some id) in
  Popup.last_sent loaded = Some (Ceremonies.connect_response id) /\
  last (log session) = Some (Broadcast asked) /\
  exists c,
    Popup.confirmNew answer (Popup.on_message asked loaded) = Some c /\
    Popup.prompts c = (if userVerification then 1%nat else 0%nat) /\
    Popup.last_sent c = Some response /\
    promises (deliver response session) !! 0%nat
    = Some (Resolved (Response response)).
Proof.
  cbv zeta. split; [done|].
  rewrite (connected_to_operation fallback id status popout _
             (ConfirmNewCredentialRequest credentialName userName
                userVerification fallback)
             "ConfirmNewCredentialResponse") by reflexivity.
  split; [done|].
  rewrite (on_message_data _ _ id) by done.
  rewrite deliver_own by reflexivity.
  destruct userVerification, answer; eexists; (split; [reflexivity|]);
    vm_compute; done.
Qed.

(** X25.  [pickCredential] is answered without user verification.  Whatever
    [userVerification] the request of [pickCredential] carries, [pick] in the
    popout asks for no password: it sends a "PickCredentialResponse", the type
    that the operation awaits, with the id of the cipher and no
    [userVerified]. *)
Theorem pickCredential_is_answered_without_user_verification
  (cipherIds : list string) (userVerification : bool) (cipherId : string)
  (answer : bool) :
  let session :=
    Ceremonies.connected_to fallback id
      (pickCredential cipherIds userVerification) status popout in
  let asked :=
    {| msg_sessionId := id;
       body := PickCredentialRequest cipherIds userVerification fallback |} in
  let c := Popup.pick cipherId answer
             (Popup.on_message asked (Popup.ngOnInit (Some id))) in
  last (log session) = Some (Broadcast asked) /\
  (exists eid, (eid, ReceiveSub (Popup.reply_type (Popup.Picked cipherId)) 0)
               ∈ subscriptions session) /\
  Popup.prompts c = 0%nat /\
  Popup.sent c =
    [{| Popup.out_sessionId := Some id; Popup.reply := Popup.Announce |};
     {| Popup.out_sessionId := Some id; Popup.reply := Popup.Picked cipherId |}].
Proof.
  cbv zeta.
  rewrite (connected_to_operation fallback id status popout _
             (PickCredentialRequest cipherIds userVerification fallback)
             "PickCredentialResponse") by reflexivity.
  split; [done|]. split.
  - exists 5%nat. cbn. apply list_elem_of_In. do 3 right. by left.
  - by rewrite (on_message_data _ _ id).
Qed.

(** X26.  The abort of the relying party reaches the popout and ends there.
    The [AbortRequest] that the session broadcasts makes its popout send an
    [AbortResponse] and close its window; the session, which closed itself
    before it broadcast, is not changed by that answer. *)
Theorem abort_request_closes_the_popout_and_ends_there
  (data : Body) (awaited : string) (c : Popup.Fido2Component) :
  Popup.route_sessionId c = Some id ->
  Popup.destroyed c = false ->
  let session :=
    aborted_by_relying_party
      (Ceremonies.connected_to fallback id (request data awaited) status popout) in
  let asked := {| msg_sessionId := id; body := AbortRequest |} in
  let answer := {| msg_sessionId := id; body := AbortResponse false |} in
  let c' := Popup.on_message asked c in
  last (log session) = Some (Broadcast asked) /\
  Popup.window_closes c' = S (Popup.window_closes c) /\
  Popup.last_sent c' = Some answer /\
  deliver answer session = session.
Proof.
  intros Hroute Hlive. cbv zeta.
  rewrite (on_message_abort _ c id Hroute Hlive) by (right; done).
  rewrite connected_to_request.
  split; [done|]. split; [done|].
  split; [unfold Popup.last_sent; cbn; by rewrite last_snoc|].
  rewrite deliver_own by reflexivity. vm_compute. done.
Qed.

End WithSession.

(** What the component keeps through every event: its route, a
    [this.sessionId] that is undefined or the one of the route, and messages
    that all carry one or the other. *)
Lemma step_speaks_for_its_route (param : option string)
  (c : Popup.Fido2Component) (e : Popup.Event) :
  Popup.route_sessionId c = param ->
  Popup.sessionId c = None \/ Popup.sessionId c = param ->
  Forall (fun out => Popup.out_sessionId out = None
                     \/ Popup.out_sessionId out = param) (Popup.sent c) ->
  Popup.route_sessionId (Popup.step c e) = param /\
  (Popup.sessionId (Popup.step c e) = None
   \/ Popup.sessionId (Popup.step c e) = param) /\
  Forall (fun out => Popup.out_sessionId out = None
                     \/ Popup.out_sessionId out = param)
    (Popup.sent (Popup.step c e)).
Proof.
  intros Hroute Hid Hsent.
  assert (Hsend : forall r,
            Forall (fun out => Popup.out_sessionId out = None
                               \/ Popup.out_sessionId out = param)
              (Popup.sent c
               ++ [{| Popup.out_sessionId := Popup.sessionId c;
                      Popup.reply := r |}])).
  { intros r. apply Forall_app. split; [done|]. apply Forall_singleton.
    cbn. by destruct Hid; [left|right]. }
  assert (Hroute' : forall r,
            Forall (fun out => Popup.out_sessionId out = None
                               \/ Popup.out_sessionId out = param)
              (Popup.sent c
               ++ [{| Popup.out_sessionId := Popup.route_sessionId c;
                      Popup.reply := r |}])).
  { intros r. apply Forall_app. split; [done|]. apply Forall_singleton.
    cbn. by right. }
  destruct e as [message|cipherId answer| |answer|fallback| |]; cbn [Popup.step].
  - unfold Popup.on_message. destruct (Popup.destroyed c); [done|].
    cbv zeta. destruct (_ && _); [cbn; by auto|].
    destruct (negb _); [cbn; by auto|].
    destruct (bool_decide _); cbn; by auto.
  - unfold Popup.pick.
    destruct (Popup.data c) as [[sid []]|]; cbn; try done;
      try (split; [done|split; [done|apply Hsend]]).
    destruct userVerification; cbn.
    all: split; [done|split; [done|apply Hsend]].
  - cbn. split; [done|split; [done|apply Hsend]].
  - unfold Popup.confirmNew.
    destruct (Popup.data c) as [[sid []]|]; cbn; try done.
    destruct userVerification; cbn.
    all: split; [done|split; [done|apply Hsend]].
  - cbn. split; [done|split; [done|apply Hsend]].
  - cbn. split; [done|split; [done|apply Hsend]].
  - done.
Qed.

(** X27.  A popout speaks for the session of its route only.  Whatever
    messages arrive and whatever the user does, every message that the
    component sends carries the session id of its route, or none (what it
    sends with [this.sessionId] before the first message has arrived).  It
    never answers for another session, so the filter of a session lets through
    the replies of its own popout only. *)
Theorem popout_speaks_for_the_session_of_its_route_only
  (param : option string) (events : list Popup.Event) :
  Forall (fun out => Popup.out_sessionId out = None
                     \/ Popup.out_sessionId out = param)
    (Popup.sent (Popup.run events (Popup.ngOnInit param))).
Proof.
  assert (Hrun : forall l c,
            Popup.route_sessionId c = param ->
            Popup.sessionId c = None \/ Popup.sessionId c = param ->
            Forall (fun out => Popup.out_sessionId out = None
                               \/ Popup.out_sessionId out = param) (Popup.sent c) ->
            Forall (fun out => Popup.out_sessionId out = None
                               \/ Popup.out_sessionId out = param)
              (Popup.sent (Popup.run l c))).
  { induction l as [|e l IH]; intros c Hroute Hid Hsent; [done|].
    unfold Popup.run. cbn [foldl]. fold (Popup.run l (Popup.step c e)).
    destruct (step_speaks_for_its_route param c e) as (Hr & Hi & Hs); try done.
    by apply IH. }
  apply Hrun; [done|by left|].
  cbn. apply Forall_singleton. cbn. by right.
Qed.

(** ** On the ceremony of session "A" *)

Lemma new_session_ends_the_ceremony_of_the_old_one_witness :
  let announcement :=
    {| msg_sessionId := "B"; body := NewSessionCreatedRequest |} in
  let answer := {| msg_sessionId := "A"; body := AbortResponse false |} in
  let c' := Popup.on_message announcement (Popup.ngOnInit (Some "A")) in
  let old :=
    Ceremonies.connected_to true "A"
      (request (PickCredentialRequest ["c1"; "c2"] false true)
         "PickCredentialResponse") Unlocked (PopoutWindow 7) in
  log (create false "B") = [Broadcast announcement] /\
  Popup.sent c' =
    (Popup.sent (Popup.ngOnInit (Some "A"))
     ++ [{| Popup.out_sessionId := Some "A";
            Popup.reply := Popup.Aborted false |}])%list /\
  Popup.window_closes c' = S (Popup.window_closes (Popup.ngOnInit (Some "A"))) /\
  Popup.last_sent c' = Some answer /\
  closed (deliver answer old) = true /\
  signal (deliver answer old) = Some AbortError /\
  promises (deliver answer old) !! 0%nat = Some (Rejected SessionClosedError).
Proof.
  apply (new_session_ends_the_ceremony_of_the_old_one true "A" Unlocked
           (PopoutWindow 7) false "B"
           (PickCredentialRequest ["c1"; "c2"] false true)
           "PickCredentialResponse" (Popup.ngOnInit (Some "A"))).
  - discriminate.
  - reflexivity.
  - reflexivity.
Defined.

Lemma abort_request_closes_the_popout_and_ends_there_witness :
  let session :=
    aborted_by_relying_party
      (Ceremonies.connected_to true "A"
         (request (PickCredentialRequest ["c1"; "c2"] false true)
            "PickCredentialResponse") Unlocked (PopoutWindow 7)) in
  let asked := {| msg_sessionId := "A"; body := AbortRequest |} in
  let answer := {| msg_sessionId := "A"; body := AbortResponse false |} in
  let c' := Popup.on_message asked (Popup.ngOnInit (Some "A")) in
  last (log session) = Some (Broadcast asked) /\
  Popup.window_closes c' = S (Popup.window_closes (Popup.ngOnInit (Some "A"))) /\
  Popup.last_sent c' = Some answer /\
  deliver answer session = session.
Proof.
  apply (abort_request_closes_the_popout_and_ends_there true "A" Unlocked
           (PopoutWindow 7) (PickCredentialRequest ["c1"; "c2"] false true)
           "PickCredentialResponse" (Popup.ngOnInit (Some "A"))).
  - reflexivity.
  - reflexivity.
Defined.

End PopupTheory.
